(** * openclaw-air-trust: audit ledger and consent gate

    A shallow embedding of [audit-ledger.ts] and [consent-gate.ts]
    together with the properties of the hash chain, of the retention window,
    of the risk classifier and of the consent workflow; at the end, the
    pattern selection of [injection-detector.ts] and the token store of
    [data-vault.ts].

    Conventions of the embedding.
    - A JavaScript string is represented by the bytes of its UTF-8 encoding
      (a [string]); this covers every well-formed string, and [===] on such
      strings is equality of the byte sequences.
    - A JavaScript number that the code only uses as a counter or an index
      is an integer [Z]; doubles are exact on integers below [2^53].
    - [randomUUID()], [new Date().toISOString()], [randomBytes(32)] and the
      outcome of [writeFileSync] are supplied by the caller of the embedded
      function ([AuditLedger.AppendEnv], [ConsentGate.InterceptEnv], the
      arguments of [AuditLedger.new]). *)

From Stdlib Require Import ZArith List String Ascii Lia Bool.
From stdpp Require Import gmap strings list.
Import ListNotations.

(* ================================================================== *)
(** * SHA-256 and HMAC-SHA256 (node's [createHash] / [createHmac])     *)
(* ================================================================== *)

Module Sha256.
Local Open Scope Z_scope.

Definition mask32 : Z := 0xffffffff.
Definition w32 (x : Z) : Z := Z.land x mask32.
Definition add32 (a b : Z) : Z := w32 (a + b).
Definition not32 (x : Z) : Z := Z.lxor (w32 x) mask32.
Definition rotr (n x : Z) : Z :=
  Z.lor (Z.shiftr x n) (w32 (Z.shiftl x (32 - n))).

Definition Ch (x y z : Z) : Z := Z.lxor (Z.land x y) (Z.land (not32 x) z).
Definition Maj (x y z : Z) : Z :=
  Z.lxor (Z.lxor (Z.land x y) (Z.land x z)) (Z.land y z).
Definition bsig0 (x : Z) : Z := Z.lxor (Z.lxor (rotr 2 x) (rotr 13 x)) (rotr 22 x).
Definition bsig1 (x : Z) : Z := Z.lxor (Z.lxor (rotr 6 x) (rotr 11 x)) (rotr 25 x).
Definition ssig0 (x : Z) : Z := Z.lxor (Z.lxor (rotr 7 x) (rotr 18 x)) (Z.shiftr x 3).
Definition ssig1 (x : Z) : Z := Z.lxor (Z.lxor (rotr 17 x) (rotr 19 x)) (Z.shiftr x 10).

(** The constants of FIPS 180-4, from their definition: the first 32 bits of
    the fractional parts of the cube roots ([K]) and of the square roots
    ([H0]) of the first primes. *)
Definition is_prime (n : Z) : bool :=
  (1 <? n) && forallb (fun d => negb (n mod Z.of_nat d =? 0)) (seq 2 (Z.to_nat n - 2)).

Definition primes : list Z :=
  Eval vm_compute in filter (fun n => is_prime n = true) (map Z.of_nat (seq 2 310)).

(** The integer cube root of a number below [2^(3 * bits)], bit by bit. *)
Fixpoint icbrt (bits : nat) (n r : Z) : Z :=
  match bits with
  | O => r
  | S bits' =>
      let r' := r + 2 ^ Z.of_nat bits' in
      if r' * r' * r' <=? n then icbrt bits' n r' else icbrt bits' n r
  end.

Definition K : list Z :=
  Eval vm_compute in map (fun p => w32 (icbrt 36 (p * 2 ^ 96) 0)) primes.

(** The eight working words. *)
Record regs : Type := Regs {
  ra : Z; rb : Z; rc : Z; rd : Z; re : Z; rf : Z; rg : Z; rh : Z }.

Definition frac_sqrt (i : nat) : Z := w32 (Z.sqrt (nth i primes 0 * 2 ^ 64)).

Definition H0 : regs :=
  Eval vm_compute in
    Regs (frac_sqrt 0) (frac_sqrt 1) (frac_sqrt 2) (frac_sqrt 3)
         (frac_sqrt 4) (frac_sqrt 5) (frac_sqrt 6) (frac_sqrt 7).

(** Padding: one [0x80] octet, zeros up to 56 mod 64, then the bit length
    as a 64-bit big-endian integer. *)
Definition be_octets (width : nat) (x : Z) : list Z :=
  map (fun i => Z.land (Z.shiftr x (8 * Z.of_nat i)) 0xff) (rev (seq 0 width)).

Definition pad (msg : list Z) : list Z :=
  let len := Z.of_nat (length msg) in
  let zeros := Z.to_nat ((55 - len) mod 64) in
  msg ++ 0x80 :: repeat 0 zeros ++ be_octets 8 (8 * len).

(** Big-endian 32-bit words of an octet sequence. *)
Fixpoint words (l : list Z) : list Z :=
  match l with
  | b0 :: b1 :: b2 :: b3 :: rest =>
      (Z.shiftl b0 24 + Z.shiftl b1 16 + Z.shiftl b2 8 + b3) :: words rest
  | _ => []
  end.

(** Message schedule; [wrev] holds the words computed so far, newest first. *)
Fixpoint schedule (n : nat) (wrev : list Z) : list Z :=
  match n with
  | O => rev wrev
  | S n' =>
      let w := add32 (add32 (ssig1 (nth 1 wrev 0)) (nth 6 wrev 0))
                     (add32 (ssig0 (nth 14 wrev 0)) (nth 15 wrev 0)) in
      schedule n' (w :: wrev)
  end.

Definition round (s : regs) (kw : Z * Z) : regs :=
  let t1 := add32 (add32 (add32 (rh s) (bsig1 (re s)))
                         (add32 (Ch (re s) (rf s) (rg s)) (fst kw))) (snd kw) in
  let t2 := add32 (bsig0 (ra s)) (Maj (ra s) (rb s) (rc s)) in
  Regs (add32 t1 t2) (ra s) (rb s) (rc s) (add32 (rd s) t1) (re s) (rf s) (rg s).

Definition compress (h : regs) (block : list Z) : regs :=
  let w := schedule 48 (rev block) in
  let s := fold_left round (combine K w) h in
  Regs (add32 (ra h) (ra s)) (add32 (rb h) (rb s)) (add32 (rc h) (rc s))
       (add32 (rd h) (rd s)) (add32 (re h) (re s)) (add32 (rf h) (rf s))
       (add32 (rg h) (rg s)) (add32 (rh h) (rh s)).

(** One block is sixteen words; [fuel] bounds the number of blocks. *)
Fixpoint blocks (fuel : nat) (h : regs) (ws : list Z) : regs :=
  match fuel with
  | O => h
  | S fuel' =>
      match ws with
      | [] => h
      | _ => blocks fuel' (compress h (firstn 16 ws)) (skipn 16 ws)
      end
  end.

Definition digest_regs (msg : list Z) : regs :=
  let ws := words (pad msg) in
  blocks (length ws) H0 ws.

Definition regs_words (r : regs) : list Z :=
  [ra r; rb r; rc r; rd r; re r; rf r; rg r; rh r].

(** The raw 32-octet digest. *)
Definition digest (msg : list Z) : list Z :=
  flat_map (be_octets 4) (regs_words (digest_regs msg)).

(** Lower-case hexadecimal, as [digest('hex')] prints it. *)
Definition hex_digit (n : Z) : ascii :=
  if n <? 10 then ascii_of_N (Z.to_N (48 + n)) else ascii_of_N (Z.to_N (87 + n)).

Definition hex_of_octet (b : Z) : list ascii :=
  [hex_digit (Z.land (Z.shiftr b 4) 0xf); hex_digit (Z.land b 0xf)].

Definition hex (octets : list Z) : string :=
  string_of_list_ascii (flat_map hex_of_octet octets).

Definition octets_of_string (s : string) : list Z :=
  map (fun c => Z.of_N (N_of_ascii c)) (list_ascii_of_string s).

(** [createHash('sha256').update(s).digest('hex')] *)
Definition sha256_hex (s : string) : string := hex (digest (octets_of_string s)).

(** [createHmac('sha256', key).update(s).digest('hex')] (RFC 2104, block
    size 64): a key longer than one block is hashed first. *)
Definition hmac_key_block (key : list Z) : list Z :=
  let k := if (64 <? Z.of_nat (length key)) then digest key else key in
  k ++ repeat 0 (64 - length k)%nat.

Definition hmac (key msg : list Z) : list Z :=
  let kb := hmac_key_block key in
  let ipad := map (Z.lxor 0x36) kb in
  let opad := map (Z.lxor 0x5c) kb in
  digest (opad ++ digest (ipad ++ msg)).

Definition hmac_sha256_hex (key : list Z) (s : string) : string :=
  hex (hmac key (octets_of_string s)).

End Sha256.

Local Open Scope string_scope.

(* ================================================================== *)
(** * JSON values and [JSON.stringify]                                 *)
(* ================================================================== *)

Module Json.

(** The values that [JSON.stringify] prints for a [Record<string, unknown>]
    holding data: an object is the list of its own enumerable properties in
    enumeration order; numbers are the integers. *)
#[local] Set Warnings "-register-all".
Inductive t : Type :=
| Null
| Bool (b : bool)
| Num (n : Z)
| Str (s : string)
| Arr (items : list t)
| Obj (props : list (string * t)).

Local Open Scope Z_scope.

Definition digit_char (d : Z) : ascii := ascii_of_N (Z.to_N (48 + d)).

Fixpoint dec_digits (fuel : nat) (n : Z) (acc : list ascii) : list ascii :=
  match fuel with
  | O => acc
  | S fuel' =>
      let acc' := digit_char (n mod 10) :: acc in
      if n <? 10 then acc' else dec_digits fuel' (n / 10) acc'
  end.

(** [String(n)] / [`${n}`] for an integer [n] that JavaScript prints in
    plain digits, that is, below [10^21] in absolute value. *)
Definition number_to_string (n : Z) : string :=
  let m := Z.abs n in
  let ds := string_of_list_ascii (dec_digits (S (Z.to_nat (Z.log2 m))) m []) in
  if n <? 0 then "-" +:+ ds else ds.

Definition dquote : string := String (ascii_of_N 34) EmptyString.

(** [QuoteJSONString]: the two-character escapes, [\u00xx] for the other
    control characters, everything else verbatim. *)
Definition escape_char (c : ascii) : string :=
  let n := Z.of_N (N_of_ascii c) in
  if n =? 34 then "\" +:+ dquote
  else if n =? 92 then "\\"
  else if n =? 8 then "\b"
  else if n =? 12 then "\f"
  else if n =? 10 then "\n"
  else if n =? 13 then "\r"
  else if n =? 9 then "\t"
  else if n <? 32 then "\u00" +:+ string_of_list_ascii (Sha256.hex_of_octet n)
  else String c EmptyString.

Fixpoint escape (s : string) : string :=
  match s with
  | EmptyString => EmptyString
  | String c s' => escape_char c +:+ escape s'
  end.

Definition quote (s : string) : string := dquote +:+ escape s +:+ dquote.

Fixpoint join (sep : string) (l : list string) : string :=
  match l with
  | [] => EmptyString
  | [x] => x
  | x :: rest => x +:+ sep +:+ join sep rest
  end.

Fixpoint stringify (j : t) : string :=
  match j with
  | Null => "null"
  | Bool true => "true"
  | Bool false => "false"
  | Num n => number_to_string n
  | Str s => quote s
  | Arr items => "[" +:+ join "," (map stringify items) +:+ "]"
  | Obj props =>
      "{" +:+ join "," (map (fun kv => quote (fst kv) +:+ ":" +:+ stringify (snd kv)) props)
          +:+ "}"
  end.

(** An object literal some of whose properties may be [undefined]:
    [JSON.stringify] leaves those out. *)
Definition object (fields : list (string * option t)) : t :=
  Obj (omap (fun kv => match snd kv with
                       | Some v => Some (fst kv, v)
                       | None => None
                       end) fields).

End Json.

(* ================================================================== *)
(** * types.ts                                                         *)
(* ================================================================== *)

(** [type RiskLevel = 'critical' | 'high' | 'medium' | 'low' | 'none'] *)
Inductive RiskLevel : Type := critical | high | medium | low | none.

Definition RiskLevel_string (r : RiskLevel) : string :=
  match r with
  | critical => "critical"
  | high => "high"
  | medium => "medium"
  | low => "low"
  | none => "none"
  end.

#[global] Instance RiskLevel_eq_dec : EqDecision RiskLevel.
Proof. solve_decision. Defined.

(** The outcome of a call that may throw. *)
Inductive outcome (A : Type) : Type :=
| Returned (a : A)
| Thrown.
Arguments Returned {A} a.
Arguments Thrown {A}.

Module AuditEntry.

Record t : Type := Build {
  id : string;
  sequence : Z;
  hash : string;
  prevHash : string;
  signature : string;
  timestamp : string;
  action : string;
  toolName : option string;
  riskLevel : RiskLevel;
  consentRequired : bool;
  consentGranted : option bool;
  dataTokenized : bool;
  injectionDetected : bool;
  metadata : list (string * Json.t)
}.

(** Field assignments [entry.f = v]. *)
Definition set_hash (v : string) (e : t) : t :=
  Build (id e) (sequence e) v (prevHash e) (signature e) (timestamp e)
        (action e) (toolName e) (riskLevel e) (consentRequired e)
        (consentGranted e) (dataTokenized e) (injectionDetected e) (metadata e).

Definition set_prevHash (v : string) (e : t) : t :=
  Build (id e) (sequence e) (hash e) v (signature e) (timestamp e)
        (action e) (toolName e) (riskLevel e) (consentRequired e)
        (consentGranted e) (dataTokenized e) (injectionDetected e) (metadata e).

Definition set_signature (v : string) (e : t) : t :=
  Build (id e) (sequence e) (hash e) (prevHash e) v (timestamp e)
        (action e) (toolName e) (riskLevel e) (consentRequired e)
        (consentGranted e) (dataTokenized e) (injectionDetected e) (metadata e).

Definition set_action (v : string) (e : t) : t :=
  Build (id e) (sequence e) (hash e) (prevHash e) (signature e) (timestamp e)
        v (toolName e) (riskLevel e) (consentRequired e)
        (consentGranted e) (dataTokenized e) (injectionDetected e) (metadata e).

End AuditEntry.

(* ================================================================== *)
(** * audit-ledger.ts                                                  *)
(* ================================================================== *)

(** [Array.prototype.slice(start)] with an integer [start]: a negative
    [start] counts from the end, and both ends are clamped. *)
Definition slice_from {A : Type} (start : Z) (l : list A) : list A :=
  let len := Z.of_nat (length l) in
  let k := if (start <? 0)%Z then Z.max (len + start) 0 else Z.min start len in
  drop (Z.to_nat k) l.

Module AuditLedger.
Local Open Scope Z_scope.

Definition GENESIS_HASH : string :=
  "0000000000000000000000000000000000000000000000000000000000000000".

Record AuditLedgerConfig : Type := {
  enabled : bool;
  localPath : string;
  forwardToGateway : bool;
  maxEntries : Z
}.

(** What [saveChain] writes to [config.localPath]. *)
Record SavedChain : Type := {
  saved_entries : list AuditEntry.t;
  saved_sequence : Z;
  saved_lastHash : string;
  savedAt : string
}.

(** The file at [config.localPath]: text that [JSON.parse] rejects, or a
    saved chain. *)
Inductive ChainFile : Type :=
| Corrupted
| Saved (data : SavedChain).

(** The private fields of the class, followed by the two things outside the
    object that its methods act on: the file at [config.localPath] and the
    entries handed to [forwardEntry]. *)
Record t : Type := Build {
  entries : list AuditEntry.t;
  secret : list Z;
  lastHash : string;
  sequence : Z;
  config : AuditLedgerConfig;
  gatewayUrl : option string;
  gatewayKey : option string;
  file : option ChainFile;
  forwarded : list AuditEntry.t
}.

Definition set_entries (v : list AuditEntry.t) (l : t) : t :=
  Build v (secret l) (lastHash l) (sequence l) (config l) (gatewayUrl l)
        (gatewayKey l) (file l) (forwarded l).
Definition set_lastHash (v : string) (l : t) : t :=
  Build (entries l) (secret l) v (sequence l) (config l) (gatewayUrl l)
        (gatewayKey l) (file l) (forwarded l).
Definition set_sequence (v : Z) (l : t) : t :=
  Build (entries l) (secret l) (lastHash l) v (config l) (gatewayUrl l)
        (gatewayKey l) (file l) (forwarded l).
Definition set_file (v : option ChainFile) (l : t) : t :=
  Build (entries l) (secret l) (lastHash l) (sequence l) (config l)
        (gatewayUrl l) (gatewayKey l) v (forwarded l).
Definition set_forwarded (v : list AuditEntry.t) (l : t) : t :=
  Build (entries l) (secret l) (lastHash l) (sequence l) (config l)
        (gatewayUrl l) (gatewayKey l) (file l) v.

(** [loadChain]: an unreadable file starts a fresh chain. *)
Definition loadChain (l : t) : t :=
  match file l with
  | None => l
  | Some (Saved data) =>
      set_lastHash (saved_lastHash data)
        (set_sequence (saved_sequence data)
           (set_entries (saved_entries data) l))
  | Some Corrupted =>
      set_lastHash GENESIS_HASH (set_sequence 0 (set_entries [] l))
  end.

(** The constructor. [keyFile] is the key stored next to the ledger, if that
    file exists; [random] is what [randomBytes(32)] returns otherwise. *)
Definition new (cfg : AuditLedgerConfig) (url key : option string)
    (keyFile : option (list Z)) (random : list Z)
    (chainFile : option ChainFile) : t :=
  let s := match keyFile with Some k => k | None => random end in
  loadChain (Build [] s GENESIS_HASH 0 cfg url key chainFile []).

(** The argument of [append]. *)
Module Params.
Record t : Type := {
  action : string;
  toolName : option string;
  riskLevel : RiskLevel;
  consentRequired : bool;
  consentGranted : option bool;
  dataTokenized : bool;
  injectionDetected : bool;
  metadata : option (list (string * Json.t))
}.
End Params.

(** What one call of [append] draws from its environment. *)
Record AppendEnv : Type := {
  uuid : string;        (* randomUUID() *)
  now : string;         (* new Date().toISOString() in append *)
  saveTime : string;    (* new Date().toISOString() in saveChain *)
  writeOk : bool;       (* whether mkdirSync/writeFileSync succeed *)
  writeCut : bool       (* when they fail: whether the file had been opened *)
}.

(** The string whose SHA-256 is the entry's [hash]. *)
Definition contentForHash (e : AuditEntry.t) : string :=
  Json.stringify (Json.object
    [ ("id", Some (Json.Str (AuditEntry.id e)));
      ("sequence", Some (Json.Num (AuditEntry.sequence e)));
      ("timestamp", Some (Json.Str (AuditEntry.timestamp e)));
      ("action", Some (Json.Str (AuditEntry.action e)));
      ("toolName", Json.Str <$> AuditEntry.toolName e);
      ("riskLevel", Some (Json.Str (RiskLevel_string (AuditEntry.riskLevel e))));
      ("consentRequired", Some (Json.Bool (AuditEntry.consentRequired e)));
      ("consentGranted", Json.Bool <$> AuditEntry.consentGranted e);
      ("dataTokenized", Some (Json.Bool (AuditEntry.dataTokenized e)));
      ("injectionDetected", Some (Json.Bool (AuditEntry.injectionDetected e)));
      ("metadata", Some (Json.Obj (AuditEntry.metadata e))) ]).

Definition computeHash (e : AuditEntry.t) : string :=
  Sha256.sha256_hex (contentForHash e).

(** [`${entry.sequence}|${entry.id}|${entry.hash}|${entry.prevHash}`] *)
Definition sigPayload (e : AuditEntry.t) : string :=
  Json.number_to_string (AuditEntry.sequence e) +:+ "|" +:+ AuditEntry.id e
    +:+ "|" +:+ AuditEntry.hash e +:+ "|" +:+ AuditEntry.prevHash e.

Definition computeSignature (key : list Z) (e : AuditEntry.t) : string :=
  Sha256.hmac_sha256_hex key (sigPayload e).

(** [saveChain]: the ledger afterwards, and whether the write went through.
    [writeFileSync] opens the file for writing, which empties it, and then
    writes the text.  A write that fails before the file is opened leaves the
    file as it was; one that fails later leaves it empty or cut short, and
    [JSON.parse] rejects every proper prefix of the text. *)
Definition saveChain (env : AppendEnv) (l : t) : t * bool :=
  if writeOk env then
    (set_file (Some (Saved {| saved_entries := entries l;
                              saved_sequence := sequence l;
                              saved_lastHash := lastHash l;
                              savedAt := saveTime env |})) l, true)
  else if writeCut env then (set_file (Some Corrupted) l, false)
  else (l, false).

(** Truthiness of an optional string. *)
Definition truthy (s : option string) : bool :=
  match s with
  | Some (String _ _) => true
  | _ => false
  end.

Definition append (env : AppendEnv) (params : Params.t) (l : t)
  : t * outcome AuditEntry.t :=
  let l1 := set_sequence (sequence l + 1) l in
  let entry0 :=
    {| AuditEntry.id := uuid env;
       AuditEntry.sequence := sequence l1;
       AuditEntry.hash := EmptyString;
       AuditEntry.prevHash := lastHash l1;
       AuditEntry.signature := EmptyString;
       AuditEntry.timestamp := now env;
       AuditEntry.action := Params.action params;
       AuditEntry.toolName := Params.toolName params;
       AuditEntry.riskLevel := Params.riskLevel params;
       AuditEntry.consentRequired := Params.consentRequired params;
       AuditEntry.consentGranted := Params.consentGranted params;
       AuditEntry.dataTokenized := Params.dataTokenized params;
       AuditEntry.injectionDetected := Params.injectionDetected params;
       AuditEntry.metadata := default [] (Params.metadata params) |} in
  let entry1 := AuditEntry.set_hash (computeHash entry0) entry0 in
  let entry := AuditEntry.set_signature (computeSignature (secret l1) entry1) entry1 in
  let l2 := set_entries (entries l1 ++ [entry]) (set_lastHash (AuditEntry.hash entry) l1) in
  (* Trim if over max *)
  let l3 :=
    if (0 <? maxEntries (config l2)) && (maxEntries (config l2) <? Z.of_nat (length (entries l2)))
    then set_entries (slice_from (- maxEntries (config l2)) (entries l2)) l2
    else l2 in
  (* Persist locally *)
  let saved := saveChain env l3 in
  let l4 := saved.1 in
  if saved.2 then
    (* Non-blocking forward to gateway *)
    let l5 :=
      if forwardToGateway (config l4) && truthy (gatewayUrl l4)
      then set_forwarded (forwarded l4 ++ [entry]) l4
      else l4 in
    (l5, Returned entry)
  else (l4, Thrown).

Record ChainVerification : Type := {
  valid : bool;
  totalEntries : Z;
  brokenAtSequence : option Z;
  brokenAtId : option string;
  reason : option string
}.

Definition broken (total : Z) (e : AuditEntry.t) (why : string) : ChainVerification :=
  {| valid := false;
     totalEntries := total;
     brokenAtSequence := Some (AuditEntry.sequence e);
     brokenAtId := Some (AuditEntry.id e);
     reason := Some (why +:+ Json.number_to_string (AuditEntry.sequence e)) |}.

Definition intact (total : Z) : ChainVerification :=
  {| valid := true; totalEntries := total;
     brokenAtSequence := None; brokenAtId := None; reason := None |}.

(** The [for] loop of [verify]: [rest] is what is left to visit. *)
Fixpoint verify_loop (key : list Z) (total : Z) (expectedPrevHash : string)
    (rest : list AuditEntry.t) : ChainVerification :=
  match rest with
  | [] => intact total
  | entry :: rest' =>
      if negb (String.eqb (AuditEntry.prevHash entry) expectedPrevHash) then
        broken total entry "prevHash mismatch at sequence "
      else if negb (String.eqb (AuditEntry.hash entry) (computeHash entry)) then
        broken total entry "Content hash mismatch at sequence "
      else if negb (String.eqb (AuditEntry.signature entry)
                               (computeSignature key entry)) then
        broken total entry "Signature mismatch at sequence "
      else verify_loop key total (AuditEntry.hash entry) rest'
  end.

Definition verify (l : t) : ChainVerification :=
  if Z.of_nat (length (entries l)) =? 0 then intact 0
  else verify_loop (secret l) (Z.of_nat (length (entries l))) GENESIS_HASH (entries l).

(** [getRecent(n)]; the parameter defaults to 50. *)
Definition getRecent (n : option Z) (l : t) : list AuditEntry.t :=
  slice_from (- default 50 n) (entries l).

(** [export()]: a new array holding the same entries. *)
Definition export (l : t) : list AuditEntry.t := entries l.

(** The result of [stats()]. *)
Module Stats.
Record t : Type := {
  totalEntries : Z;
  chainValid : bool;
  earliest : option string;
  latest : option string
}.
End Stats.

(** [stats()]; [this.entries[i]?.timestamp] is [undefined] out of range. *)
Definition stats (l : t) : Stats.t :=
  let verification := verify l in
  {| Stats.totalEntries := Z.of_nat (length (entries l));
     Stats.chainValid := valid verification;
     Stats.earliest := AuditEntry.timestamp <$> head (entries l);
     Stats.latest := AuditEntry.timestamp <$> last (entries l) |}.

End AuditLedger.

(* ================================================================== *)
(** * consent-gate.ts                                                  *)
(* ================================================================== *)

(** [String.prototype.toLowerCase] on the ASCII letters.  The table below
    holds lower-case ASCII keys only, and the only non-ASCII characters whose
    lower case contains an ASCII letter are U+212A and U+0130; on every name
    without those two the search below agrees with the JavaScript one. *)
Definition lower_char (c : ascii) : ascii :=
  let n := N_of_ascii c in
  if ((65 <=? n) && (n <=? 90))%N then ascii_of_N (n + 32) else c.

Fixpoint toLowerCase (s : string) : string :=
  match s with
  | EmptyString => EmptyString
  | String c s' => String (lower_char c) (toLowerCase s')
  end.

(** [String.prototype.toUpperCase] on the ASCII letters. *)
Definition upper_char (c : ascii) : ascii :=
  let n := N_of_ascii c in
  if ((97 <=? n) && (n <=? 122))%N then ascii_of_N (n - 32) else c.

Fixpoint toUpperCase (s : string) : string :=
  match s with
  | EmptyString => EmptyString
  | String c s' => String (upper_char c) (toUpperCase s')
  end.

(** The string with the given UTF-8 octets. *)
Definition utf8 (octets : list Z) : string :=
  string_of_list_ascii (map (fun b => ascii_of_N (Z.to_N b)) octets).

(** [s.includes(pattern)] *)
Fixpoint includes (s pattern : string) : bool :=
  String.prefix pattern s ||
  match s with
  | EmptyString => false
  | String _ s' => includes s' pattern
  end.

Module ConsentGate.
Local Open Scope Z_scope.

(** Default risk classification for common tool patterns; the properties
    of the object literal in creation order, which is the order of
    [Object.entries]. *)
Definition TOOL_RISK_MAP : list (string * RiskLevel) :=
  [ (* Critical — arbitrary code execution *)
    ("exec", critical); ("spawn", critical); ("shell", critical);
    ("run_command", critical); ("execute", critical);
    (* High — filesystem writes, destructive actions *)
    ("fs_write", high); ("fs_delete", high); ("file_write", high);
    ("file_delete", high); ("apply_patch", high); ("rm", high);
    ("rmdir", high); ("git_push", high); ("deploy", high);
    (* Medium — communication, network *)
    ("send_email", medium); ("email_send", medium); ("sessions_send", medium);
    ("slack_send", medium); ("http_request", medium); ("api_call", medium);
    (* Low — reads, queries *)
    ("fs_read", low); ("file_read", low); ("search", low); ("query", low) ].

(** The properties that every object literal inherits from
    [Object.prototype]. *)
Definition Object_prototype : list string :=
  [ "constructor"; "__defineGetter__"; "__defineSetter__"; "hasOwnProperty";
    "__lookupGetter__"; "__lookupSetter__"; "isPrototypeOf";
    "propertyIsEnumerable"; "toString"; "valueOf"; "__proto__";
    "toLocaleString" ].

(** What [TOOL_RISK_MAP[name]] can evaluate to, when it is not [undefined]:
    one of the levels of the table, or the member of [Object.prototype] of
    that name (a function, or the prototype object for [__proto__]). *)
Inductive Value : Type :=
| Level (r : RiskLevel)
| Inherited (name : string).

Fixpoint own (table : list (string * RiskLevel)) (name : string) : option RiskLevel :=
  match table with
  | [] => None
  | (k, r) :: rest => if String.eqb k name then Some r else own rest name
  end.

(** [TOOL_RISK_MAP[name]]: own properties first, then the prototype. *)
Definition get (name : string) : option Value :=
  match own TOOL_RISK_MAP name with
  | Some r => Some (Level r)
  | None =>
      if bool_decide (name ∈ Object_prototype) then Some (Inherited name) else None
  end.

(** Every value [get] returns is truthy: a non-empty string or an object. *)
Definition classifyRisk (toolName : string) : Value :=
  match get toolName with
  | Some v => v
  | None =>
      let lower := toLowerCase toolName in
      match find (fun entry : string * RiskLevel => includes lower entry.1)
                 TOOL_RISK_MAP with
      | Some (_, level) => Level level
      | None => Level low
      end
  end.

(** [RISK_ORDER] of types.ts. *)
Definition RISK_ORDER (r : RiskLevel) : Z :=
  match r with
  | none => 0
  | low => 1
  | medium => 2
  | high => 3
  | critical => 4
  end.

(** [RISK_ORDER[v]]: a value that is not a level is turned into a property
    key (the source text of the function, or [[object Object]]), which names
    no property, so the lookup is [undefined]. *)
Definition RISK_ORDER_get (v : Value) : option Z :=
  match v with
  | Level r => Some (RISK_ORDER r)
  | Inherited _ => None
  end.

(** [a >= b] on numbers-or-undefined: [undefined] converts to [NaN]. *)
Definition js_ge (a b : option Z) : bool :=
  match a, b with
  | Some x, Some y => y <=? x
  | _, _ => false
  end.

Record ConsentGateConfig : Type := {
  enabled : bool;
  alwaysRequire : list string;
  neverRequire : list string;
  timeoutMs : Z;
  riskThreshold : RiskLevel
}.

Definition requiresConsent (config : ConsentGateConfig) (toolName : string) : bool :=
  (* Explicit never-require list *)
  if bool_decide (toolName ∈ neverRequire config) then false
  (* Explicit always-require list *)
  else if bool_decide (toolName ∈ alwaysRequire config) then true
  (* Risk threshold check *)
  else
    let risk := classifyRisk toolName in
    js_ge (RISK_ORDER_get risk) (RISK_ORDER_get (Level (riskThreshold config))).

(** ** The consent workflow

    [intercept] is an async function; between its [await]s other callbacks
    run.  The embedding is the state of the gate together with one
    transition per callback that the event loop can run:
    - [intercept]: the call up to its suspension inside [waitForApproval];
    - [handleResponse]: the synchronous method;
    - [timerFires]: the [setTimeout] callback of one suspended call;
    - [resume]: the rest of [intercept] after [await this.waitForApproval],
      which the event loop runs once, after the promise is settled.
    The text of the prompt is [formatConsentMessage], further down; the
    transitions do not depend on it. *)

Inductive Status : Type := pending | approved | rejected | timeout.

#[global] Instance Status_eq_dec : EqDecision Status.
Proof. solve_decision. Defined.

Definition Status_string (s : Status) : string :=
  match s with
  | pending => "pending"
  | approved => "approved"
  | rejected => "rejected"
  | timeout => "timeout"
  end.

Record ConsentRequest : Type := {
  id : string;
  toolName : string;
  toolArgs : list (string * Json.t);
  riskLevel : RiskLevel;
  reason : string;
  status : Status;
  createdAt : string;
  resolvedAt : option string
}.

Definition set_status (v : Status) (r : ConsentRequest) : ConsentRequest :=
  {| id := id r; toolName := toolName r; toolArgs := toolArgs r;
     riskLevel := riskLevel r; reason := reason r; status := v;
     createdAt := createdAt r; resolvedAt := resolvedAt r |}.

Definition set_resolvedAt (v : string) (r : ConsentRequest) : ConsentRequest :=
  {| id := id r; toolName := toolName r; toolArgs := toolArgs r;
     riskLevel := riskLevel r; reason := reason r; status := status r;
     createdAt := createdAt r; resolvedAt := Some v |}.

(** One call of [intercept] suspended in [waitForApproval]: its request
    object, the state of the promise ([settled] holds the argument of the
    first [resolve]), whether the timer is still to fire, and whether the
    call has been resumed. *)
Record Suspended : Type := {
  request : ConsentRequest;
  settled : option bool;
  timerArmed : bool;
  resumed : bool
}.

Definition set_request (v : ConsentRequest) (w : Suspended) : Suspended :=
  {| request := v; settled := settled w; timerArmed := timerArmed w;
     resumed := resumed w |}.
Definition set_settled (v : option bool) (w : Suspended) : Suspended :=
  {| request := request w; settled := v; timerArmed := timerArmed w;
     resumed := resumed w |}.
Definition set_timerArmed (v : bool) (w : Suspended) : Suspended :=
  {| request := request w; settled := settled w; timerArmed := v;
     resumed := resumed w |}.
Definition set_resumed (v : bool) (w : Suspended) : Suspended :=
  {| request := request w; settled := settled w; timerArmed := timerArmed w;
     resumed := v |}.

(** The gate.  [pendingRequests] maps a consent id to the pair
    [{request, resolve}] of one suspended call, named by its position in
    [suspended]. *)
Record t : Type := Build {
  config : ConsentGateConfig;
  ledger : AuditLedger.t;
  pendingRequests : gmap string nat;
  suspended : list Suspended
}.

Definition set_ledger (v : AuditLedger.t) (g : t) : t :=
  Build (config g) v (pendingRequests g) (suspended g).
Definition set_pendingRequests (v : gmap string nat) (g : t) : t :=
  Build (config g) (ledger g) v (suspended g).
Definition set_suspended (v : list Suspended) (g : t) : t :=
  Build (config g) (ledger g) (pendingRequests g) v.

Definition new (config : ConsentGateConfig) (ledger : AuditLedger.t) : t :=
  Build config ledger ∅ [].

Record ToolCallEvent : Type := {
  ev_toolName : string;
  ev_args : list (string * Json.t);
  ev_sessionId : string;
  ev_timestamp : string
}.

Record ToolCallResult : Type := {
  blocked : bool;
  blocked_reason : option string
}.

(** What the callbacks do to the outside, in order. *)
Inductive Output : Type :=
| InterceptSettled (r : outcome ToolCallResult)
| HandleResponseReturned (b : bool)
| LedgerAppend (params : AuditLedger.Params.t).

(** [resolve(v)] of the promise of call [h]: only the first call counts. *)
Definition resolve (h : nat) (v : bool) (g : t) : t :=
  set_suspended
    (alter (fun w => match settled w with
                     | None => set_settled (Some v) w
                     | Some _ => w
                     end) h (suspended g)) g.

Record InterceptEnv : Type := {
  i_uuid : string;        (* randomUUID() *)
  i_now : string;         (* new Date().toISOString() *)
  i_sendOk : bool         (* whether ctx.sendMessage resolves *)
}.

(** [intercept] up to the moment it is suspended in [waitForApproval].
    [formatConsentMessage] throws on a risk that is not a string
    ([toUpperCase] is not a function). *)
Definition intercept (event : ToolCallEvent) (env : InterceptEnv) (g : t)
  : t * list Output :=
  if negb (requiresConsent (config g) (ev_toolName event)) then
    (g, [InterceptSettled (Returned {| blocked := false; blocked_reason := None |})])
  else
    match classifyRisk (ev_toolName event) with
    | Inherited _ => (g, [InterceptSettled Thrown])
    | Level risk =>
        let request :=
          {| id := i_uuid env;
             toolName := ev_toolName event;
             toolArgs := ev_args event;
             riskLevel := risk;
             reason := "Tool " +:+ Json.dquote +:+ ev_toolName event +:+ Json.dquote
                       +:+ " classified as " +:+ RiskLevel_string risk +:+ " risk";
             status := pending;
             createdAt := i_now env;
             resolvedAt := None |} in
        if i_sendOk env then
          (* waitForApproval: store the resolver, arm the timer *)
          let h := length (suspended g) in
          let g1 := set_suspended
                      (suspended g ++ [{| request := request; settled := None;
                                          timerArmed := true; resumed := false |}]) g in
          (set_pendingRequests (<[id request := h]> (pendingRequests g1)) g1, [])
        else (g, [InterceptSettled Thrown])
    end.

Definition handleResponse (consentId : string) (approved : bool) (g : t) : t * bool :=
  match pendingRequests g !! consentId with
  | None => (g, false)
  | Some h =>
      let g1 := resolve h approved g in
      (set_pendingRequests (delete consentId (pendingRequests g1)) g1, true)
  end.

(** The [setTimeout] callback of call [h]. *)
Definition timerFires (h : nat) (g : t) : t :=
  match suspended g !! h with
  | Some w =>
      if timerArmed w then
        let g0 := set_suspended (alter (set_timerArmed false) h (suspended g)) g in
        if bool_decide (is_Some (pendingRequests g0 !! id (request w))) then
          let g1 := set_suspended
                      (alter (fun w => set_request (set_status timeout (request w)) w)
                             h (suspended g0)) g0 in
          let g2 := set_pendingRequests
                      (delete (id (request w)) (pendingRequests g1)) g1 in
          resolve h false g2
        else g0
      else g
  | None => g
  end.

Record ResumeEnv : Type := {
  r_now : string;                       (* new Date().toISOString() *)
  r_append : AuditLedger.AppendEnv      (* what ledger.append draws *)
}.

(** The rest of [intercept], once [approved] is known. *)
Definition resume (h : nat) (env : ResumeEnv) (g : t) : t * list Output :=
  match suspended g !! h with
  | Some w =>
      match settled w, resumed w with
      | Some approved_, false =>
          (* Update request status (timeout is set inside waitForApproval) *)
          let wasTimeout := bool_decide (status (request w) = timeout) in
          let st := if wasTimeout then timeout
                    else if approved_ then approved else rejected in
          let request' := set_resolvedAt (r_now env) (set_status st (request w)) in
          let g1 := set_suspended
                      (alter (fun w => set_resumed true (set_request request' w))
                             h (suspended g)) g in
          (* Log to audit ledger *)
          let params :=
            {| AuditLedger.Params.action := "consent_" +:+ Status_string st;
               AuditLedger.Params.toolName := Some (toolName request');
               AuditLedger.Params.riskLevel := riskLevel request';
               AuditLedger.Params.consentRequired := true;
               AuditLedger.Params.consentGranted := Some approved_;
               AuditLedger.Params.dataTokenized := false;
               AuditLedger.Params.injectionDetected := false;
               AuditLedger.Params.metadata :=
                 Some [ ("consentId", Json.Str (id request'));
                        ("toolArgs", Json.Obj (toolArgs request')) ] |} in
          let a := AuditLedger.append (r_append env) params (ledger g1) in
          let g2 := set_ledger a.1 g1 in
          match a.2 with
          | Thrown => (g2, [LedgerAppend params; InterceptSettled Thrown])
          | Returned _ =>
              (g2, [LedgerAppend params;
                    InterceptSettled (Returned
                      (if approved_ then {| blocked := false; blocked_reason := None |}
                       else {| blocked := true;
                               blocked_reason :=
                                 Some ("Tool call rejected: " +:+
                                       (if wasTimeout then "approval timed out"
                                        else "user rejected")) |}))])
          end
      | _, _ => (g, [])
      end
  | None => (g, [])
  end.

(** The callbacks the event loop may run, in any order. *)
Inductive Event : Type :=
| Intercept (event : ToolCallEvent) (env : InterceptEnv)
| HandleResponse (consentId : string) (approved : bool)
| TimerFires (h : nat)
| Resume (h : nat) (env : ResumeEnv).

Definition step (ev : Event) (g : t) : t * list Output :=
  match ev with
  | Intercept event env => intercept event env g
  | HandleResponse consentId approved_ =>
      let r := handleResponse consentId approved_ g in
      (r.1, [HandleResponseReturned r.2])
  | TimerFires h => (timerFires h g, [])
  | Resume h env => resume h env g
  end.

Fixpoint exec (evs : list Event) (g : t) : t * list Output :=
  match evs with
  | [] => (g, [])
  | ev :: rest =>
      let r := step ev g in
      let rs := exec rest r.1 in
      (rs.1, (r.2 ++ rs.2)%list)
  end.

(** ** The prompt *)

(** [riskEmoji]: U+1F6A8, U+26A0 U+FE0F, U+1F7E1, U+1F7E2, U+2705. *)
Definition riskEmoji (r : RiskLevel) : string :=
  match r with
  | critical => utf8 [240; 159; 154; 168]
  | high => utf8 [226; 154; 160; 239; 184; 143]
  | medium => utf8 [240; 159; 159; 161]
  | low => utf8 [240; 159; 159; 162]
  | none => utf8 [226; 156; 133]
  end.

Definition newline : string := String (ascii_of_N 10) EmptyString.

(** [Math.round(ms / 1000)] for an integer [ms]: halves round up. *)
Definition round_seconds (ms : Z) : Z := (ms + 500) / 1000.

(** [formatConsentMessage]; the dash of the first line is U+2014. *)
Definition formatConsentMessage (config : ConsentGateConfig) (request : ConsentRequest)
  : string :=
  let emoji := riskEmoji (riskLevel request) in
  let argsSummary :=
    Json.join newline
      (map (fun kv : string * Json.t => "  " +:+ kv.1 +:+ ": " +:+ Json.stringify kv.2)
           (toolArgs request)) in
  Json.join newline
    [ emoji +:+ " **AIR Trust " +:+ utf8 [226; 128; 148] +:+ " Consent Required**";
      EmptyString;
      "Tool: `" +:+ toolName request +:+ "`";
      "Risk: **" +:+ toUpperCase (RiskLevel_string (riskLevel request)) +:+ "**";
      EmptyString;
      "Arguments:";
      match argsSummary with EmptyString => "  (none)" | _ => argsSummary end;
      EmptyString;
      "Reply `approve " +:+ id request +:+ "` to allow";
      "Reply `reject " +:+ id request +:+ "` to block";
      EmptyString;
      "Auto-rejects in " +:+ Json.number_to_string (round_seconds (timeoutMs config)) +:+ "s" ].

End ConsentGate.


(* ================================================================== *)
(** * Properties of the audit ledger                                   *)
(* ================================================================== *)

Module LedgerFacts.
Import AuditLedger.
Local Open Scope Z_scope.

Arguments computeHash : simpl never.
Arguments computeSignature : simpl never.
Arguments Sha256.sha256_hex : simpl never.
Arguments Sha256.hmac_sha256_hex : simpl never.

(** ** Test vectors (FIPS 180-4 and RFC 4231) *)

Example sha256_constants :
  length Sha256.K = 64%nat /\
  nth 0 Sha256.K 0 = 0x428a2f98 /\ nth 63 Sha256.K 0 = 0xc67178f2 /\
  Sha256.ra Sha256.H0 = 0x6a09e667 /\ Sha256.rh Sha256.H0 = 0x5be0cd19.
Proof. vm_compute. repeat split. Qed.

Example sha256_empty :
  Sha256.sha256_hex EmptyString
  = "e3b0c44298fc1c149afbf4c8996fb92427ae41e4649b934ca495991b7852b855".
Proof. vm_compute. reflexivity. Qed.

Example sha256_abc :
  Sha256.sha256_hex "abc"
  = "ba7816bf8f01cfea414140de5dae2223b00361a396177a9cb410ff61f20015ad".
Proof. vm_compute. reflexivity. Qed.

Example sha256_two_blocks :
  Sha256.sha256_hex "abcdbcdecdefdefgefghfghighijhijkijkljklmklmnlmnomnopnopq"
  = "248d6a61d20638b8e5c026930c3e6039a33ce45964ff2167f6ecedd419db06c1".
Proof. vm_compute. reflexivity. Qed.

Example hmac_sha256_rfc4231_2 :
  Sha256.hmac_sha256_hex (Sha256.octets_of_string "Jefe") "what do ya want for nothing?"
  = "5bdcc146bf60754e6a042426089575c75a003f089d2739839dec58b964ec3843".
Proof. vm_compute. reflexivity. Qed.

(** ** Strings and [JSON.stringify] *)

Lemma append_cons (x : ascii) (a b : string) : String x a +:+ b = String x (a +:+ b).
Proof. reflexivity. Qed.

Lemma append_assoc (a b c : string) : (a +:+ b) +:+ c = a +:+ (b +:+ c).
Proof.
  induction a as [|x a IH]; [reflexivity|]. rewrite !append_cons, IH. reflexivity.
Qed.

Lemma append_inv_head (a b c : string) : c +:+ a = c +:+ b -> a = b.
Proof.
  induction c as [|x c IH]; intros H; [exact H|].
  rewrite !append_cons in H. injection H. exact IH.
Qed.

Definition hex_value (c : ascii) : Z :=
  let n := Z.of_N (N_of_ascii c) in if n <? 58 then n - 48 else n - 87.

(** Reads back one escaped character from the front of a string. *)
Definition unescape_head (s : string) : option (ascii * string) :=
  match s with
  | EmptyString => None
  | String c rest =>
      if Z.of_N (N_of_ascii c) =? 92 then
        match rest with
        | EmptyString => None
        | String d rest' =>
            let n := Z.of_N (N_of_ascii d) in
            if n =? 117 then
              match rest' with
              | String _ (String _ (String h (String l rest''))) =>
                  Some (ascii_of_N (Z.to_N (16 * hex_value h + hex_value l)), rest'')
              | _ => None
              end
            else
              Some (ascii_of_N (Z.to_N (if n =? 98 then 8
                                        else if n =? 102 then 12
                                        else if n =? 110 then 10
                                        else if n =? 114 then 13
                                        else if n =? 116 then 9
                                        else n)), rest')
        end
      else Some (c, rest)
  end.

Lemma unescape_head_escape_char (c : ascii) (rest : string) :
  unescape_head (Json.escape_char c +:+ rest) = Some (c, rest).
Proof. destruct c as [[] [] [] [] [] [] [] []]; reflexivity. Qed.

Definition prefix_join (sep : string) (l : list string) : string :=
  fold_right (fun y acc => y +:+ sep +:+ acc) EmptyString l.

Definition suffix_join (sep : string) (l : list string) : string :=
  fold_right (fun y acc => sep +:+ y +:+ acc) EmptyString l.

Lemma append_empty_r (a : string) : a +:+ EmptyString = a.
Proof.
  induction a as [|x a IH]; [reflexivity|]. rewrite append_cons, IH. reflexivity.
Qed.

Lemma join_cons (sep x : string) (l : list string) :
  Json.join sep (x :: l) = x +:+ suffix_join sep l.
Proof.
  revert x. induction l as [|y l IH]; intros x.
  - simpl. rewrite append_empty_r. reflexivity.
  - change (Json.join sep (x :: y :: l)) with (x +:+ sep +:+ Json.join sep (y :: l)).
    rewrite IH. reflexivity.
Qed.

Lemma join_split (sep x : string) (l1 l2 : list string) :
  Json.join sep (l1 ++ x :: l2) = prefix_join sep l1 +:+ (x +:+ suffix_join sep l2).
Proof.
  induction l1 as [|y l1 IH].
  - apply join_cons.
  - change ((y :: l1) ++ x :: l2)%list with (y :: (l1 ++ x :: l2))%list.
    rewrite join_cons.
    change (prefix_join sep (y :: l1)) with (y +:+ sep +:+ prefix_join sep l1).
    rewrite !append_assoc, <- IH.
    destruct (l1 ++ x :: l2)%list as [|z l] eqn:Hl.
    + destruct l1; discriminate.
    + rewrite join_cons. reflexivity.
Qed.

(** ** Slices *)

Lemma slice_from_0 {A : Type} (l : list A) : slice_from 0 l = l.
Proof.
  unfold slice_from. simpl. rewrite Z.min_l by lia. reflexivity.
Qed.

Lemma slice_from_neg {A : Type} (k : Z) (l : list A) :
  0 < k -> slice_from (- k) l = drop (length l - Z.to_nat k) l.
Proof.
  intros Hk. unfold slice_from.
  destruct (Z.ltb_spec (- k) 0) as [_|?]; [|lia].
  f_equal. lia.
Qed.

(** The entries kept under a retention limit [K]: the last [K], or all of
    them when [K] is not positive. *)
Definition retain {A : Type} (K : Z) (l : list A) : list A :=
  if 0 <? K then drop (length l - Z.to_nat K) l else l.

Lemma retain_length {A : Type} (K : Z) (l : list A) :
  length (retain K l) = if 0 <? K then Nat.min (length l) (Z.to_nat K) else length l.
Proof.
  unfold retain. destruct (0 <? K); [|reflexivity].
  rewrite length_drop. lia.
Qed.

Lemma retain_app {A : Type} (K : Z) (a b : list A) :
  retain K (retain K a ++ b) = retain K (a ++ b).
Proof.
  unfold retain. destruct (Z.ltb_spec 0 K) as [HK|HK]; [|reflexivity].
  set (k := Z.to_nat K).
  rewrite <- (drop_app_le a b (length a - k)) by lia.
  rewrite drop_drop. f_equal.
  rewrite length_drop, !length_app. lia.
Qed.

Lemma retain_idem {A : Type} (K : Z) (a : list A) :
  retain K (retain K a) = retain K a.
Proof.
  pose proof (retain_app K a []) as H. rewrite !app_nil_r in H. exact H.
Qed.

Lemma retain_all {A : Type} (K : Z) (l : list A) :
  K <= 0 \/ Z.of_nat (length l) <= K -> retain K l = l.
Proof.
  intros H. unfold retain. destruct (Z.ltb_spec 0 K) as [HK|HK]; [|reflexivity].
  replace (length l - Z.to_nat K)%nat with 0%nat by lia. reflexivity.
Qed.

(** ** One call of [append] *)

(** The entry that [append] builds, signs and pushes. *)
Definition newEntry (env : AppendEnv) (params : Params.t) (l : t) : AuditEntry.t :=
  let entry0 :=
    {| AuditEntry.id := uuid env;
       AuditEntry.sequence := sequence l + 1;
       AuditEntry.hash := EmptyString;
       AuditEntry.prevHash := lastHash l;
       AuditEntry.signature := EmptyString;
       AuditEntry.timestamp := now env;
       AuditEntry.action := Params.action params;
       AuditEntry.toolName := Params.toolName params;
       AuditEntry.riskLevel := Params.riskLevel params;
       AuditEntry.consentRequired := Params.consentRequired params;
       AuditEntry.consentGranted := Params.consentGranted params;
       AuditEntry.dataTokenized := Params.dataTokenized params;
       AuditEntry.injectionDetected := Params.injectionDetected params;
       AuditEntry.metadata := default [] (Params.metadata params) |} in
  let entry1 := AuditEntry.set_hash (computeHash entry0) entry0 in
  AuditEntry.set_signature (computeSignature (secret l) entry1) entry1.

(** The in-memory state after the push and the trim, before [saveChain]. *)
Definition pushed (env : AppendEnv) (params : Params.t) (l : t) : t :=
  let e := newEntry env params l in
  Build (retain (maxEntries (config l)) (entries l ++ [e])) (secret l)
        (AuditEntry.hash e) (sequence l + 1) (config l) (gatewayUrl l)
        (gatewayKey l) (file l) (forwarded l).

Lemma trim_retain (K : Z) (es : list AuditEntry.t) :
  (if (0 <? K) && (K <? Z.of_nat (length es)) then slice_from (- K) es else es)
  = retain K es.
Proof.
  unfold retain. destruct (Z.ltb_spec 0 K) as [HK|HK]; simpl; [|reflexivity].
  destruct (Z.ltb_spec K (Z.of_nat (length es))) as [Hlt|Hge].
  - apply slice_from_neg; lia.
  - replace (length es - Z.to_nat K)%nat with 0%nat by lia. reflexivity.
Qed.

Lemma append_state (env : AppendEnv) (params : Params.t) (l : t) :
  append env params l =
    if writeOk env then
      let l4 := set_file (Some (Saved {| saved_entries := entries (pushed env params l);
                                         saved_sequence := sequence l + 1;
                                         saved_lastHash := AuditEntry.hash (newEntry env params l);
                                         savedAt := saveTime env |}))
                         (pushed env params l) in
      (if forwardToGateway (config l) && truthy (gatewayUrl l)
       then set_forwarded (forwarded l ++ [newEntry env params l]) l4 else l4,
       Returned (newEntry env params l))
    else (if writeCut env then set_file (Some Corrupted) (pushed env params l)
          else pushed env params l, Thrown).
Proof.
  assert (Hunfold : append env params l =
    let e := newEntry env params l in
    let l2 := Build (entries l ++ [e]) (secret l) (AuditEntry.hash e) (sequence l + 1)
                    (config l) (gatewayUrl l) (gatewayKey l) (file l) (forwarded l) in
    let l3 := if (0 <? maxEntries (config l))
                 && (maxEntries (config l) <? Z.of_nat (length (entries l ++ [e])))
              then set_entries (slice_from (- maxEntries (config l)) (entries l ++ [e])) l2
              else l2 in
    let l4 := (saveChain env l3).1 in
    if (saveChain env l3).2 then
      (if forwardToGateway (config l) && truthy (gatewayUrl l)
       then set_forwarded (forwarded l4 ++ [e]) l4 else l4, Returned e)
    else (l4, Thrown)).
  { unfold append. cbn [config set_entries set_lastHash set_sequence
      entries lastHash sequence secret gatewayUrl gatewayKey file forwarded].
    destruct ((0 <? maxEntries (config l)) && _); unfold saveChain;
      destruct (writeOk env); try destruct (writeCut env); reflexivity. }
  rewrite Hunfold. cbv zeta. unfold pushed.
  rewrite <- trim_retain. unfold saveChain.
  destruct ((0 <? maxEntries (config l)) && _); destruct (writeOk env);
    try destruct (writeCut env); reflexivity.
Qed.

Lemma append_pushed (env : AppendEnv) (params : Params.t) (l : t) :
  let l' := (append env params l).1 in
  entries l' = entries (pushed env params l) /\
  secret l' = secret l /\
  lastHash l' = AuditEntry.hash (newEntry env params l) /\
  sequence l' = sequence l + 1 /\
  config l' = config l.
Proof.
  rewrite append_state.
  destruct (writeOk env); [destruct (_ && _)|destruct (writeCut env)]; cbn; auto.
Qed.

Lemma append_outcome (env : AppendEnv) (params : Params.t) (l : t) :
  (append env params l).2 =
    if writeOk env then Returned (newEntry env params l) else Thrown.
Proof. rewrite append_state. destruct (writeOk env); reflexivity. Qed.

(** The new entry's digest and signature are the recomputed ones: neither
    the digest input nor the signed payload mentions a field that is filled
    in afterwards. *)
Lemma newEntry_hash (env : AppendEnv) (params : Params.t) (l : t) :
  AuditEntry.hash (newEntry env params l) = computeHash (newEntry env params l).
Proof. reflexivity. Qed.

Lemma newEntry_signature (env : AppendEnv) (params : Params.t) (l : t) :
  AuditEntry.signature (newEntry env params l)
  = computeSignature (secret l) (newEntry env params l).
Proof. reflexivity. Qed.

Lemma newEntry_prevHash (env : AppendEnv) (params : Params.t) (l : t) :
  AuditEntry.prevHash (newEntry env params l) = lastHash l.
Proof. reflexivity. Qed.

Lemma newEntry_sequence (env : AppendEnv) (params : Params.t) (l : t) :
  AuditEntry.sequence (newEntry env params l) = sequence l + 1.
Proof. reflexivity. Qed.

Lemma newEntry_action (env : AppendEnv) (params : Params.t) (l : t) :
  AuditEntry.action (newEntry env params l) = Params.action params.
Proof. reflexivity. Qed.

Lemma newEntry_ext (env : AppendEnv) (params : Params.t) (l l' : t) :
  sequence l = sequence l' -> lastHash l = lastHash l' -> secret l = secret l' ->
  newEntry env params l = newEntry env params l'.
Proof. unfold newEntry. intros -> -> ->. reflexivity. Qed.

(** ** Sequences of calls *)

Definition Call : Type := AppendEnv * Params.t.

(** The ledger after the calls, and what each call returned. *)
Fixpoint run (calls : list Call) (l : t) : t * list (outcome AuditEntry.t) :=
  match calls with
  | [] => (l, [])
  | c :: rest =>
      let r := append c.1 c.2 l in
      let rs := run rest r.1 in
      (rs.1, r.2 :: rs.2)
  end.

(** Every entry built by the calls, trimmed or not. *)
Fixpoint built (calls : list Call) (l : t) : list AuditEntry.t :=
  match calls with
  | [] => []
  | c :: rest => newEntry c.1 c.2 l :: built rest (append c.1 c.2 l).1
  end.

Lemma built_length (calls : list Call) (l : t) : length (built calls l) = length calls.
Proof. revert l. induction calls as [|c rest IH]; intros l; simpl; auto. Qed.

Lemma built_ext (calls : list Call) (l l' : t) :
  sequence l = sequence l' -> lastHash l = lastHash l' -> secret l = secret l' ->
  built calls l = built calls l'.
Proof.
  revert l l'. induction calls as [|c rest IH]; intros l l' Hs Hh Hk; simpl; [reflexivity|].
  rewrite (newEntry_ext _ _ l l') by assumption. f_equal.
  destruct (append_pushed c.1 c.2 l) as (_ & Hk1 & Hh1 & Hs1 & _).
  destruct (append_pushed c.1 c.2 l') as (_ & Hk2 & Hh2 & Hs2 & _).
  apply IH; [lia | | congruence].
  rewrite Hh1, Hh2. f_equal. apply newEntry_ext; assumption.
Qed.

Lemma built_action (calls : list Call) (l : t) :
  map AuditEntry.action (built calls l) = map (fun c : Call => Params.action c.2) calls.
Proof.
  revert l. induction calls as [|c rest IH]; intros l; simpl; [reflexivity|].
  f_equal. apply IH.
Qed.

Lemma built_sequence (calls : list Call) (l : t) :
  map AuditEntry.sequence (built calls l)
  = map (fun i => sequence l + Z.of_nat i) (seq 1 (length calls)).
Proof.
  revert l. induction calls as [|c rest IH]; intros l; simpl; [reflexivity|].
  f_equal; try lia.
  rewrite IH. destruct (append_pushed c.1 c.2 l) as (_ & _ & _ & -> & _).
  rewrite <- (seq_shift (length rest) 1), map_map. apply map_ext. intros i. lia.
Qed.

Lemma run_secret (calls : list Call) (l : t) : secret (run calls l).1 = secret l.
Proof.
  revert l. induction calls as [|c rest IH]; intros l; simpl; [reflexivity|].
  rewrite IH. apply (append_pushed c.1 c.2 l).
Qed.

Lemma run_config (calls : list Call) (l : t) : config (run calls l).1 = config l.
Proof.
  revert l. induction calls as [|c rest IH]; intros l; simpl; [reflexivity|].
  rewrite IH. apply (append_pushed c.1 c.2 l).
Qed.

Lemma run_sequence (calls : list Call) (l : t) :
  sequence (run calls l).1 = sequence l + Z.of_nat (length calls).
Proof.
  revert l. induction calls as [|c rest IH]; intros l; simpl length; simpl run; simpl fst.
  - lia.
  - rewrite IH. destruct (append_pushed c.1 c.2 l) as (_ & _ & _ & -> & _). lia.
Qed.

(** The running tip: the hash of the last entry visited, or where we started. *)
Definition tip (start : string) (es : list AuditEntry.t) : string :=
  fold_left (fun _ e => AuditEntry.hash e) es start.

Lemma run_lastHash (calls : list Call) (l : t) :
  lastHash (run calls l).1 = tip (lastHash l) (built calls l).
Proof.
  revert l. induction calls as [|c rest IH]; intros l; simpl; [reflexivity|].
  rewrite IH. destruct (append_pushed c.1 c.2 l) as (_ & _ & -> & _ & _).
  reflexivity.
Qed.

Lemma run_entries (calls : list Call) (l : t) :
  retain (maxEntries (config l)) (entries l) = entries l ->
  entries (run calls l).1 = retain (maxEntries (config l)) (entries l ++ built calls l).
Proof.
  revert l. induction calls as [|c rest IH]; intros l Hl; simpl.
  - rewrite app_nil_r. symmetry. exact Hl.
  - destruct (append_pushed c.1 c.2 l) as (He & _ & _ & _ & Hc).
    rewrite IH; rewrite He, Hc; unfold pushed; cbn [entries].
    + rewrite retain_app. rewrite <- app_assoc. reflexivity.
    + apply retain_idem.
Qed.

Lemma run_results (calls : list Call) (l : t) :
  Forall (fun c : Call => writeOk c.1 = true) calls ->
  (run calls l).2 = map Returned (built calls l).
Proof.
  revert l. induction calls as [|c rest IH]; intros l Hok; simpl; [reflexivity|].
  inversion Hok as [|? ? Hc Hrest]; subst.
  rewrite append_outcome, Hc. f_equal. apply IH. assumption.
Qed.

(** ** What [verify] checks *)

(** An entry passes when it links to the expected hash, its stored digest
    is the recomputed one, and its stored signature is the recomputed one. *)
Definition passes (key : list Z) (expected : string) (e : AuditEntry.t) : Prop :=
  AuditEntry.prevHash e = expected /\
  AuditEntry.hash e = computeHash e /\
  AuditEntry.signature e = computeSignature key e.

(** Every entry passes, each one expecting the hash of its predecessor. *)
Fixpoint chain (key : list Z) (expected : string) (es : list AuditEntry.t) : Prop :=
  match es with
  | [] => True
  | e :: rest => passes key expected e /\ chain key (AuditEntry.hash e) rest
  end.

Lemma tip_app (h : string) (a b : list AuditEntry.t) : tip h (a ++ b) = tip (tip h a) b.
Proof. unfold tip. apply fold_left_app. Qed.

Lemma chain_app (key : list Z) (h : string) (a b : list AuditEntry.t) :
  chain key h (a ++ b) <-> chain key h a /\ chain key (tip h a) b.
Proof.
  revert h. induction a as [|e a IH]; intros h; simpl.
  - tauto.
  - rewrite IH. unfold tip. simpl. tauto.
Qed.

Lemma verify_loop_step_pass (key : list Z) (total : Z) (h : string)
    (e : AuditEntry.t) (rest : list AuditEntry.t) :
  passes key h e ->
  verify_loop key total h (e :: rest) = verify_loop key total (AuditEntry.hash e) rest.
Proof.
  intros (Hp & Hh & Hs). simpl.
  rewrite Hp, String.eqb_refl. simpl.
  rewrite <- Hh, String.eqb_refl. simpl.
  rewrite <- Hs, String.eqb_refl. reflexivity.
Qed.

Lemma verify_loop_step_linkage (key : list Z) (total : Z) (h : string)
    (e : AuditEntry.t) (rest : list AuditEntry.t) :
  AuditEntry.prevHash e <> h ->
  verify_loop key total h (e :: rest) = broken total e "prevHash mismatch at sequence ".
Proof.
  intros Hne. simpl. apply String.eqb_neq in Hne. rewrite Hne. reflexivity.
Qed.

Lemma verify_loop_step_content (key : list Z) (total : Z) (h : string)
    (e : AuditEntry.t) (rest : list AuditEntry.t) :
  AuditEntry.prevHash e = h -> AuditEntry.hash e <> computeHash e ->
  verify_loop key total h (e :: rest) = broken total e "Content hash mismatch at sequence ".
Proof.
  intros Hp Hne. simpl. rewrite Hp, String.eqb_refl. simpl.
  apply String.eqb_neq in Hne. rewrite Hne. reflexivity.
Qed.

Lemma verify_loop_step_signature (key : list Z) (total : Z) (h : string)
    (e : AuditEntry.t) (rest : list AuditEntry.t) :
  AuditEntry.prevHash e = h -> AuditEntry.hash e = computeHash e ->
  AuditEntry.signature e <> computeSignature key e ->
  verify_loop key total h (e :: rest) = broken total e "Signature mismatch at sequence ".
Proof.
  intros Hp Hh Hne. simpl. rewrite Hp, String.eqb_refl. simpl.
  rewrite <- Hh, String.eqb_refl. simpl.
  apply String.eqb_neq in Hne. rewrite Hne. reflexivity.
Qed.

Lemma verify_loop_skip (key : list Z) (total : Z) (h : string)
    (pre rest : list AuditEntry.t) :
  chain key h pre ->
  verify_loop key total h (pre ++ rest) = verify_loop key total (tip h pre) rest.
Proof.
  revert h. induction pre as [|e pre IH]; intros h Hc; [reflexivity|].
  destruct Hc as [He Hc]. rewrite <- app_comm_cons, verify_loop_step_pass by assumption.
  rewrite IH by assumption. reflexivity.
Qed.

Lemma verify_loop_chain (key : list Z) (total : Z) (h : string) (es : list AuditEntry.t) :
  chain key h es -> verify_loop key total h es = intact total.
Proof.
  intros Hc. rewrite <- (app_nil_r es), verify_loop_skip by assumption. reflexivity.
Qed.

Lemma verify_loop_valid (key : list Z) (total : Z) (h : string) (es : list AuditEntry.t) :
  valid (verify_loop key total h es) = true -> chain key h es.
Proof.
  revert h. induction es as [|e es IH]; intros h Hv; simpl; [exact I|].
  simpl in Hv.
  destruct (String.eqb_spec (AuditEntry.prevHash e) h) as [Hp|]; [|discriminate].
  destruct (String.eqb_spec (AuditEntry.hash e) (computeHash e)) as [Hh|]; [|discriminate].
  destruct (String.eqb_spec (AuditEntry.signature e) (computeSignature key e)) as [Hs|];
    [|discriminate].
  simpl in Hv. split; [repeat split; assumption|]. apply IH. assumption.
Qed.

Lemma verify_loop_total (key : list Z) (total : Z) (h : string) (es : list AuditEntry.t) :
  totalEntries (verify_loop key total h es) = total.
Proof.
  revert h. induction es as [|e es IH]; intros h; simpl; [reflexivity|].
  repeat (match goal with |- context [if ?c then _ else _] => destruct c end;
          simpl; try reflexivity).
  apply IH.
Qed.

Lemma verify_eq_loop (l : t) :
  verify l = verify_loop (secret l) (Z.of_nat (length (entries l))) GENESIS_HASH (entries l).
Proof.
  unfold verify. destruct (entries l); reflexivity.
Qed.

Lemma verify_total (l : t) : totalEntries (verify l) = Z.of_nat (length (entries l)).
Proof. rewrite verify_eq_loop. apply verify_loop_total. Qed.

(** What the calls build is a chain starting at the ledger's tip. *)
Lemma built_chain (calls : list Call) (l : t) :
  chain (secret l) (lastHash l) (built calls l).
Proof.
  revert l. induction calls as [|c rest IH]; intros l; simpl; [exact I|].
  split.
  - repeat split.
  - specialize (IH (append c.1 c.2 l).1).
    destruct (append_pushed c.1 c.2 l) as (_ & Hk & Hh & _ & _).
    rewrite Hk, Hh in IH. exact IH.
Qed.

(** A ledger constructed where no chain file exists. *)
Lemma new_fresh (cfg : AuditLedgerConfig) (url key : option string)
    (keyFile : option (list Z)) (random : list Z) :
  let l := new cfg url key keyFile random None in
  entries l = [] /\ lastHash l = GENESIS_HASH /\ sequence l = 0 /\ config l = cfg.
Proof. repeat split. Qed.

Lemma run_fresh_entries (cfg : AuditLedgerConfig) (url key : option string)
    (keyFile : option (list Z)) (random : list Z) (calls : list Call) :
  let l0 := new cfg url key keyFile random None in
  entries (run calls l0).1 = retain (maxEntries cfg) (built calls l0).
Proof.
  intros l0. rewrite run_entries.
  - reflexivity.
  - unfold retain. cbn. destruct (0 <? maxEntries cfg); reflexivity.
Qed.

(** ** The scenario of the test suite: actions [test1] and [test2], risk
    [low], no consent. *)

Definition scenario_config (K : Z) : AuditLedgerConfig :=
  {| enabled := true; localPath := "/tmp/air-test/ledger.json";
     forwardToGateway := false; maxEntries := K |}.

Definition scenario_key : list Z :=
  Sha256.octets_of_string "0123456789abcdef0123456789abcdef".

Definition scenario_params (a : string) : Params.t :=
  {| Params.action := a; Params.toolName := None; Params.riskLevel := low;
     Params.consentRequired := false; Params.consentGranted := None;
     Params.dataTokenized := false; Params.injectionDetected := false;
     Params.metadata := None |}.

Definition scenario_env (n : string) (ok : bool) : AppendEnv :=
  {| uuid := "00000000-0000-4000-8000-00000000000" +:+ n;
     now := "2024-01-01T00:00:00.00" +:+ n +:+ "Z";
     saveTime := "2024-01-01T00:00:00.10" +:+ n +:+ "Z";
     writeOk := ok; writeCut := false |}.

Definition scenario_entry_dummy : AuditEntry.t :=
  AuditEntry.Build EmptyString 0 EmptyString EmptyString EmptyString EmptyString
                   EmptyString None none false None false false [].

Definition scenario_calls : list Call :=
  [ (scenario_env "1" true, scenario_params "test1");
    (scenario_env "2" true, scenario_params "test2") ].

Definition scenario_new (K : Z) : t :=
  new (scenario_config K) None None None scenario_key None.

Definition scenario_ledger (K : Z) : t := (run scenario_calls (scenario_new K)).1.

(** The same configuration without a retention limit. *)
Definition unlimited (cfg : AuditLedgerConfig) : AuditLedgerConfig :=
  {| enabled := enabled cfg; localPath := localPath cfg;
     forwardToGateway := forwardToGateway cfg; maxEntries := 0 |}.

(** Overwriting fields of the [i]-th retained entry in place: the entry
    objects are reachable through the value [append] returns and through
    the array [export()] returns. *)
Definition tamper (i : nat) (f : AuditEntry.t -> AuditEntry.t) (l : t) : t :=
  set_entries (alter f i (entries l)) l.

Definition with_writeOk (ok : bool) (env : AppendEnv) : AppendEnv :=
  {| uuid := uuid env; now := now env; saveTime := saveTime env; writeOk := ok;
     writeCut := writeCut env |}.

(** The tests of audit-ledger.test.ts on the embedding. *)

Example test_chain_links :
  AuditEntry.prevHash <$> entries (scenario_ledger 100)
  = [GENESIS_HASH; AuditEntry.hash (default scenario_entry_dummy
                                       (head (entries (scenario_ledger 100))))] /\
  AuditEntry.sequence <$> entries (scenario_ledger 100) = [1; 2].
Proof. vm_compute. split; reflexivity. Qed.

Definition ten_calls : list Call :=
  map (fun i => (scenario_env (Json.number_to_string (Z.of_nat i)) true,
                 scenario_params ("action_" +:+ Json.number_to_string (Z.of_nat i))))
      (seq 0 10).

Example test_getRecent :
  AuditEntry.action <$> getRecent (Some 3) (run ten_calls (scenario_new 100)).1
  = ["action_7"; "action_8"; "action_9"].
Proof. vm_compute. reflexivity. Qed.

Example test_maxEntries_trims :
  AuditEntry.action <$> export (run ten_calls (scenario_new 5)).1
  = ["action_5"; "action_6"; "action_7"; "action_8"; "action_9"] /\
  AuditEntry.sequence <$> export (run ten_calls (scenario_new 5)).1 = [6; 7; 8; 9; 10].
Proof. vm_compute. split; reflexivity. Qed.

(** ** C1 *)

(** C1, as amended: on a fresh ledger, after [N] untampered [append] calls,
    [verify()] reports [totalEntries] = the number of retained entries, which
    is [N] without a positive retention limit and [min N maxEntries] with
    one; and whenever no entry was trimmed the result is
    [{valid: true, totalEntries: N}], the empty chain included. *)
Theorem verify_after_appends (cfg : AuditLedgerConfig) (url key : option string)
    (keyFile : option (list Z)) (random : list Z) (calls : list Call) :
  let l := (run calls (new cfg url key keyFile random None)).1 in
  totalEntries (verify l) = Z.of_nat (length (entries l)) /\
  length (entries l)
    = (if 0 <? maxEntries cfg
       then Nat.min (length calls) (Z.to_nat (maxEntries cfg))
       else length calls) /\
  (maxEntries cfg <= 0 \/ Z.of_nat (length calls) <= maxEntries cfg ->
   verify l = intact (Z.of_nat (length calls))).
Proof.
  intros l. split; [apply verify_total|].
  assert (He : entries l = retain (maxEntries cfg)
                             (built calls (new cfg url key keyFile random None)))
    by apply run_fresh_entries.
  split.
  - rewrite He, retain_length, built_length. reflexivity.
  - intros Hno. rewrite verify_eq_loop.
    rewrite retain_all in He by (rewrite built_length; exact Hno).
    rewrite He, built_length.
    apply verify_loop_chain.
    unfold l. rewrite run_secret. apply built_chain.
Qed.

Lemma verify_after_appends_witness : verify (scenario_ledger 100) = intact 2.
Proof.
  apply (proj2 (proj2 (verify_after_appends (scenario_config 100) None None None
                         scenario_key scenario_calls))).
  right. simpl. lia.
Defined.

Lemma verify_after_trim_counterexample :
  valid (verify (scenario_ledger 1)) = false /\
  totalEntries (verify (scenario_ledger 1)) = 1 /\
  length scenario_calls = 2%nat /\
  ~ (valid (verify (scenario_ledger 1)) = true /\
     totalEntries (verify (scenario_ledger 1)) = Z.of_nat (length scenario_calls)).
Proof.
  assert (H : verify (scenario_ledger 1)
              = {| valid := false; totalEntries := 1;
                   brokenAtSequence := Some 2;
                   brokenAtId := Some "00000000-0000-4000-8000-000000000002";
                   reason := Some "prevHash mismatch at sequence 2" |})
    by (vm_compute; reflexivity).
  rewrite H. simpl. repeat split. intros [? _]. discriminate.
Qed.

(** ** C2 *)

Lemma verify_loop_alter (key : list Z) (total : Z) (f : AuditEntry.t -> AuditEntry.t)
    (es : list AuditEntry.t) (i : nat) (e : AuditEntry.t) (h : string) :
  chain key h es -> es !! i = Some e ->
  verify_loop key total h (alter f i es)
  = verify_loop key total (AuditEntry.prevHash e) (f e :: drop (S i) es).
Proof.
  revert i h. induction es as [|x es IH]; intros i h Hc Hi; [discriminate|].
  destruct Hc as [Hx Hc]. destruct i as [|i]; simpl in Hi.
  - injection Hi as ->.
    change (alter f 0 (e :: es)) with (f e :: es).
    change (drop 1 (e :: es)) with es.
    destruct Hx as (-> & _). reflexivity.
  - change (alter f (S i) (x :: es)) with (x :: alter f i es).
    rewrite verify_loop_step_pass by assumption.
    apply IH; assumption.
Qed.

Lemma chain_lookup (key : list Z) (h : string) (es : list AuditEntry.t) (i : nat)
    (e : AuditEntry.t) :
  chain key h es -> es !! i = Some e ->
  AuditEntry.hash e = computeHash e /\ AuditEntry.signature e = computeSignature key e.
Proof.
  revert i h. induction es as [|x es IH]; intros i h Hc Hi; [discriminate|].
  destruct Hc as [(_ & Hh & Hs) Hc]. destruct i as [|i]; simpl in Hi.
  - injection Hi as <-. auto.
  - eapply IH; eassumption.
Qed.

(** SHA-256 tells the two texts apart: they are equal or have different
    digests.  (No pair of distinct texts with equal digests is known.) *)
Definition sha256_distinguishes (x y : string) : Prop :=
  x <> y -> Sha256.sha256_hex x <> Sha256.sha256_hex y.

(** The same for HMAC-SHA256 under one key. *)
Definition hmac_distinguishes (key : list Z) (x y : string) : Prop :=
  x <> y -> Sha256.hmac_sha256_hex key x <> Sha256.hmac_sha256_hex key y.

(** The signed payload ends with [prevHash]. *)
Lemma sigPayload_prevHash_inj (e : AuditEntry.t) (p : string) :
  p <> AuditEntry.prevHash e ->
  sigPayload (AuditEntry.set_prevHash p e) <> sigPayload e.
Proof.
  intros Hne Heq. apply Hne. unfold sigPayload in Heq.
  cbn [AuditEntry.set_prevHash AuditEntry.sequence AuditEntry.id AuditEntry.hash
       AuditEntry.prevHash] in Heq.
  do 6 apply append_inv_head in Heq. exact Heq.
Qed.

(** *** [JSON.stringify] can be read back *)

Definition is_digit (c : ascii) : bool :=
  let n := Z.of_N (N_of_ascii c) in (48 <=? n) && (n <=? 57).

Definition digit_value (c : ascii) : Z := Z.of_N (N_of_ascii c) - 48.

(** Reads the longest run of decimal digits. *)
Fixpoint read_digits (s : string) (acc : Z) : Z * string :=
  match s with
  | EmptyString => (acc, EmptyString)
  | String c s' =>
      if is_digit c then read_digits s' (10 * acc + digit_value c) else (acc, s)
  end.

(** Reads an integer as [number_to_string] prints it. *)
Definition read_number (s : string) : Z * string :=
  match s with
  | EmptyString => (0, EmptyString)
  | String c s' =>
      if Ascii.eqb c "-" then let r := read_digits s' 0 in (- r.1, r.2)
      else read_digits s 0
  end.

(** No digit comes next. *)
Definition closed (r : string) : Prop :=
  match r with
  | EmptyString => True
  | String c _ => is_digit c = false
  end.

Definition digits_value (ds : list ascii) (acc : Z) : Z :=
  fold_left (fun a c => 10 * a + digit_value c) ds acc.

Lemma read_digits_run (ds : list ascii) (r : string) (acc : Z) :
  Forall (fun c => is_digit c = true) ds -> closed r ->
  read_digits (string_of_list_ascii ds +:+ r) acc = (digits_value ds acc, r).
Proof.
  intros Hd Hr. revert acc. induction Hd as [|c ds Hc _ IH]; intros acc.
  - change (string_of_list_ascii [] +:+ r) with r.
    destruct r as [|c r]; [reflexivity|]. simpl in Hr |- *. rewrite Hr. reflexivity.
  - cbn [string_of_list_ascii]. rewrite append_cons. cbn [read_digits]. rewrite Hc.
    apply IH.
Qed.

Lemma dec_digits_acc (fuel : nat) (n : Z) (acc : list ascii) :
  Json.dec_digits fuel n acc = (Json.dec_digits fuel n [] ++ acc)%list.
Proof.
  revert n acc. induction fuel as [|fuel IH]; intros n acc; [reflexivity|].
  cbn [Json.dec_digits]. destruct (n <? 10); [reflexivity|].
  rewrite (IH _ (_ :: acc)), (IH _ [_]), <- app_assoc. reflexivity.
Qed.

Lemma digit_char_spec (d : Z) :
  0 <= d < 10 ->
  is_digit (Json.digit_char d) = true /\ digit_value (Json.digit_char d) = d.
Proof.
  intros Hd.
  assert (H : d = 0 \/ d = 1 \/ d = 2 \/ d = 3 \/ d = 4 \/ d = 5 \/ d = 6 \/ d = 7
              \/ d = 8 \/ d = 9) by lia.
  repeat (destruct H as [->|H]; [split; reflexivity|]). subst. split; reflexivity.
Qed.

Lemma digits_value_snoc (ds : list ascii) (c : ascii) (acc : Z) :
  digits_value (ds ++ [c]) acc = 10 * digits_value ds acc + digit_value c.
Proof. unfold digits_value. rewrite fold_left_app. reflexivity. Qed.

Lemma dec_digits_spec (fuel : nat) (n : Z) :
  0 <= n < 10 ^ Z.of_nat fuel ->
  Forall (fun c => is_digit c = true) (Json.dec_digits fuel n []) /\
  digits_value (Json.dec_digits fuel n []) 0 = n.
Proof.
  revert n. induction fuel as [|fuel IH]; intros n Hn.
  - simpl in Hn. split; [constructor|]. cbn. lia.
  - cbn [Json.dec_digits].
    assert (Hmod : 0 <= n mod 10 < 10) by (apply Z.mod_pos_bound; lia).
    destruct (digit_char_spec _ Hmod) as [Hd Hv].
    destruct (Z.ltb_spec n 10) as [Hlt|Hge].
    + split; [repeat constructor; exact Hd|].
      cbn. rewrite Hv. rewrite Z.mod_small by lia. lia.
    + rewrite dec_digits_acc.
      destruct (IH (n / 10)) as [Hall Hval].
      { rewrite Nat2Z.inj_succ, Z.pow_succ_r in Hn by lia.
        split; [apply Z.div_pos; lia|]. apply Z.div_lt_upper_bound; lia. }
      split.
      * apply Forall_app. split; [exact Hall|]. repeat constructor. exact Hd.
      * rewrite digits_value_snoc, Hval, Hv.
        pose proof (Z.div_mod n 10). lia.
Qed.

Lemma dec_digits_nonempty (fuel : nat) (n : Z) (acc : list ascii) :
  Json.dec_digits (S fuel) n acc <> [].
Proof.
  cbn [Json.dec_digits]. destruct (n <? 10); [discriminate|].
  rewrite dec_digits_acc. intros H. apply app_eq_nil in H as [_ H]. discriminate.
Qed.

Lemma fuel_enough (m : Z) :
  0 <= m -> 0 <= m < 10 ^ Z.of_nat (S (Z.to_nat (Z.log2 m))).
Proof.
  intros Hm. split; [exact Hm|].
  rewrite Nat2Z.inj_succ, Z2Nat.id by apply Z.log2_nonneg.
  destruct (Z.eq_dec m 0) as [->|Hne].
  - simpl. lia.
  - assert (H : m < 2 ^ Z.succ (Z.log2 m)) by (apply Z.log2_spec; lia).
    eapply Z.lt_le_trans; [exact H|].
    apply Z.pow_le_mono_l. lia.
Qed.

(** The digits of [|n|], as [number_to_string] prints them. *)
Definition digits_of (n : Z) : list ascii :=
  Json.dec_digits (S (Z.to_nat (Z.log2 (Z.abs n)))) (Z.abs n) [].

Lemma number_to_string_digits (n : Z) :
  Json.number_to_string n
  = if n <? 0 then "-" +:+ string_of_list_ascii (digits_of n)
    else string_of_list_ascii (digits_of n).
Proof. reflexivity. Qed.

Lemma digits_of_spec (n : Z) :
  Forall (fun c => is_digit c = true) (digits_of n) /\
  digits_value (digits_of n) 0 = Z.abs n /\
  exists c ds, digits_of n = c :: ds /\ is_digit c = true.
Proof.
  destruct (dec_digits_spec _ _ (fuel_enough (Z.abs n) (Z.abs_nonneg n))) as [Hall Hval].
  fold (digits_of n) in Hall, Hval.
  split; [exact Hall|]. split; [exact Hval|].
  destruct (digits_of n) as [|c ds] eqn:Hd.
  - exfalso. exact (dec_digits_nonempty _ _ _ Hd).
  - exists c, ds. split; [reflexivity|]. inversion Hall. assumption.
Qed.

Lemma read_number_spec (n : Z) (r : string) :
  closed r -> read_number (Json.number_to_string n +:+ r) = (n, r).
Proof.
  intros Hr. rewrite number_to_string_digits.
  destruct (digits_of_spec n) as (Hall & Hval & c & ds & Hd & Hc).
  destruct (Z.ltb_spec n 0) as [Hneg|Hpos].
  - rewrite append_assoc.
    change ("-" +:+ string_of_list_ascii (digits_of n) +:+ r)
      with (String "-" (string_of_list_ascii (digits_of n) +:+ r)).
    cbn [read_number]. rewrite Ascii.eqb_refl, read_digits_run by assumption.
    cbn [fst snd]. rewrite Hval. f_equal. lia.
  - pose proof (read_digits_run _ r 0 Hall Hr) as Hread.
    rewrite Hd in Hread |- *. cbn [string_of_list_ascii] in Hread |- *.
    rewrite append_cons in Hread |- *. cbn [read_number].
    destruct (Ascii.eqb_spec c "-") as [->|_]; [discriminate|].
    rewrite Hread. rewrite <- Hd, Hval. f_equal. lia.
Qed.

(** The character that opens and closes a quoted string. *)
Definition quote_char : ascii := ascii_of_N 34.

Lemma escape_char_head (c : ascii) (rest : string) :
  exists h t, Json.escape_char c +:+ rest = String h t /\ h <> quote_char.
Proof.
  destruct c as [[] [] [] [] [] [] [] []];
    eexists; eexists; (split; [reflexivity|intros E; vm_compute in E; discriminate E]).
Qed.

(** A quoted string ends at its closing quote. *)
Lemma quote_app_inj (a b r r' : string) :
  Json.quote a +:+ r = Json.quote b +:+ r' -> a = b /\ r = r'.
Proof.
  unfold Json.quote. rewrite !append_assoc. intros H. apply append_inv_head in H.
  change (Json.dquote +:+ r) with (String quote_char r) in H.
  change (Json.dquote +:+ r') with (String quote_char r') in H.
  revert b H. induction a as [|x a IH]; intros [|y b] H; cbn [Json.escape] in H;
    rewrite ?append_assoc in H.
  - change (String quote_char r = String quote_char r') in H. injection H as ->. auto.
  - exfalso. change (String quote_char r = Json.escape_char y +:+ Json.escape b
                                      +:+ String quote_char r') in H.
    destruct (escape_char_head y (Json.escape b +:+ String quote_char r'))
      as (h & t & Ht & Hh).
    rewrite Ht in H. injection H as <- _. congruence.
  - exfalso. change (Json.escape_char x +:+ Json.escape a +:+ String quote_char r
                     = String quote_char r') in H.
    destruct (escape_char_head x (Json.escape a +:+ String quote_char r))
      as (h & t & Ht & Hh).
    rewrite Ht in H. injection H as -> _. congruence.
  - apply (f_equal unescape_head) in H.
    rewrite !unescape_head_escape_char in H. injection H as -> H.
    destruct (IH b H) as [-> ->]. auto.
Qed.

(** The constructor of a value shows in the first character of its text. *)
Definition kind (j : Json.t) : Z :=
  match j with
  | Json.Null => 0
  | Json.Bool _ => 1
  | Json.Num _ => 2
  | Json.Str _ => 3
  | Json.Arr _ => 4
  | Json.Obj _ => 5
  end.

Definition head_kind (c : ascii) : Z :=
  let n := Z.of_N (N_of_ascii c) in
  if n =? 110 then 0
  else if (n =? 116) || (n =? 102) then 1
  else if (n =? 45) || is_digit c then 2
  else if n =? 34 then 3
  else if n =? 91 then 4
  else if n =? 123 then 5
  else 6.

Lemma is_digit_head_kind (c : ascii) : is_digit c = true -> head_kind c = 2.
Proof.
  unfold head_kind, is_digit. intros H. apply andb_true_iff in H as [H1 H2].
  apply Z.leb_le in H1, H2.
  destruct (Z.eqb_spec (Z.of_N (N_of_ascii c)) 110); [lia|].
  destruct (Z.eqb_spec (Z.of_N (N_of_ascii c)) 116); [lia|].
  destruct (Z.eqb_spec (Z.of_N (N_of_ascii c)) 102); [lia|].
  cbn [orb].
  destruct (Z.eqb_spec (Z.of_N (N_of_ascii c)) 45); [lia|].
  cbn [orb].
  replace (48 <=? Z.of_N (N_of_ascii c)) with true by (symmetry; apply Z.leb_le; lia).
  replace (Z.of_N (N_of_ascii c) <=? 57) with true by (symmetry; apply Z.leb_le; lia).
  reflexivity.
Qed.

Lemma stringify_head (j : Json.t) (r : string) :
  exists c t, Json.stringify j +:+ r = String c t /\ head_kind c = kind j.
Proof.
  destruct j as [|[]|n|s|items|props]; try (eexists; eexists; split; reflexivity).
  cbn [Json.stringify kind]. rewrite number_to_string_digits.
  destruct (digits_of_spec n) as (_ & _ & c & ds & Hd & Hc).
  destruct (n <? 0).
  - eexists; eexists; split; reflexivity.
  - rewrite Hd. cbn [string_of_list_ascii]. rewrite append_cons.
    eexists; eexists; split; [reflexivity|]. apply is_digit_head_kind. exact Hc.
Qed.

Lemma same_kind (j j' : Json.t) (r r' : string) :
  Json.stringify j +:+ r = Json.stringify j' +:+ r' -> kind j = kind j'.
Proof.
  intros H.
  destruct (stringify_head j r) as (c & t & Hc & Hk).
  destruct (stringify_head j' r') as (c' & t' & Hc' & Hk').
  rewrite Hc, Hc' in H. injection H as -> _. congruence.
Qed.

(** Induction on JSON values that reaches the members of arrays and
    objects. *)
Definition Json_rect' (P : Json.t -> Prop)
    (HNull : P Json.Null) (HBool : forall b, P (Json.Bool b))
    (HNum : forall n, P (Json.Num n)) (HStr : forall s, P (Json.Str s))
    (HArr : forall items, Forall P items -> P (Json.Arr items))
    (HObj : forall props, Forall (fun kv : string * Json.t => P kv.2) props ->
                          P (Json.Obj props)) : forall j, P j :=
  fix F (j : Json.t) : P j :=
    match j with
    | Json.Null => HNull
    | Json.Bool b => HBool b
    | Json.Num n => HNum n
    | Json.Str s => HStr s
    | Json.Arr items =>
        HArr items
          ((fix G (l : list Json.t) : Forall P l :=
              match l with
              | [] => @List.Forall_nil _ P
              | x :: l' => @List.Forall_cons _ P x l' (F x) (G l')
              end) items)
    | Json.Obj props =>
        HObj props
          ((fix G (l : list (string * Json.t))
              : Forall (fun kv : string * Json.t => P kv.2) l :=
              match l with
              | [] => @List.Forall_nil _ _
              | kv :: l' => @List.Forall_cons _ _ kv l' (F kv.2) (G l')
              end) props)
    end.

(** A printer whose text, followed by anything that starts with no digit,
    determines the value and where the text ends. *)
Definition readable {A : Type} (f : A -> string) (x : A) : Prop :=
  forall y r r', closed r -> closed r' -> f x +:+ r = f y +:+ r' -> x = y /\ r = r'.

Lemma closed_cons (c : ascii) (r : string) : is_digit c = false -> closed (String c r).
Proof. intros H. exact H. Qed.

(** The members of an array or an object after the first, up to the closing
    bracket. *)
Lemma members_tail_inj {A : Type} (f : A -> string) (stop : ascii) (l l' : list A)
    (r r' : string) :
  Forall (readable f) l -> is_digit stop = false -> stop <> ","%char ->
  suffix_join "," (map f l) +:+ String stop r
  = suffix_join "," (map f l') +:+ String stop r' ->
  l = l' /\ r = r'.
Proof.
  intros Hl Hstop Hcomma. revert l'.
  induction Hl as [|x l Hx _ IH]; intros [|y l'] H;
    cbn [map suffix_join fold_right] in H; rewrite ?append_assoc in H.
  - injection H as ->. auto.
  - exfalso. injection H as H _. congruence.
  - exfalso. injection H as H _. congruence.
  - change ("," +:+ ?a) with (String "," a) in H. injection H as H.
    fold (suffix_join "," (map f l)) in H. fold (suffix_join "," (map f l')) in H.
    assert (Hc : forall m, closed (suffix_join "," (map f m) +:+ String stop r'
                                  ) /\ closed (suffix_join "," (map f m) +:+ String stop r)).
    { intros [|z m]; split; try exact Hstop; reflexivity. }
    destruct (Hx y _ _ (proj2 (Hc l)) (proj1 (Hc l')) H) as [-> H'].
    destruct (IH l' H') as [-> ->]. auto.
Qed.

Lemma members_inj {A : Type} (f : A -> string) (stop : ascii) (l l' : list A)
    (r r' : string) :
  Forall (readable f) l -> is_digit stop = false -> stop <> ","%char ->
  (forall x s, exists c t, f x +:+ s = String c t /\ c <> stop) ->
  Json.join "," (map f l) +:+ String stop r = Json.join "," (map f l') +:+ String stop r' ->
  l = l' /\ r = r'.
Proof.
  intros Hl Hstop Hcomma Hhead H.
  destruct Hl as [|x l Hx Hl], l' as [|y l']; cbn [map] in H;
    rewrite ?join_cons, ?append_assoc in H.
  - injection H as ->. auto.
  - exfalso. destruct (Hhead y (suffix_join "," (map f l') +:+ String stop r'))
      as (c & t & Ht & Hc).
    change (Json.join "," [] +:+ String stop r) with (String stop r) in H.
    rewrite Ht in H. injection H as -> _. congruence.
  - exfalso. destruct (Hhead x (suffix_join "," (map f l) +:+ String stop r))
      as (c & t & Ht & Hc).
    change (Json.join "," [] +:+ String stop r') with (String stop r') in H.
    rewrite Ht in H. injection H as -> _. congruence.
  - assert (Hc : forall m s, closed (suffix_join "," (map f m) +:+ String stop s)).
    { intros [|z m] s; [exact Hstop|reflexivity]. }
    destruct (Hx y _ _ (Hc l r) (Hc l' r') H) as [-> H'].
    destruct (members_tail_inj f stop l l' r r' Hl Hstop Hcomma H') as [-> ->]. auto.
Qed.

(** [JSON.stringify] is injective: the text determines the value. *)
Lemma stringify_readable (j : Json.t) : readable Json.stringify j.
Proof.
  induction j as [|b|n|s|items IH|props IH] using Json_rect'; intros j' r r' Hr Hr' H.
  all: pose proof (same_kind _ _ _ _ H) as Hk.
  all: destruct j' as [|b'|n'|s'|items'|props']; try discriminate Hk; clear Hk.
  - apply append_inv_head in H. auto.
  - destruct b, b'; try (apply append_inv_head in H; auto); discriminate H.
  - cbn [Json.stringify] in H. apply (f_equal read_number) in H.
    rewrite !read_number_spec in H by assumption. injection H as -> ->. auto.
  - cbn [Json.stringify] in H. destruct (quote_app_inj _ _ _ _ H) as [-> ->]. auto.
  - cbn [Json.stringify] in H. rewrite !append_assoc in H.
    apply append_inv_head in H.
    change ("]" +:+ ?a) with (String "]" a) in H.
    destruct (members_inj Json.stringify "]" items items' r r' IH) as [-> ->];
      try reflexivity; try discriminate; auto.
    intros x s. destruct (stringify_head x s) as (c & t & Hc & Hk).
    exists c, t. split; [exact Hc|]. intros ->. destruct x; discriminate Hk.
  - cbn [Json.stringify] in H. rewrite !append_assoc in H.
    apply append_inv_head in H.
    change ("}" +:+ ?a) with (String "}" a) in H.
    set (f := fun kv : string * Json.t =>
                Json.quote kv.1 +:+ ":" +:+ Json.stringify kv.2) in H.
    destruct (members_inj f "}" props props' r r') as [-> ->];
      try reflexivity; try discriminate; auto.
    + eapply Forall_impl; [exact IH|].
      intros [k v] Hv [k' v'] s s' Hs Hs' He. unfold f in He. cbn [fst snd] in He, Hv.
      rewrite !append_assoc in He.
      destruct (quote_app_inj _ _ _ _ He) as [-> He'].
      apply append_inv_head in He'.
      destruct (Hv v' s s' Hs Hs' He') as [-> ->]. auto.
    + intros [k v] s. unfold f, Json.quote. cbn [fst snd].
      eexists; eexists; split; [reflexivity|discriminate].
Qed.

Lemma stringify_inj (j j' : Json.t) : Json.stringify j = Json.stringify j' -> j = j'.
Proof.
  intros H. apply (stringify_readable j j' EmptyString EmptyString I I).
  rewrite !append_empty_r. exact H.
Qed.

(** *** The digest input determines the content of an entry *)

(** The fields of an entry that enter its digest. *)
Definition content (e : AuditEntry.t) :=
  (AuditEntry.id e, AuditEntry.sequence e, AuditEntry.timestamp e, AuditEntry.action e,
   AuditEntry.toolName e, AuditEntry.riskLevel e, AuditEntry.consentRequired e,
   AuditEntry.consentGranted e, AuditEntry.dataTokenized e,
   AuditEntry.injectionDetected e, AuditEntry.metadata e).

Lemma RiskLevel_string_inj (a b : RiskLevel) :
  RiskLevel_string a = RiskLevel_string b -> a = b.
Proof. destruct a, b; simpl; intros H; try reflexivity; discriminate H. Qed.

Lemma contentForHash_inj (e e' : AuditEntry.t) :
  contentForHash e = contentForHash e' -> content e = content e'.
Proof.
  unfold contentForHash, content. intros H. apply stringify_inj in H.
  unfold Json.object in H.
  destruct e as [id1 seq1 hash1 prev1 sig1 ts1 act1 tool1 risk1 req1 granted1 tok1 inj1 meta1].
  destruct e' as [id2 seq2 hash2 prev2 sig2 ts2 act2 tool2 risk2 req2 granted2 tok2 inj2 meta2].
  destruct tool1, tool2, granted1, granted2; cbn in H |- *;
    try discriminate H; injection H; intros; subst;
    repeat match goal with
           | H : RiskLevel_string _ = RiskLevel_string _ |- _ =>
               apply RiskLevel_string_inj in H; subst
           end; reflexivity.
Qed.

(** An entry with other metadata. *)
Definition with_metadata (m : list (string * Json.t)) (e : AuditEntry.t) : AuditEntry.t :=
  AuditEntry.Build (AuditEntry.id e) (AuditEntry.sequence e) (AuditEntry.hash e)
                   (AuditEntry.prevHash e) (AuditEntry.signature e)
                   (AuditEntry.timestamp e) (AuditEntry.action e) (AuditEntry.toolName e)
                   (AuditEntry.riskLevel e) (AuditEntry.consentRequired e)
                   (AuditEntry.consentGranted e) (AuditEntry.dataTokenized e)
                   (AuditEntry.injectionDetected e) m.

(** C2: [verify()] visits the retained entries in order, expecting the
    genesis sentinel first and afterwards the hash of the entry before; at
    the first entry that fails one of the checks linkage, content digest,
    signature (tried in that order) it returns [valid = false] with the
    matching reason and that entry's sequence and id.  On a ledger that
    verifies: changing a stored entry in any of the fields that enter the
    digest ([id], [sequence], [timestamp], [action], [toolName], [riskLevel],
    [consentRequired], [consentGranted], [dataTokenized],
    [injectionDetected], [metadata]) while [prevHash] and [hash] stay as they
    are gives the content-mismatch result at that entry unless SHA-256
    collides on the two digest inputs, which differ because
    [JSON.stringify] is injective; overwriting the action is one such change;
    and overwriting [prevHash] gives the linkage result at that entry,
    although the signed payload has changed too, so that its signature check
    would fail as well unless HMAC-SHA256 collides on the two payloads. *)
Theorem verify_first_failure (l : t) :
  let N := Z.of_nat (length (entries l)) in
  (forall pre e post,
     entries l = (pre ++ e :: post)%list ->
     chain (secret l) GENESIS_HASH pre ->
     let expected := tip GENESIS_HASH pre in
     (AuditEntry.prevHash e <> expected ->
      verify l = broken N e "prevHash mismatch at sequence ") /\
     (AuditEntry.prevHash e = expected ->
      AuditEntry.hash e <> computeHash e ->
      verify l = broken N e "Content hash mismatch at sequence ") /\
     (AuditEntry.prevHash e = expected ->
      AuditEntry.hash e = computeHash e ->
      AuditEntry.signature e <> computeSignature (secret l) e ->
      verify l = broken N e "Signature mismatch at sequence ") /\
     (passes (secret l) expected e ->
      verify l = verify_loop (secret l) N (AuditEntry.hash e) post)) /\
  (forall i e (f : AuditEntry.t -> AuditEntry.t),
     valid (verify l) = true ->
     entries l !! i = Some e ->
     AuditEntry.prevHash (f e) = AuditEntry.prevHash e ->
     AuditEntry.hash (f e) = AuditEntry.hash e ->
     content (f e) <> content e ->
     sha256_distinguishes (contentForHash (f e)) (contentForHash e) ->
     verify (tamper i f l) = broken N (f e) "Content hash mismatch at sequence ") /\
  (forall i e a,
     valid (verify l) = true ->
     entries l !! i = Some e ->
     a <> AuditEntry.action e ->
     sha256_distinguishes (contentForHash (AuditEntry.set_action a e)) (contentForHash e) ->
     verify (tamper i (AuditEntry.set_action a) l)
     = broken N e "Content hash mismatch at sequence ") /\
  (forall i e p,
     valid (verify l) = true ->
     entries l !! i = Some e ->
     p <> AuditEntry.prevHash e ->
     verify (tamper i (AuditEntry.set_prevHash p) l)
     = broken N e "prevHash mismatch at sequence " /\
     (hmac_distinguishes (secret l) (sigPayload (AuditEntry.set_prevHash p e))
                         (sigPayload e) ->
      AuditEntry.signature (AuditEntry.set_prevHash p e)
      <> computeSignature (secret l) (AuditEntry.set_prevHash p e))).
Proof.
  intros N.
  assert (Hfields : forall i e (f : AuditEntry.t -> AuditEntry.t),
     valid (verify l) = true ->
     entries l !! i = Some e ->
     AuditEntry.prevHash (f e) = AuditEntry.prevHash e ->
     AuditEntry.hash (f e) = AuditEntry.hash e ->
     content (f e) <> content e ->
     sha256_distinguishes (contentForHash (f e)) (contentForHash e) ->
     verify (tamper i f l) = broken N (f e) "Content hash mismatch at sequence ").
  { intros i e f Hv Hi Hp Hh Hne Hsha.
    rewrite verify_eq_loop in Hv. apply verify_loop_valid in Hv.
    destruct (chain_lookup _ _ _ i e Hv Hi) as [Hhash _].
    rewrite verify_eq_loop. unfold tamper. cbn [entries secret set_entries].
    rewrite length_alter. fold N.
    rewrite (verify_loop_alter _ _ _ _ i e) by assumption.
    apply verify_loop_step_content.
    - exact Hp.
    - rewrite Hh, Hhash. unfold computeHash. intros Heq.
      apply Hsha; [|symmetry; exact Heq].
      intros Hc. apply Hne. apply contentForHash_inj. exact Hc. }
  split; [|split; [exact Hfields|split]].
  - intros pre e post He Hpre expected.
    assert (Hv : verify l = verify_loop (secret l) N expected (e :: post)).
    { rewrite verify_eq_loop. fold N. rewrite He. apply verify_loop_skip, Hpre. }
    rewrite Hv. repeat split.
    + apply verify_loop_step_linkage.
    + apply verify_loop_step_content.
    + apply verify_loop_step_signature.
    + apply verify_loop_step_pass.
  - intros i e a Hv Hi Hne Hsha.
    change (broken N e "Content hash mismatch at sequence ")
      with (broken N (AuditEntry.set_action a e) "Content hash mismatch at sequence ").
    apply Hfields; try assumption; try reflexivity.
    intros Hc. apply Hne. unfold content in Hc. simpl in Hc. congruence.
  - intros i e p Hv Hi Hne.
    rewrite verify_eq_loop in Hv. apply verify_loop_valid in Hv.
    split.
    + rewrite verify_eq_loop. unfold tamper. cbn [entries secret set_entries].
      rewrite length_alter. fold N.
      rewrite (verify_loop_alter _ _ _ _ i e) by assumption.
      rewrite verify_loop_step_linkage; [reflexivity|].
      exact Hne.
    + intros Hmac.
      destruct (chain_lookup _ _ _ i e Hv Hi) as [_ Hsig].
      change (AuditEntry.signature (AuditEntry.set_prevHash p e))
        with (AuditEntry.signature e).
      rewrite Hsig. unfold computeSignature. intros Heq.
      apply (Hmac (sigPayload_prevHash_inj e p Hne)). symmetry. exact Heq.
Qed.

Definition scenario_entry1 : AuditEntry.t :=
  newEntry (scenario_env "1" true) (scenario_params "test1") (scenario_new 100).

Definition scenario_entry2 : AuditEntry.t :=
  newEntry (scenario_env "2" true) (scenario_params "test2")
           (append (scenario_env "1" true) (scenario_params "test1") (scenario_new 100)).1.

Lemma scenario_entries : entries (scenario_ledger 100) = [scenario_entry1; scenario_entry2].
Proof. vm_compute. reflexivity. Qed.

Lemma scenario_valid : valid (verify (scenario_ledger 100)) = true.
Proof. vm_compute. reflexivity. Qed.

Lemma verify_first_failure_witness :
  let l := scenario_ledger 100 in
  let id1 := "00000000-0000-4000-8000-000000000001" in
  let id2 := "00000000-0000-4000-8000-000000000002" in
  verify (tamper 0 (AuditEntry.set_action "tampered") l)
  = {| valid := false; totalEntries := 2; brokenAtSequence := Some 1;
       brokenAtId := Some id1;
       reason := Some "Content hash mismatch at sequence 1" |} /\
  verify (tamper 1 (AuditEntry.set_prevHash GENESIS_HASH) l)
  = {| valid := false; totalEntries := 2; brokenAtSequence := Some 2;
       brokenAtId := Some id2;
       reason := Some "prevHash mismatch at sequence 2" |} /\
  AuditEntry.signature (AuditEntry.set_prevHash GENESIS_HASH scenario_entry2)
  <> computeSignature (secret l)
       (AuditEntry.set_prevHash GENESIS_HASH scenario_entry2) /\
  verify (tamper 1 (AuditEntry.set_signature "00") l)
  = {| valid := false; totalEntries := 2; brokenAtSequence := Some 2;
       brokenAtId := Some id2;
       reason := Some "Signature mismatch at sequence 2" |} /\
  verify (tamper 0 (with_metadata [("note", Json.Str "edited")]) l)
  = {| valid := false; totalEntries := 2; brokenAtSequence := Some 1;
       brokenAtId := Some id1;
       reason := Some "Content hash mismatch at sequence 1" |}.
Proof.
  intros l id1 id2.
  destruct (verify_first_failure l) as (_ & Hfields & Haction & Hprev).
  destruct (verify_first_failure (tamper 1 (AuditEntry.set_signature "00") l))
    as (Hwalk & _ & _ & _).
  assert (Hentry2 : entries l !! 1%nat = Some scenario_entry2).
  { unfold l. rewrite scenario_entries. reflexivity. }
  assert (Hgenesis : GENESIS_HASH <> AuditEntry.prevHash scenario_entry2).
  { apply String.eqb_neq. vm_compute. reflexivity. }
  split; [|split; [|split; [|split]]].
  - rewrite (Haction 0%nat scenario_entry1 "tampered").
    + vm_compute. reflexivity.
    + exact scenario_valid.
    + unfold l. rewrite scenario_entries. reflexivity.
    + discriminate.
    + intros _. apply String.eqb_neq. vm_compute. reflexivity.
  - rewrite (proj1 (Hprev 1%nat scenario_entry2 GENESIS_HASH scenario_valid
                       Hentry2 Hgenesis)).
    vm_compute. reflexivity.
  - apply (proj2 (Hprev 1%nat scenario_entry2 GENESIS_HASH scenario_valid
                    Hentry2 Hgenesis)).
    intros _. apply String.eqb_neq. vm_compute. reflexivity.
  - destruct (Hwalk [scenario_entry1] (AuditEntry.set_signature "00" scenario_entry2) [])
      as (_ & _ & Hsig & _).
    + unfold tamper, l. cbn [entries set_entries]. rewrite scenario_entries. reflexivity.
    + simpl. split; [|exact I]. repeat split.
    + rewrite Hsig.
      * vm_compute. reflexivity.
      * reflexivity.
      * reflexivity.
      * apply String.eqb_neq. vm_compute. reflexivity.
  - rewrite (Hfields 0%nat scenario_entry1 (with_metadata [("note", Json.Str "edited")])).
    + vm_compute. reflexivity.
    + exact scenario_valid.
    + unfold l. rewrite scenario_entries. reflexivity.
    + reflexivity.
    + reflexivity.
    + intros Hc. apply (f_equal snd) in Hc. vm_compute in Hc. discriminate Hc.
    + intros _. apply String.eqb_neq. vm_compute. reflexivity.
Defined.

(** ** C4 *)

Lemma retain_last {A : Type} (K : Z) (es : list A) (e : A) :
  last (retain K (es ++ [e])) = Some e.
Proof.
  unfold retain. destruct (Z.ltb_spec 0 K) as [HK|HK].
  - rewrite length_app. simpl length.
    rewrite drop_app_le by lia. apply last_snoc.
  - apply last_snoc.
Qed.

(** C4, as amended: when the write in [saveChain] fails, [append] throws
    and nothing is forwarded, but the ledger object has already been updated
    exactly as by a successful call: the new entry is the last retained
    entry, [lastHash] is its hash and the sequence counter has advanced by
    one. *)
Theorem append_write_failure (env : AppendEnv) (params : Params.t) (l : t) :
  writeOk env = false ->
  let failed := append env params l in
  let succeeded := append (with_writeOk true env) params l in
  failed.2 = Thrown /\
  forwarded failed.1 = forwarded l /\
  entries failed.1 = entries succeeded.1 /\
  lastHash failed.1 = lastHash succeeded.1 /\
  sequence failed.1 = sequence succeeded.1 /\
  sequence failed.1 = sequence l + 1 /\
  exists e, succeeded.2 = Returned e /\
            last (entries failed.1) = Some e /\
            lastHash failed.1 = AuditEntry.hash e /\
            sequence failed.1 = AuditEntry.sequence e.
Proof.
  intros Hw failed succeeded.
  destruct (append_pushed (with_writeOk true env) params l) as (He & _ & Hh & Hs & _).
  fold succeeded in He, Hh, Hs.
  destruct (append_pushed env params l) as (He' & _ & Hh' & Hs' & _).
  fold failed in He', Hh', Hs'.
  assert (Hf : failed.2 = Thrown).
  { unfold failed. rewrite append_outcome, Hw. reflexivity. }
  assert (Hfw : forwarded failed.1 = forwarded l).
  { unfold failed. rewrite append_state, Hw. destruct (writeCut env); reflexivity. }
  assert (Hr : succeeded.2 = Returned (newEntry env params l)).
  { unfold succeeded. rewrite append_outcome. reflexivity. }
  rewrite Hf, Hfw, He, Hh, Hs, He', Hh', Hs'.
  repeat split.
  exists (newEntry env params l). split; [exact Hr|].
  split; [|split; reflexivity].
  unfold pushed. cbn [entries]. apply retain_last.
Qed.

Lemma append_write_failure_witness :
  let failed := append (scenario_env "1" false) (scenario_params "test1") (scenario_new 100) in
  failed.2 = Thrown /\
  entries failed.1 = [scenario_entry1] /\
  lastHash failed.1 = AuditEntry.hash scenario_entry1 /\
  sequence failed.1 = 1.
Proof.
  intros failed.
  destruct (append_write_failure (scenario_env "1" false) (scenario_params "test1")
              (scenario_new 100) eq_refl)
    as (Ht & _ & He & Hh & Hs & _).
  fold failed in Ht, He, Hh, Hs.
  rewrite Ht, He, Hh, Hs. vm_compute. repeat split.
Defined.

Lemma append_write_failure_counterexample :
  let l := scenario_new 100 in
  let failed := append (scenario_env "1" false) (scenario_params "test1") l in
  failed.2 = Thrown /\
  length (entries l) = 0%nat /\ length (entries failed.1) = 1%nat /\
  sequence l = 0 /\ sequence failed.1 = 1 /\
  lastHash l = GENESIS_HASH /\ lastHash failed.1 <> GENESIS_HASH.
Proof.
  intros l failed. repeat split; try (vm_compute; reflexivity).
  apply String.eqb_neq. vm_compute. reflexivity.
Qed.

(** ** C5 *)

Lemma built_unlimited (cfg : AuditLedgerConfig) (url key : option string)
    (keyFile : option (list Z)) (random : list Z) (calls : list Call) :
  built calls (new (unlimited cfg) url key keyFile random None)
  = built calls (new cfg url key keyFile random None).
Proof. apply built_ext; reflexivity. Qed.

(** C5: with [maxEntries = K > 0] and more than [K] appends on a fresh
    ledger, the retained entries are the last [K] of the entries appended
    (compared with the same calls on a ledger without limit, so with the
    same sequence numbers, hashes and everything else), the oldest retained
    one carries the action of call number [total - K + 1], and [lastHash]
    and the sequence counter are those of the ledger without limit. *)
Theorem retention_window (cfg : AuditLedgerConfig) (url key : option string)
    (keyFile : option (list Z)) (random : list Z) (calls : list Call) :
  let K := Z.to_nat (maxEntries cfg) in
  let total := length calls in
  0 < maxEntries cfg -> maxEntries cfg < Z.of_nat total ->
  let l := (run calls (new cfg url key keyFile random None)).1 in
  let u := (run calls (new (unlimited cfg) url key keyFile random None)).1 in
  length (entries u) = total /\
  AuditEntry.action <$> entries u = (fun c : Call => Params.action c.2) <$> calls /\
  length (entries l) = K /\
  entries l = drop (total - K) (entries u) /\
  AuditEntry.action <$> head (entries l)
    = (fun c : Call => Params.action c.2) <$> calls !! (total - K)%nat /\
  lastHash l = lastHash u /\
  sequence l = sequence u /\
  sequence l = Z.of_nat total.
Proof.
  intros K total HK HN l u.
  assert (Hu : entries u = built calls (new cfg url key keyFile random None)).
  { unfold u. rewrite run_fresh_entries, built_unlimited. reflexivity. }
  assert (Hl : entries l = drop (total - K) (entries u)).
  { unfold l. rewrite run_fresh_entries, Hu. unfold retain.
    destruct (Z.ltb_spec 0 (maxEntries cfg)); [|lia].
    rewrite built_length. reflexivity. }
  assert (Ha : AuditEntry.action <$> entries u
               = (fun c : Call => Params.action c.2) <$> calls).
  { rewrite Hu. apply built_action. }
  assert (Hlen : length (entries u) = total).
  { rewrite Hu. apply built_length. }
  repeat split; try assumption.
  - rewrite Hl, length_drop, Hlen. lia.
  - rewrite Hl, head_lookup, lookup_drop, Nat.add_0_r.
    rewrite <- !list_lookup_fmap, Ha. reflexivity.
  - unfold l, u. rewrite !run_lastHash, built_unlimited. reflexivity.
  - unfold l, u. rewrite !run_sequence. reflexivity.
  - unfold l. rewrite run_sequence. simpl. lia.
Qed.

Lemma retention_window_witness :
  entries (scenario_ledger 1) = drop 1 (entries (scenario_ledger 0)) /\
  AuditEntry.action <$> head (entries (scenario_ledger 1)) = Some "test2" /\
  lastHash (scenario_ledger 1) = lastHash (scenario_ledger 0) /\
  sequence (scenario_ledger 1) = 2.
Proof.
  destruct (retention_window (scenario_config 1) None None None scenario_key
              scenario_calls) as (_ & _ & _ & He & Ha & Hh & _ & Hs).
  - reflexivity.
  - reflexivity.
  - split; [exact He|]. split; [exact Ha|]. split; [exact Hh|exact Hs].
Defined.

(** ** C6 *)

Definition returned_sequence (r : outcome AuditEntry.t) : option Z :=
  match r with
  | Returned e => Some (AuditEntry.sequence e)
  | Thrown => None
  end.

Lemma retain_drop {A : Type} (K : Z) (x : list A) :
  retain K x = drop (length x - length (retain K x)) x.
Proof.
  rewrite retain_length. unfold retain. destruct (0 <? K).
  - f_equal. lia.
  - rewrite Nat.sub_diag. reflexivity.
Qed.

Lemma retain_fmap {A B : Type} (f : A -> B) (K : Z) (x : list A) :
  f <$> retain K x = retain K (f <$> x).
Proof.
  unfold retain. destruct (0 <? K); [|reflexivity].
  rewrite fmap_drop, length_fmap. reflexivity.
Qed.

Lemma run_numbered (calls : list Call) (l : t) :
  Forall2 (fun i r => r = Thrown \/ returned_sequence r = Some (sequence l + Z.of_nat i))
          (seq 1 (length calls)) (run calls l).2.
Proof.
  revert l. induction calls as [|c rest IH]; intros l; simpl; constructor.
  - rewrite append_outcome. destruct (writeOk c.1); [right|left; reflexivity].
    simpl. f_equal; lia.
  - rewrite <- seq_shift. apply Forall2_fmap_l.
    eapply Forall2_impl; [apply IH|].
    intros i r [Hr|Hr]; [left; exact Hr|right].
    rewrite Hr. destruct (append_pushed c.1 c.2 l) as (_ & _ & _ & -> & _).
    f_equal; lia.
Qed.

(** C6: on a fresh ledger the [N] append calls are numbered [1, 2, ..., N]
    in call order: the counter ends at [N]; the call number [i] returns an
    entry with sequence [i] (or throws, when its write fails), so that the
    calls return the sequences [1..N] when every write succeeds; and the
    entries retained after any trimming carry the last numbers of that run,
    without gaps. *)
Theorem sequence_numbers (cfg : AuditLedgerConfig) (url key : option string)
    (keyFile : option (list Z)) (random : list Z) (calls : list Call) :
  let r := run calls (new cfg url key keyFile random None) in
  let N := length calls in
  let kept := length (entries r.1) in
  sequence r.1 = Z.of_nat N /\
  AuditEntry.sequence <$> entries r.1 = Z.of_nat <$> seq (1 + (N - kept)) kept /\
  Forall2 (fun i res => res = Thrown \/ returned_sequence res = Some (Z.of_nat i))
          (seq 1 N) r.2 /\
  (Forall (fun c : Call => writeOk c.1 = true) calls ->
   returned_sequence <$> r.2 = (fun i => Some (Z.of_nat i)) <$> seq 1 N).
Proof.
  intros r N kept.
  set (l0 := new cfg url key keyFile random None).
  assert (Hb : AuditEntry.sequence <$> built calls l0 = Z.of_nat <$> seq 1 N).
  { change (map AuditEntry.sequence (built calls l0) = map Z.of_nat (seq 1 N)).
    rewrite built_sequence. apply map_ext. intros i. cbn. reflexivity. }
  split; [|split; [|split; [exact (run_numbered calls l0)|]]].
  - unfold r. rewrite run_sequence. reflexivity.
  - assert (He : entries r.1 = retain (maxEntries cfg) (built calls l0))
      by apply run_fresh_entries.
    assert (Hk : kept = length (retain (maxEntries cfg) (Z.of_nat <$> seq 1 N))).
    { unfold kept. rewrite He, <- Hb, <- retain_fmap, length_fmap. reflexivity. }
    rewrite He, retain_fmap, Hb, retain_drop, <- Hk.
    rewrite length_fmap, length_seq, <- fmap_drop.
    f_equal. change (skipn (N - kept) (seq 1 N) = seq (1 + (N - kept)) kept).
    rewrite skipn_seq. f_equal.
    assert (kept <= N)%nat; [|lia].
    rewrite Hk, retain_length, length_fmap, length_seq.
    destruct (0 <? maxEntries cfg); lia.
  - intros Hok. unfold r. rewrite run_results by assumption.
    fold l0. rewrite <- list_fmap_compose.
    change (returned_sequence ∘ Returned) with (Some ∘ AuditEntry.sequence).
    rewrite list_fmap_compose, Hb, <- list_fmap_compose. reflexivity.
Qed.

Lemma sequence_numbers_witness :
  returned_sequence <$> (run scenario_calls (scenario_new 1)).2 = [Some 1; Some 2].
Proof.
  apply (proj2 (proj2 (proj2 (sequence_numbers (scenario_config 1) None None None
                                scenario_key scenario_calls)))).
  repeat constructor.
Defined.

(** ** C9 *)

Lemma hex_length (octets : list Z) :
  String.length (Sha256.hex octets) = (2 * length octets)%nat.
Proof.
  unfold Sha256.hex.
  induction octets as [|b octets IH]; [reflexivity|].
  simpl flat_map. simpl string_of_list_ascii. simpl String.length.
  simpl length. rewrite IH. lia.
Qed.

Lemma digest_length (msg : list Z) : length (Sha256.digest msg) = 32%nat.
Proof.
  unfold Sha256.digest. generalize (Sha256.digest_regs msg). intros r. reflexivity.
Qed.

Lemma sha256_hex_length (s : string) : String.length (Sha256.sha256_hex s) = 64%nat.
Proof. unfold Sha256.sha256_hex. rewrite hex_length, digest_length. reflexivity. Qed.

Lemma hmac_sha256_hex_length (key : list Z) (s : string) :
  String.length (Sha256.hmac_sha256_hex key s) = 64%nat.
Proof.
  unfold Sha256.hmac_sha256_hex, Sha256.hmac. rewrite hex_length, digest_length.
  reflexivity.
Qed.

(** C9, as amended: the genesis sentinel is a string of 64 characters,
    which is also the length of every SHA-256 hex digest and of every
    HMAC-SHA256 hex signature; after any [append] the chain tip has the
    length of the sentinel. *)
Theorem genesis_sentinel_length :
  String.length GENESIS_HASH = 64%nat /\
  (forall s : string,
     String.length (Sha256.sha256_hex s) = String.length GENESIS_HASH) /\
  (forall (key : list Z) (s : string),
     String.length (Sha256.hmac_sha256_hex key s) = String.length GENESIS_HASH) /\
  (forall (env : AppendEnv) (params : Params.t) (l : t),
     String.length (lastHash (append env params l).1) = String.length GENESIS_HASH).
Proof.
  split; [reflexivity|]. split; [|split].
  - intros s. rewrite sha256_hex_length. reflexivity.
  - intros key s. rewrite hmac_sha256_hex_length. reflexivity.
  - intros env params l.
    destruct (append_pushed env params l) as (_ & _ & -> & _ & _).
    rewrite newEntry_hash. unfold computeHash. rewrite sha256_hex_length. reflexivity.
Qed.

Lemma genesis_sentinel_length_counterexample :
  String.length GENESIS_HASH = String.length (AuditEntry.hash scenario_entry1) /\
  AuditEntry.prevHash scenario_entry1 = GENESIS_HASH /\
  ~ (String.length GENESIS_HASH <> String.length (AuditEntry.hash scenario_entry1)).
Proof.
  assert (H : String.length GENESIS_HASH = String.length (AuditEntry.hash scenario_entry1))
    by (vm_compute; reflexivity).
  split; [exact H|]. split; [reflexivity|]. intros Hne. exact (Hne H).
Qed.

(** ** C10 *)

(** C10: [getRecent(0)] returns every retained entry, and for [n >= 1]
    [getRecent(n)] returns the last [min n count] retained entries in chain
    order. *)
Theorem getRecent_window (l : t) :
  getRecent (Some 0) l = entries l /\
  (forall n, 1 <= n ->
     getRecent (Some n) l = drop (length (entries l) - Z.to_nat n) (entries l) /\
     Z.of_nat (length (getRecent (Some n) l)) = Z.min n (Z.of_nat (length (entries l))) /\
     exists older, entries l = (older ++ getRecent (Some n) l)%list).
Proof.
  split.
  - unfold getRecent. simpl. apply slice_from_0.
  - intros n Hn.
    assert (H : getRecent (Some n) l
                = drop (length (entries l) - Z.to_nat n) (entries l)).
    { unfold getRecent. simpl. apply slice_from_neg. lia. }
    rewrite H. repeat split.
    + rewrite length_drop. lia.
    + exists (take (length (entries l) - Z.to_nat n) (entries l)).
      symmetry. apply take_drop.
Qed.

Lemma getRecent_window_witness :
  getRecent (Some 1) (scenario_ledger 100) = [scenario_entry2] /\
  getRecent (Some 5) (scenario_ledger 100) = [scenario_entry1; scenario_entry2].
Proof.
  split.
  - rewrite (proj1 (proj2 (getRecent_window (scenario_ledger 100)) 1 ltac:(lia))).
    rewrite scenario_entries. reflexivity.
  - rewrite (proj1 (proj2 (getRecent_window (scenario_ledger 100)) 5 ltac:(lia))).
    rewrite scenario_entries. reflexivity.
Defined.

End LedgerFacts.

(* ================================================================== *)
(** * Properties of the consent gate                                   *)
(* ================================================================== *)

Module GateFacts.
Import ConsentGate.
Local Open Scope Z_scope.

(** The tests of consent-gate.test.ts on the embedding. *)

Definition gate_config : ConsentGateConfig :=
  {| enabled := true; alwaysRequire := ["deploy"; "exec"];
     neverRequire := ["fs_read"; "search"]; timeoutMs := 2000;
     riskThreshold := high |}.

Example test_classifyRisk :
  classifyRisk "exec" = Level critical /\ classifyRisk "fs_write" = Level high /\
  classifyRisk "send_email" = Level medium /\ classifyRisk "fs_read" = Level low /\
  classifyRisk "unknown_tool" = Level low /\
  classifyRisk "run_shell_command" = Level critical /\
  classifyRisk "my_deploy_tool" = Level high.
Proof. vm_compute. repeat split. Qed.

Example test_requiresConsent :
  requiresConsent gate_config "fs_read" = false /\
  requiresConsent gate_config "search" = false /\
  requiresConsent gate_config "deploy" = true /\
  requiresConsent gate_config "exec" = true /\
  requiresConsent gate_config "shell" = true /\
  requiresConsent gate_config "fs_write" = true /\
  requiresConsent gate_config "send_email" = false.
Proof. vm_compute. repeat split. Qed.

(** ** C7 *)

(** The order [none < low < medium < high < critical], generated by its
    four covering steps. *)
Inductive next : RiskLevel -> RiskLevel -> Prop :=
| next_none : next none low
| next_low : next low medium
| next_medium : next medium high
| next_high : next high critical.

Definition level_le : RiskLevel -> RiskLevel -> Prop := rtc next.

(** A value is at least a threshold when it is a level at or above it. *)
Definition at_least (v : Value) (threshold : RiskLevel) : Prop :=
  exists r, v = Level r /\ level_le threshold r.

Lemma next_RISK_ORDER (a b : RiskLevel) : next a b -> RISK_ORDER b = RISK_ORDER a + 1.
Proof. destruct 1; reflexivity. Qed.

Lemma level_le_RISK_ORDER (a b : RiskLevel) :
  level_le a b <-> RISK_ORDER a <= RISK_ORDER b.
Proof.
  split.
  - induction 1 as [|a b c Hab _ IH]; [lia|].
    apply next_RISK_ORDER in Hab. lia.
  - destruct a, b; simpl; intros H; try lia;
      repeat first [apply rtc_refl | eapply rtc_l; [constructor|]].
Qed.

Lemma level_le_total (a b : RiskLevel) : level_le a b \/ level_le b a.
Proof. rewrite !level_le_RISK_ORDER. lia. Qed.

Lemma level_le_antisym (a b : RiskLevel) : level_le a b -> level_le b a -> a = b.
Proof.
  rewrite !level_le_RISK_ORDER. destruct a, b; simpl; intros; try reflexivity; lia.
Qed.

Lemma js_ge_at_least (v : Value) (threshold : RiskLevel) :
  js_ge (RISK_ORDER_get v) (RISK_ORDER_get (Level threshold)) = true
  <-> at_least v threshold.
Proof.
  unfold at_least. destruct v as [r|name]; simpl.
  - rewrite Z.leb_le, <- level_le_RISK_ORDER. split.
    + intros H. exists r. split; [reflexivity|exact H].
    + intros (r' & [= <-] & H). exact H.
  - split; [discriminate|]. intros (r & [=] & _).
Qed.

(** C7: [requiresConsent] answers [false] for a name on the never-require
    list, also when the name is on the always-require list as well; else
    [true] for a name on the always-require list; else it answers whether
    the classification of the name is a level at or above
    [config.riskThreshold] in the order
    [none < low < medium < high < critical]. *)
Theorem requiresConsent_precedence (config : ConsentGateConfig) (name : string) :
  (name ∈ neverRequire config -> requiresConsent config name = false) /\
  (name ∉ neverRequire config -> name ∈ alwaysRequire config ->
   requiresConsent config name = true) /\
  (name ∉ neverRequire config -> name ∉ alwaysRequire config ->
   (requiresConsent config name = true
    <-> at_least (classifyRisk name) (riskThreshold config))) /\
  (forall a b : RiskLevel, level_le a b <-> RISK_ORDER a <= RISK_ORDER b) /\
  level_le none low /\ level_le low medium /\ level_le medium high /\
  level_le high critical /\ ~ level_le critical none.
Proof.
  unfold requiresConsent. repeat split.
  - intros H. rewrite bool_decide_eq_true_2 by assumption. reflexivity.
  - intros Hn Ha. rewrite bool_decide_eq_false_2 by assumption.
    rewrite bool_decide_eq_true_2 by assumption. reflexivity.
  - rewrite bool_decide_eq_false_2 by assumption.
    rewrite bool_decide_eq_false_2 by assumption.
    apply js_ge_at_least.
  - rewrite bool_decide_eq_false_2 by assumption.
    rewrite bool_decide_eq_false_2 by assumption.
    apply js_ge_at_least.
  - apply level_le_RISK_ORDER.
  - apply level_le_RISK_ORDER.
  - apply rtc_once. constructor.
  - apply rtc_once. constructor.
  - apply rtc_once. constructor.
  - apply rtc_once. constructor.
  - rewrite level_le_RISK_ORDER. simpl. lia.
Qed.

(** A configuration with a name on both lists. *)
Definition tie_config : ConsentGateConfig :=
  {| enabled := true; alwaysRequire := ["deploy"; "exec"];
     neverRequire := ["exec"; "search"]; timeoutMs := 2000;
     riskThreshold := none |}.

Lemma requiresConsent_precedence_witness :
  requiresConsent tie_config "exec" = false /\
  requiresConsent gate_config "deploy" = true /\
  requiresConsent gate_config "shell" = true.
Proof.
  split; [|split].
  - apply (proj1 (requiresConsent_precedence tie_config "exec")).
    apply (bool_decide_unpack _). vm_compute. exact I.
  - apply (proj1 (proj2 (requiresConsent_precedence gate_config "deploy"))).
    + apply (bool_decide_unpack _). vm_compute. exact I.
    + apply (bool_decide_unpack _). vm_compute. exact I.
  - apply (proj1 (proj2 (proj2 (requiresConsent_precedence gate_config "shell")))).
    + apply (bool_decide_unpack _). vm_compute. exact I.
    + apply (bool_decide_unpack _). vm_compute. exact I.
    + exists critical. split; [vm_compute; reflexivity|].
      apply rtc_once. constructor.
Defined.

(** ** C8 *)

(** The classifier as the specification words it: [key] is a
    case-insensitive substring of [name]. *)
Definition ci_substring (key name : string) : bool :=
  includes (toLowerCase name) (toLowerCase key).

(** (1) exact lookup in the table; (2) otherwise the level of the first
    entry, in declared order, whose key is a case-insensitive substring of
    the name; (3) otherwise [low]. *)
Definition classify_spec (name : string) : RiskLevel :=
  match own TOOL_RISK_MAP name with
  | Some r => r
  | None =>
      match find (fun entry : string * RiskLevel => ci_substring entry.1 name)
                 TOOL_RISK_MAP with
      | Some (_, r) => r
      | None => low
      end
  end.

Lemma find_ext_Forall {A : Type} (f g : A -> bool) (l : list A) :
  Forall (fun x => f x = g x) l -> find f l = find g l.
Proof.
  induction 1 as [|x l Hx _ IH]; simpl; [reflexivity|].
  rewrite Hx, IH. reflexivity.
Qed.

Lemma TOOL_RISK_MAP_lower_case :
  Forall (fun entry : string * RiskLevel => toLowerCase entry.1 = entry.1) TOOL_RISK_MAP.
Proof. repeat constructor. Qed.

Lemma TOOL_RISK_MAP_NoDup : NoDup (TOOL_RISK_MAP.*1).
Proof. apply (bool_decide_unpack _). vm_compute. exact I. Qed.

(** Away from the names that object literals inherit, the code computes
    the classifier of the specification. *)
Lemma classifyRisk_refines_spec (name : string) :
  name ∉ Object_prototype -> classifyRisk name = Level (classify_spec name).
Proof.
  intros Hname. unfold classifyRisk, classify_spec, get.
  destruct (own TOOL_RISK_MAP name) as [r|]; [reflexivity|].
  rewrite bool_decide_eq_false_2 by assumption.
  rewrite (find_ext_Forall
             (fun entry : string * RiskLevel => includes (toLowerCase name) entry.1)
             (fun entry : string * RiskLevel => ci_substring entry.1 name)).
  - destruct (find _ TOOL_RISK_MAP) as [[k r]|]; reflexivity.
  - eapply Forall_impl; [exact TOOL_RISK_MAP_lower_case|].
    intros entry Hl. simpl in Hl. unfold ci_substring. rewrite Hl. reflexivity.
Qed.

(** C8 at the failing input: for the name [constructor] the exact lookup
    finds the member that the table inherits from [Object.prototype], and
    [classifyRisk] returns that member instead of a level; the classifier of
    the specification answers [low].  The same happens at every inherited
    name.  The two names of the claim are classified as it says. *)
Theorem classifyRisk_inherited_property :
  classifyRisk "constructor" = Inherited "constructor" /\
  classify_spec "constructor" = low /\
  Forall (fun name => classifyRisk name = Inherited name
                      /\ classify_spec name = low) Object_prototype /\
  classifyRisk "run_shell_command" = Level critical /\
  classifyRisk "unlisted_tool_xyz" = Level low.
Proof.
  split; [vm_compute; reflexivity|].
  split; [vm_compute; reflexivity|].
  split; [|split; vm_compute; reflexivity].
  repeat constructor.
Qed.

(** ** C3: each request is resolved once *)

Definition ids (susp : list Suspended) : list string :=
  (fun w => id (request w)) <$> susp.

(** The consent id that an appended record carries in its metadata. *)
Definition consentId_of (p : AuditLedger.Params.t) : option string :=
  match AuditLedger.Params.metadata p with
  | Some ((k, Json.Str c) :: _) => if String.eqb k "consentId" then Some c else None
  | _ => None
  end.

Definition decision_of (c : string) (o : Output) : option AuditLedger.Params.t :=
  match o with
  | LedgerAppend p => if bool_decide (consentId_of p = Some c) then Some p else None
  | _ => None
  end.

(** The records handed to [ledger.append] for consent id [c], in order. *)
Definition decisions (c : string) (outs : list Output) : list AuditLedger.Params.t :=
  omap (decision_of c) outs.

(** The terminal status that a settled request has or will get: [timeout]
    when the timer claimed it, else what the response said. *)
Definition decided (w : Suspended) : option Status :=
  match settled w with
  | None => None
  | Some b =>
      Some (if bool_decide (status (request w) = timeout) then timeout
            else if b then approved else rejected)
  end.

(** The decision record of a resumed call. *)
Definition decision_record (w : Suspended) : AuditLedger.Params.t :=
  {| AuditLedger.Params.action := "consent_" +:+ Status_string (status (request w));
     AuditLedger.Params.toolName := Some (toolName (request w));
     AuditLedger.Params.riskLevel := riskLevel (request w);
     AuditLedger.Params.consentRequired := true;
     AuditLedger.Params.consentGranted := settled w;
     AuditLedger.Params.dataTokenized := false;
     AuditLedger.Params.injectionDetected := false;
     AuditLedger.Params.metadata :=
       Some [ ("consentId", Json.Str (id (request w)));
              ("toolArgs", Json.Obj (toolArgs (request w))) ] |}.

Record ok (pend : gmap string nat) (outs : list Output) (h : nat) (w : Suspended)
  : Prop := {
  ok_unsettled :
    settled w = None ->
    pend !! id (request w) = Some h /\ status (request w) = pending /\
    resumed w = false /\ timerArmed w = true;
  ok_timeout : status (request w) = timeout -> settled w = Some false;
  ok_resumed : resumed w = true -> Some (status (request w)) = decided w;
  ok_suspended :
    resumed w = false -> status (request w) = pending \/ status (request w) = timeout;
  ok_decisions :
    decisions (id (request w)) outs = if resumed w then [decision_record w] else []
}.

Record wf (pend : gmap string nat) (susp : list Suspended) (outs : list Output)
  : Prop := {
  wf_ids : NoDup (ids susp);
  wf_pending :
    forall c h, pend !! c = Some h ->
      exists w, susp !! h = Some w /\ id (request w) = c /\ settled w = None;
  wf_ok : forall h w, susp !! h = Some w -> ok pend outs h w;
  wf_outs :
    forall p c, LedgerAppend p ∈ outs -> consentId_of p = Some c -> c ∈ ids susp
}.

Lemma decisions_app (c : string) (a b : list Output) :
  decisions c (a ++ b) = (decisions c a ++ decisions c b)%list.
Proof. apply omap_app. Qed.

Lemma decisions_other (c c0 : string) (new : list Output) :
  (forall p c', LedgerAppend p ∈ new -> consentId_of p = Some c' -> c' = c0) ->
  c <> c0 -> decisions c new = [].
Proof.
  intros Hnew Hne. induction new as [|o new IH]; [reflexivity|].
  assert (IH' : decisions c new = []).
  { apply IH. intros p c' Hp. apply Hnew. right. exact Hp. }
  unfold decisions in *.
  change (omap (decision_of c) (o :: new))
    with (match decision_of c o with
          | Some y => y :: omap (decision_of c) new
          | None => omap (decision_of c) new
          end).
  rewrite IH'.
  destruct o as [| |p]; simpl; try reflexivity.
  case_bool_decide as Hc; [|reflexivity].
  exfalso. apply Hne. eapply Hnew; [left|exact Hc].
Qed.

Lemma ids_lookup (susp : list Suspended) (h : nat) (w : Suspended) :
  susp !! h = Some w -> ids susp !! h = Some (id (request w)).
Proof. intros H. unfold ids. rewrite list_lookup_fmap, H. reflexivity. Qed.

Lemma ids_inj (susp : list Suspended) (h k : nat) (w v : Suspended) :
  NoDup (ids susp) -> susp !! h = Some w -> susp !! k = Some v ->
  id (request w) = id (request v) -> h = k.
Proof.
  intros Hnd Hh Hk Heq. apply ids_lookup in Hh, Hk. rewrite Heq in Hh.
  eapply NoDup_lookup; eassumption.
Qed.

Lemma ids_insert (susp : list Suspended) (h : nat) (w w' : Suspended) :
  susp !! h = Some w -> id (request w') = id (request w) ->
  ids (<[h:=w']> susp) = ids susp.
Proof.
  intros Hh Hid. unfold ids. rewrite list_fmap_insert, Hid.
  apply list_insert_id. rewrite list_lookup_fmap, Hh. reflexivity.
Qed.

Lemma alter_insert (f : Suspended -> Suspended) (susp : list Suspended) (h : nat)
    (w : Suspended) :
  susp !! h = Some w -> alter f h susp = <[h:=f w]> susp.
Proof.
  revert h. induction susp as [|x susp IH]; intros [|h] Hh; try discriminate.
  - injection Hh as ->. reflexivity.
  - simpl in Hh. cbn. f_equal. apply IH. exact Hh.
Qed.

(** A transition that rewrites one suspended call, touches the registry
    at most at the id of that call, and emits records for that id only. *)
Lemma wf_update (pend pend' : gmap string nat) (susp : list Suspended)
    (outs new : list Output) (h : nat) (w w' : Suspended) :
  wf pend susp outs ->
  susp !! h = Some w ->
  id (request w') = id (request w) ->
  (forall c, c <> id (request w) -> pend' !! c = pend !! c) ->
  (forall k, pend' !! id (request w) = Some k -> k = h /\ settled w' = None) ->
  ok pend' (outs ++ new) h w' ->
  (forall p c, LedgerAppend p ∈ new -> consentId_of p = Some c -> c = id (request w)) ->
  wf pend' (<[h:=w']> susp) (outs ++ new).
Proof.
  intros [Hids Hpend Hok Houts] Hh Hid Hother Hself Hok' Hnew.
  assert (Hlt : (h < length susp)%nat) by (eapply lookup_lt_Some; eassumption).
  split.
  - rewrite (ids_insert _ _ w) by assumption. exact Hids.
  - intros c k Hk. destruct (decide (c = id (request w))) as [->|Hc].
    + destruct (Hself k Hk) as [-> Hs]. exists w'.
      rewrite list_lookup_insert_eq by exact Hlt. auto.
    + rewrite Hother in Hk by exact Hc.
      destruct (Hpend c k Hk) as (v & Hv & Hvid & Hvs).
      exists v. split; [|auto].
      rewrite list_lookup_insert_ne; [exact Hv|].
      intros ->. rewrite Hh in Hv. injection Hv as ->. auto.
  - intros k v Hv. destruct (decide (h = k)) as [->|Hhk].
    + rewrite list_lookup_insert_eq in Hv by exact Hlt. injection Hv as <-. exact Hok'.
    + rewrite list_lookup_insert_ne in Hv by exact Hhk.
      assert (Hne : id (request v) <> id (request w)).
      { intros Heq. apply Hhk. symmetry. eapply ids_inj; eassumption. }
      destruct (Hok k v Hv) as [H1 H2 H3 H4 H5]. split; try assumption.
      * rewrite Hother by exact Hne. exact H1.
      * rewrite decisions_app, H5, (decisions_other _ (id (request w))) by assumption.
        apply app_nil_r.
  - intros p c Hp Hc. rewrite (ids_insert _ _ w) by assumption.
    apply elem_of_app in Hp as [Hp|Hp].
    + eapply Houts; eassumption.
    + rewrite (Hnew p c Hp Hc). apply list_elem_of_lookup. exists h.
      apply ids_lookup. exact Hh.
Qed.

(** What later transitions leave untouched: the id of a call, the value
    its promise was settled with and the status this fixes, and the whole
    request once the call has been resumed. *)
Definition stable (susp susp' : list Suspended) : Prop :=
  forall h w, susp !! h = Some w ->
    exists w', susp' !! h = Some w' /\
      id (request w') = id (request w) /\
      (forall b, settled w = Some b -> settled w' = Some b /\ decided w' = decided w) /\
      (resumed w = true ->
       request w' = request w /\ settled w' = settled w /\ resumed w' = true).

Lemma stable_refl (susp : list Suspended) : stable susp susp.
Proof. intros h w Hh. exists w. repeat split; auto. Qed.

Lemma stable_trans (a b c : list Suspended) : stable a b -> stable b c -> stable a c.
Proof.
  intros Hab Hbc h w Hh.
  destruct (Hab h w Hh) as (w1 & H1 & Hid1 & Hs1 & Hr1).
  destruct (Hbc h w1 H1) as (w2 & H2 & Hid2 & Hs2 & Hr2).
  exists w2. split; [exact H2|]. split; [congruence|]. split.
  - intros v Hv. destruct (Hs1 v Hv) as [Hv1 Hd1].
    destruct (Hs2 v Hv1) as [Hv2 Hd2]. split; congruence.
  - intros Hr. destruct (Hr1 Hr) as (Ha & Hb & Hc).
    destruct (Hr2 Hc) as (Ha' & Hb' & Hc'). repeat split; congruence.
Qed.

Lemma stable_insert (susp : list Suspended) (h : nat) (w w' : Suspended) :
  susp !! h = Some w ->
  id (request w') = id (request w) ->
  (forall b, settled w = Some b -> settled w' = Some b /\ decided w' = decided w) ->
  (resumed w = true ->
   request w' = request w /\ settled w' = settled w /\ resumed w' = true) ->
  stable susp (<[h:=w']> susp).
Proof.
  intros Hh Hid Hs Hr k v Hv.
  assert (Hlt : (h < length susp)%nat) by (eapply lookup_lt_Some; eassumption).
  destruct (decide (h = k)) as [->|Hne].
  - rewrite Hh in Hv. injection Hv as <-. exists w'.
    rewrite list_lookup_insert_eq by exact Hlt. auto.
  - exists v. rewrite list_lookup_insert_ne by exact Hne. repeat split; auto.
Qed.

Lemma stable_snoc (susp : list Suspended) (w0 : Suspended) : stable susp (susp ++ [w0]).
Proof.
  intros h w Hh. exists w. rewrite lookup_app_l by (eapply lookup_lt_Some; eassumption).
  repeat split; auto.
Qed.

Lemma decisions_silent (c : string) (new : list Output) :
  (forall p, LedgerAppend p ∉ new) -> decisions c new = [].
Proof.
  intros Hnew. induction new as [|o new IH]; [reflexivity|].
  assert (IH' : decisions c new = []).
  { apply IH. intros p Hp. apply (Hnew p). right. exact Hp. }
  unfold decisions in *.
  change (omap (decision_of c) (o :: new))
    with (match decision_of c o with
          | Some y => y :: omap (decision_of c) new
          | None => omap (decision_of c) new
          end).
  rewrite IH'. destruct o as [| |p]; simpl; try reflexivity.
  destruct (Hnew p). left.
Qed.

(** Outputs that are not ledger records change nothing. *)
Lemma wf_silent (pend : gmap string nat) (susp : list Suspended)
    (outs new : list Output) :
  wf pend susp outs ->
  (forall p, LedgerAppend p ∉ new) ->
  wf pend susp (outs ++ new).
Proof.
  intros [Hids Hpend Hok Houts] Hnew. split; try assumption.
  - intros h w Hh. destruct (Hok h w Hh) as [H1 H2 H3 H4 H5]. split; try assumption.
    rewrite decisions_app, H5, decisions_silent by assumption.
    apply app_nil_r.
  - intros p c Hp Hc. apply elem_of_app in Hp as [Hp|Hp].
    + eapply Houts; eassumption.
    + destruct (Hnew p Hp).
Qed.

Definition sound (g : t) (outs : list Output) : Prop :=
  wf (pendingRequests g) (suspended g) outs.

(** *** [handleResponse] *)

Lemma handleResponse_miss (g : t) (c : string) (b : bool) :
  pendingRequests g !! c = None -> handleResponse c b g = (g, false).
Proof. intros H. unfold handleResponse. rewrite H. reflexivity. Qed.

Lemma handleResponse_hit (g : t) (c : string) (b : bool) (h : nat) (w : Suspended) :
  pendingRequests g !! c = Some h -> suspended g !! h = Some w -> settled w = None ->
  handleResponse c b g
  = (Build (config g) (ledger g) (delete c (pendingRequests g))
           (<[h:=set_settled (Some b) w]> (suspended g)), true).
Proof.
  intros Hc Hh Hs. unfold handleResponse, resolve. rewrite Hc.
  cbn [set_pendingRequests set_suspended config ledger pendingRequests suspended].
  rewrite (alter_insert _ _ _ w) by exact Hh. rewrite Hs. reflexivity.
Qed.

Lemma handleResponse_sound (g : t) (outs : list Output) (c : string) (b : bool) :
  sound g outs ->
  let r := handleResponse c b g in
  sound r.1 (outs ++ [HandleResponseReturned r.2]) /\
  stable (suspended g) (suspended r.1) /\
  ids (suspended r.1) = ids (suspended g).
Proof.
  intros Hwf r. unfold r.
  assert (Hnew : forall b' p, LedgerAppend p ∉ [HandleResponseReturned b']).
  { intros b' p Hp. apply list_elem_of_singleton in Hp. discriminate. }
  destruct (pendingRequests g !! c) as [h|] eqn:Hc.
  - destruct (wf_pending _ _ _ Hwf c h Hc) as (w & Hh & Hid & Hs).
    rewrite (handleResponse_hit g c b h w) by assumption. cbn [fst snd].
    destruct (wf_ok _ _ _ Hwf h w Hh) as [H1 H2 H3 H4 H5].
    destruct (H1 Hs) as (_ & Hst & Hres & Harm).
    split; [|split].
    + unfold sound. cbn [pendingRequests suspended].
      apply (wf_update (pendingRequests g) _ _ _ _ h w); try assumption.
      * reflexivity.
      * intros c' Hc'. apply lookup_delete_ne. congruence.
      * intros k Hk. rewrite Hid, lookup_delete_eq in Hk. discriminate.
      * split; cbn [set_settled request settled resumed timerArmed].
        -- discriminate.
        -- rewrite Hst. discriminate.
        -- rewrite Hres. discriminate.
        -- auto.
        -- rewrite decisions_app, H5, decisions_silent by apply Hnew.
           rewrite Hres. reflexivity.
      * intros p c' Hp. destruct (Hnew _ _ Hp).
    + cbn [suspended]. apply (stable_insert _ h w); try assumption.
      * reflexivity.
      * intros v Hv. congruence.
      * intros Hr. congruence.
    + cbn [suspended]. apply (ids_insert _ h w); [assumption|reflexivity].
  - rewrite handleResponse_miss by assumption. cbn [fst snd].
    split; [|split; [apply stable_refl|reflexivity]].
    apply wf_silent; [exact Hwf|apply Hnew].
Qed.

(** *** The timer *)

Lemma alter_insert_insert (f : Suspended -> Suspended) (susp : list Suspended)
    (h : nat) (x : Suspended) :
  (h < length susp)%nat -> alter f h (<[h:=x]> susp) = <[h:=f x]> susp.
Proof.
  intros Hlt. rewrite (alter_insert _ _ _ x) by (apply list_lookup_insert_eq; exact Hlt).
  apply list_insert_insert_eq.
Qed.

(** The call as the timer leaves it when it claims the request. *)
Definition timed_out (w : Suspended) : Suspended :=
  {| request := set_status timeout (request w); settled := Some false;
     timerArmed := false; resumed := resumed w |}.

Lemma timerFires_claim (g : t) (h : nat) (w : Suspended) :
  suspended g !! h = Some w -> timerArmed w = true ->
  pendingRequests g !! id (request w) = Some h -> settled w = None ->
  timerFires h g
  = Build (config g) (ledger g) (delete (id (request w)) (pendingRequests g))
          (<[h:=timed_out w]> (suspended g)).
Proof.
  intros Hh Harm Hp Hs.
  assert (Hlt : (h < length (suspended g))%nat) by (eapply lookup_lt_Some; eassumption).
  unfold timerFires, resolve. rewrite Hh, Harm.
  cbn [set_pendingRequests set_suspended config ledger pendingRequests suspended].
  rewrite bool_decide_eq_true_2 by (rewrite Hp; eauto).
  rewrite (alter_insert (set_timerArmed false) _ _ w) by exact Hh.
  rewrite !alter_insert_insert by exact Hlt.
  cbn [set_timerArmed set_request set_settled request settled]. rewrite Hs.
  reflexivity.
Qed.

Lemma timerFires_late (g : t) (h : nat) (w : Suspended) :
  suspended g !! h = Some w -> timerArmed w = true ->
  pendingRequests g !! id (request w) = None ->
  timerFires h g
  = Build (config g) (ledger g) (pendingRequests g)
          (<[h:=set_timerArmed false w]> (suspended g)).
Proof.
  intros Hh Harm Hp. unfold timerFires. rewrite Hh, Harm.
  cbn [set_pendingRequests set_suspended config ledger pendingRequests suspended].
  rewrite bool_decide_eq_false_2 by (rewrite Hp; intros [? [=]]).
  rewrite (alter_insert _ _ _ w) by exact Hh. reflexivity.
Qed.

Lemma timerFires_idle (g : t) (h : nat) :
  (suspended g !! h = None \/
   exists w, suspended g !! h = Some w /\ timerArmed w = false) ->
  timerFires h g = g.
Proof.
  intros [H|(w & H & Harm)]; unfold timerFires; rewrite H; [|rewrite Harm]; reflexivity.
Qed.

(** In a sound state the registry holds the id of a call exactly while the
    call is unsettled. *)
Lemma sound_pending_iff (g : t) (outs : list Output) (h : nat) (w : Suspended) :
  sound g outs -> suspended g !! h = Some w ->
  (pendingRequests g !! id (request w) = Some h <-> settled w = None) /\
  (pendingRequests g !! id (request w) = None <-> settled w <> None).
Proof.
  intros Hwf Hh.
  assert (Hfwd : forall k, pendingRequests g !! id (request w) = Some k ->
                           k = h /\ settled w = None).
  { intros k Hk. destruct (wf_pending _ _ _ Hwf _ _ Hk) as (v & Hv & Hid & Hs).
    assert (k = h) as -> by (eapply ids_inj; try eassumption; apply Hwf).
    rewrite Hh in Hv. injection Hv as <-. auto. }
  assert (Hbwd : settled w = None -> pendingRequests g !! id (request w) = Some h).
  { intros Hs. apply (ok_unsettled _ _ _ _ (wf_ok _ _ _ Hwf h w Hh) Hs). }
  split; split.
  - intros Hk. apply (Hfwd h Hk).
  - exact Hbwd.
  - intros Hn Hs. rewrite (Hbwd Hs) in Hn. discriminate.
  - intros Hs. destruct (pendingRequests g !! id (request w)) as [k|] eqn:Hk;
      [|reflexivity].
    destruct (Hfwd k eq_refl) as [_ Hs']. contradiction.
Qed.

Lemma timerFires_sound (g : t) (outs : list Output) (h : nat) :
  sound g outs ->
  sound (timerFires h g) (outs ++ []) /\
  stable (suspended g) (suspended (timerFires h g)) /\
  ids (suspended (timerFires h g)) = ids (suspended g).
Proof.
  intros Hwf. rewrite app_nil_r.
  destruct (suspended g !! h) as [w|] eqn:Hh;
    [|rewrite timerFires_idle by auto; auto using stable_refl].
  destruct (timerArmed w) eqn:Harm;
    [|rewrite timerFires_idle by eauto; auto using stable_refl].
  destruct (sound_pending_iff g outs h w Hwf Hh) as [Hsome Hnone].
  destruct (wf_ok _ _ _ Hwf h w Hh) as [H1 H2 H3 H4 H5].
  destruct (settled w) as [b|] eqn:Hs.
  - (* the response was first: the timer does nothing *)
    assert (Hp : pendingRequests g !! id (request w) = None)
      by (apply Hnone; discriminate).
    rewrite (timerFires_late g h w) by assumption.
    split; [|split]; cbn [suspended pendingRequests].
    + unfold sound. cbn [suspended pendingRequests].
      rewrite <- (app_nil_r outs).
      apply (wf_update (pendingRequests g) _ _ _ _ h w); try assumption.
      * reflexivity.
      * reflexivity.
      * intros k Hk. rewrite Hp in Hk. discriminate.
      * rewrite app_nil_r.
        split; cbn [set_timerArmed request settled resumed timerArmed];
          rewrite ?Hs; try assumption; try discriminate.
      * intros p c Hp'. inversion Hp'.
    + apply (stable_insert _ h w); try assumption; try reflexivity.
      * intros v Hv. split; [exact Hv|reflexivity].
      * intros Hr. auto.
    + apply (ids_insert _ h w); [assumption|reflexivity].
  - (* the timer is first *)
    assert (Hp : pendingRequests g !! id (request w) = Some h)
      by (apply Hsome; reflexivity).
    destruct (H1 eq_refl) as (_ & Hst & Hres & _).
    rewrite (timerFires_claim g h w) by assumption.
    split; [|split]; cbn [suspended pendingRequests].
    + unfold sound. cbn [suspended pendingRequests].
      rewrite <- (app_nil_r outs).
      apply (wf_update (pendingRequests g) _ _ _ _ h w); try assumption.
      * reflexivity.
      * intros c Hc. apply lookup_delete_ne. congruence.
      * intros k Hk. rewrite lookup_delete_eq in Hk. discriminate.
      * rewrite app_nil_r. split; cbn [timed_out request settled resumed timerArmed].
        -- discriminate.
        -- reflexivity.
        -- rewrite Hres. discriminate.
        -- intros _. right. reflexivity.
        -- rewrite Hres in *. exact H5.
      * intros p c Hp'. inversion Hp'.
    + apply (stable_insert _ h w); try assumption; try reflexivity.
      * intros v Hv. congruence.
      * intros Hr. congruence.
    + apply (ids_insert _ h w); [assumption|reflexivity].
Qed.

(** *** The resumption of [intercept] *)

(** The call as [intercept] leaves it once it has run to its end. *)
Definition resumed_call (now : string) (w : Suspended) : Suspended :=
  match decided w with
  | Some st =>
      set_resumed true (set_request (set_resolvedAt now (set_status st (request w))) w)
  | None => w
  end.

Lemma resume_run (g : t) (h : nat) (env : ResumeEnv) (w : Suspended) (b : bool) :
  suspended g !! h = Some w -> settled w = Some b -> resumed w = false ->
  exists ldg res,
    resume h env g
    = (Build (config g) ldg (pendingRequests g)
             (<[h:=resumed_call (r_now env) w]> (suspended g)),
       [LedgerAppend (decision_record (resumed_call (r_now env) w));
        InterceptSettled res]).
Proof.
  intros Hh Hs Hr. unfold resume. rewrite Hh, Hs, Hr.
  rewrite (alter_insert _ _ _ w) by exact Hh.
  unfold resumed_call, decided. rewrite Hs.
  match goal with
  | |- context [AuditLedger.append ?e ?p ?l] => destruct (AuditLedger.append e p l) as [ldg [e'|]]
  end; cbn [fst snd]; eexists; eexists; unfold decision_record;
    cbn [set_resumed set_request request settled]; rewrite Hs; reflexivity.
Qed.

Lemma resume_idle (g : t) (h : nat) (env : ResumeEnv) :
  (suspended g !! h = None \/
   exists w, suspended g !! h = Some w /\ (settled w = None \/ resumed w = true)) ->
  resume h env g = (g, []).
Proof.
  intros [H|(w & H & Hw)]; unfold resume; rewrite H; [reflexivity|].
  destruct (settled w), (resumed w), Hw; try reflexivity; discriminate.
Qed.

Lemma decided_resumed_call (now : string) (w : Suspended) :
  decided (resumed_call now w) = decided w /\
  settled (resumed_call now w) = settled w /\
  id (request (resumed_call now w)) = id (request w) /\
  (forall st, decided w = Some st -> status (request (resumed_call now w)) = st).
Proof.
  unfold resumed_call, decided.
  destruct (settled w) as [b|] eqn:Hs; [|rewrite Hs; repeat split; discriminate].
  cbn. rewrite ?Hs. repeat split.
  - f_equal. repeat case_bool_decide; destruct b; congruence.
  - intros st [= <-]. reflexivity.
Qed.

Lemma decisions_record (w : Suspended) (res : outcome ToolCallResult) :
  decisions (id (request w)) [LedgerAppend (decision_record w); InterceptSettled res]
  = [decision_record w].
Proof.
  unfold decisions. cbn. rewrite bool_decide_eq_true_2 by reflexivity. reflexivity.
Qed.

Lemma resume_sound (g : t) (outs : list Output) (h : nat) (env : ResumeEnv) :
  sound g outs ->
  let r := resume h env g in
  sound r.1 (outs ++ r.2) /\
  stable (suspended g) (suspended r.1) /\
  ids (suspended r.1) = ids (suspended g).
Proof.
  intros Hwf r. unfold r. clear r.
  assert (Hidle : resume h env g = (g, []) ->
                  sound (resume h env g).1 (outs ++ (resume h env g).2) /\
                  stable (suspended g) (suspended (resume h env g).1) /\
                  ids (suspended (resume h env g).1) = ids (suspended g)).
  { intros ->. cbn [fst snd]. rewrite app_nil_r. auto using stable_refl. }
  destruct (suspended g !! h) as [w|] eqn:Hh; [|apply Hidle, resume_idle; auto].
  destruct (settled w) as [b|] eqn:Hs; [|apply Hidle, resume_idle; eauto].
  destruct (resumed w) eqn:Hr; [apply Hidle, resume_idle; eauto|].
  clear Hidle.
  destruct (resume_run g h env w b Hh Hs Hr) as (ldg & res & ->). cbn [fst snd suspended].
  destruct (sound_pending_iff g outs h w Hwf Hh) as [_ Hnone].
  destruct (wf_ok _ _ _ Hwf h w Hh) as [H1 H2 H3 H4 H5].
  destruct (decided_resumed_call (r_now env) w) as (Hd & Hs' & Hid & Hst).
  assert (Hres : resumed (resumed_call (r_now env) w) = true).
  { unfold resumed_call, decided. rewrite Hs. reflexivity. }
  assert (Hdw : decided w = Some (status (request (resumed_call (r_now env) w)))).
  { unfold decided in *. rewrite Hs in *. f_equal. symmetry. apply Hst. reflexivity. }
  split; [|split].
  - unfold sound. cbn [pendingRequests suspended].
    apply (wf_update (pendingRequests g) _ _ _ _ h w); try assumption.
    + reflexivity.
    + intros k Hk. rewrite (proj2 Hnone) in Hk by congruence. discriminate.
    + split.
      * rewrite Hs', Hs. discriminate.
      * intros Ht. rewrite Hs'. apply H2.
        unfold decided in Hdw. rewrite Hs, Ht in Hdw.
        case_bool_decide; [assumption|]. destruct b; discriminate.
      * intros _. rewrite Hd. symmetry. exact Hdw.
      * rewrite Hres. discriminate.
      * rewrite decisions_app, Hid, H5, Hr, Hres, <- Hid, decisions_record. reflexivity.
    + intros p c Hp Hc. apply elem_of_cons in Hp as [Hp|Hp].
      * injection Hp as ->. cbn in Hc. injection Hc as <-. exact Hid.
      * apply list_elem_of_singleton in Hp. discriminate.
  - apply (stable_insert _ h w); try assumption.
    + intros v Hv. split; [congruence|exact Hd].
    + intros Hr'. congruence.
  - apply (ids_insert _ h w); assumption.
Qed.

(** *** [intercept] *)

Lemma intercept_cases (g : t) (event : ToolCallEvent) (env : InterceptEnv) :
  (exists res, intercept event env g = (g, [InterceptSettled res])) \/
  (exists w0,
     id (request w0) = i_uuid env /\ settled w0 = None /\
     status (request w0) = pending /\ resumed w0 = false /\ timerArmed w0 = true /\
     intercept event env g
     = (Build (config g) (ledger g)
              (<[i_uuid env := length (suspended g)]> (pendingRequests g))
              (suspended g ++ [w0]), [])).
Proof.
  unfold intercept.
  destruct (requiresConsent (config g) (ev_toolName event)); cbn [negb];
    [|left; eexists; reflexivity].
  destruct (classifyRisk (ev_toolName event)) as [risk|name];
    [|left; eexists; reflexivity].
  destruct (i_sendOk env); [|left; eexists; reflexivity].
  right. eexists. do 5 (split; [shelve|]). reflexivity.
  Unshelve. all: reflexivity.
Qed.

Lemma decisions_unknown (c : string) (outs : list Output) :
  (forall p, LedgerAppend p ∈ outs -> consentId_of p <> Some c) ->
  decisions c outs = [].
Proof.
  intros Hnew. induction outs as [|o outs IH]; [reflexivity|].
  assert (IH' : decisions c outs = []).
  { apply IH. intros p Hp. apply (Hnew p). right. exact Hp. }
  unfold decisions in *.
  change (omap (decision_of c) (o :: outs))
    with (match decision_of c o with
          | Some y => y :: omap (decision_of c) outs
          | None => omap (decision_of c) outs
          end).
  rewrite IH'. destruct o as [| |p]; simpl; try reflexivity.
  rewrite bool_decide_eq_false_2; [reflexivity|]. apply Hnew. left.
Qed.

Lemma intercept_sound (g : t) (outs : list Output) (event : ToolCallEvent)
    (env : InterceptEnv) :
  sound g outs ->
  i_uuid env ∉ ids (suspended g) ->
  let r := intercept event env g in
  sound r.1 (outs ++ r.2) /\
  stable (suspended g) (suspended r.1) /\
  (ids (suspended r.1) = ids (suspended g) \/
   ids (suspended r.1) = (ids (suspended g) ++ [i_uuid env])%list).
Proof.
  intros Hwf Hfresh r. unfold r. clear r.
  destruct (intercept_cases g event env)
    as [(res & ->)|(w0 & Hid & Hs & Hst & Hr & Harm & ->)]; cbn [fst snd].
  - split; [|split; [apply stable_refl|left; reflexivity]].
    apply wf_silent; [exact Hwf|].
    intros p Hp. apply list_elem_of_singleton in Hp. discriminate.
  - cbn [suspended]. split; [|split; [apply stable_snoc|right]].
    2:{ unfold ids. rewrite fmap_app. cbn. rewrite Hid. reflexivity. }
    destruct Hwf as [Hids Hpend Hok Houts].
    assert (Hids' : ids (suspended g ++ [w0]) = (ids (suspended g) ++ [i_uuid env])%list).
    { unfold ids. rewrite fmap_app. cbn. rewrite Hid. reflexivity. }
    unfold sound. cbn [pendingRequests suspended]. rewrite app_nil_r. split.
    + rewrite Hids'. apply NoDup_app. split; [exact Hids|]. split.
      * intros x Hx Hx'. apply list_elem_of_singleton in Hx'. subst x. contradiction.
      * apply NoDup_singleton.
    + intros c h Hc. destruct (decide (c = i_uuid env)) as [->|Hne].
      * rewrite lookup_insert_eq in Hc. injection Hc as <-.
        exists w0. rewrite list_lookup_middle by reflexivity. auto.
      * rewrite lookup_insert_ne in Hc by congruence.
        destruct (Hpend c h Hc) as (w & Hw & Hwid & Hws).
        exists w. rewrite lookup_app_l by (eapply lookup_lt_Some; eassumption). auto.
    + intros h w Hw. apply lookup_app_Some in Hw as [Hw|[Hge Hw]].
      * assert (Hne : id (request w) <> i_uuid env).
        { intros Heq. apply Hfresh. rewrite <- Heq. apply list_elem_of_lookup.
          exists h. apply ids_lookup. exact Hw. }
        destruct (Hok h w Hw) as [H1 H2 H3 H4 H5]. split; try assumption.
        rewrite lookup_insert_ne by congruence. exact H1.
      * apply list_lookup_singleton_Some in Hw as [Hz <-].
        assert (h = length (suspended g)) as -> by lia.
        split; try congruence.
        -- intros _. rewrite Hid, lookup_insert_eq. auto.
        -- auto.
        -- rewrite Hr, Hid. apply decisions_unknown.
           intros p Hp Hc. apply Hfresh. eapply Houts; eassumption.
    + intros p c Hp Hc. rewrite Hids'. apply elem_of_app. left.
      eapply Houts; eassumption.
Qed.

(** *** Runs *)

Definition uuid_of (ev : Event) : list string :=
  match ev with
  | Intercept _ env => [i_uuid env]
  | _ => []
  end.

(** The ids that [randomUUID()] hands to the [intercept] calls of a run. *)
Definition uuids (evs : list Event) : list string := flat_map uuid_of evs.

Lemma step_sound (ev : Event) (g : t) (outs : list Output) :
  sound g outs ->
  (forall u, u ∈ uuid_of ev -> u ∉ ids (suspended g)) ->
  let r := step ev g in
  sound r.1 (outs ++ r.2) /\
  stable (suspended g) (suspended r.1) /\
  (forall c, c ∈ ids (suspended r.1) -> c ∈ ids (suspended g) \/ c ∈ uuid_of ev).
Proof.
  intros Hwf Hfresh.
  destruct ev as [event env|c b|h|h env]; cbn [step fst snd].
  - destruct (intercept_sound g outs event env Hwf) as (H1 & H2 & H3).
    { apply Hfresh. left. }
    split; [exact H1|]. split; [exact H2|].
    intros c. destruct H3 as [-> | ->]; [auto|].
    rewrite elem_of_app. auto.
  - destruct (handleResponse_sound g outs c b Hwf) as (H1 & H2 & H3).
    split; [exact H1|]. split; [exact H2|]. rewrite H3. auto.
  - destruct (timerFires_sound g outs h Hwf) as (H1 & H2 & H3).
    split; [exact H1|]. split; [exact H2|]. rewrite H3. auto.
  - destruct (resume_sound g outs h env Hwf) as (H1 & H2 & H3).
    split; [exact H1|]. split; [exact H2|]. rewrite H3. auto.
Qed.

Lemma exec_sound (evs : list Event) (g : t) (outs : list Output) :
  sound g outs ->
  NoDup (uuids evs) ->
  (forall u, u ∈ uuids evs -> u ∉ ids (suspended g)) ->
  sound (exec evs g).1 (outs ++ (exec evs g).2) /\
  stable (suspended g) (suspended (exec evs g).1) /\
  (forall c, c ∈ ids (suspended (exec evs g).1) ->
             c ∈ ids (suspended g) \/ c ∈ uuids evs).
Proof.
  revert g outs. induction evs as [|ev evs IH]; intros g outs Hwf Hnd Hfresh.
  - cbn. rewrite app_nil_r. auto using stable_refl.
  - cbn [exec fst snd]. unfold uuids in Hnd, Hfresh |- *.
    cbn [flat_map] in Hnd, Hfresh |- *.
    apply NoDup_app in Hnd as (Hnd1 & Hdisj & Hnd2).
    destruct (step_sound ev g outs Hwf) as (H1 & H2 & H3).
    { intros u Hu. apply Hfresh. apply elem_of_app. auto. }
    destruct (IH (step ev g).1 (outs ++ (step ev g).2)%list H1 Hnd2) as (H4 & H5 & H6).
    { intros u Hu Hin. destruct (H3 u Hin) as [Hold|Hnew].
      - apply (Hfresh u); [apply elem_of_app; auto|exact Hold].
      - apply (Hdisj u Hnew Hu). }
    split; [|split].
    + rewrite app_assoc. exact H4.
    + eapply stable_trans; eassumption.
    + intros c Hc. rewrite elem_of_app.
      destruct (H6 c Hc) as [Hc'|Hc']; [|auto].
      destruct (H3 c Hc'); auto.
Qed.

Lemma exec_app (a b : list Event) (g : t) :
  exec (a ++ b) g
  = ((exec b (exec a g).1).1, ((exec a g).2 ++ (exec b (exec a g).1).2)%list).
Proof.
  revert g. induction a as [|ev a IH]; intros g.
  - cbn. destruct (exec b g). reflexivity.
  - cbn [exec app fst snd]. rewrite IH. cbn [fst snd]. rewrite app_assoc. reflexivity.
Qed.

Lemma uuids_app (a b : list Event) : uuids (a ++ b) = (uuids a ++ uuids b)%list.
Proof. unfold uuids. apply flat_map_app. Qed.

Lemma new_sound (cfg : ConsentGateConfig) (ldg : AuditLedger.t) : sound (new cfg ldg) [].
Proof.
  split; cbn.
  - apply NoDup_nil_2.
  - intros c h Hc. rewrite lookup_empty in Hc. discriminate.
  - intros h w Hw. discriminate.
  - intros p c Hp. inversion Hp.
Qed.

Lemma decision_record_ext (w w' : Suspended) :
  request w' = request w -> settled w' = settled w ->
  decision_record w' = decision_record w.
Proof. unfold decision_record. intros -> ->. reflexivity. Qed.

(** *** The ledger of the gate *)

(** The records handed to [ledger.append], in order. *)
Definition appended (outs : list Output) : list AuditLedger.Params.t :=
  omap (fun o => match o with LedgerAppend p => Some p | _ => None end) outs.

Lemma appended_app (a b : list Output) :
  appended (a ++ b) = (appended a ++ appended b)%list.
Proof. unfold appended. apply omap_app. Qed.

Lemma run_app (a b : list LedgerFacts.Call) (l : AuditLedger.t) :
  (LedgerFacts.run (a ++ b) l).1 = (LedgerFacts.run b (LedgerFacts.run a l).1).1.
Proof.
  revert l. induction a as [|c a IH]; intros l; [reflexivity|].
  cbn [app LedgerFacts.run fst]. apply IH.
Qed.

Lemma step_ledger (ev : Event) (g : t) :
  exists calls : list LedgerFacts.Call,
    ledger (step ev g).1 = (LedgerFacts.run calls (ledger g)).1 /\
    calls.*2 = appended (step ev g).2.
Proof.
  destruct ev as [event env|c b|h|h env]; cbn [step fst snd].
  - exists []. destruct (intercept_cases g event env) as [(res & ->)|(w0 & _ & _ & _ & _ & _ & ->)];
      split; reflexivity.
  - exists []. unfold handleResponse.
    destruct (pendingRequests g !! c); split; reflexivity.
  - exists []. unfold timerFires.
    destruct (suspended g !! h) as [w|]; [|split; reflexivity].
    destruct (timerArmed w); [|split; reflexivity].
    case_bool_decide; split; reflexivity.
  - unfold resume.
    destruct (suspended g !! h) as [w|]; [|exists []; split; reflexivity].
    destruct (settled w) as [b|]; [|exists []; split; reflexivity].
    destruct (resumed w); [exists []; split; reflexivity|].
    cbv zeta.
    match goal with
    | |- context [AuditLedger.append ?e ?p ?l] =>
        exists [(e, p)]; destruct (AuditLedger.append e p l) as [l' [e'|]] eqn:Ha;
        cbn [fst snd LedgerFacts.run]; change l with (ledger g) in Ha |- *
    end.
    + rewrite Ha. split; reflexivity.
    + rewrite Ha. split; reflexivity.
Qed.

Lemma exec_ledger (evs : list Event) (g : t) :
  exists calls : list LedgerFacts.Call,
    ledger (exec evs g).1 = (LedgerFacts.run calls (ledger g)).1 /\
    calls.*2 = appended (exec evs g).2.
Proof.
  revert g. induction evs as [|ev evs IH]; intros g.
  - exists []. split; reflexivity.
  - cbn [exec fst snd].
    destruct (step_ledger ev g) as (c1 & Hl1 & Hc1).
    destruct (IH (step ev g).1) as (c2 & Hl2 & Hc2).
    exists (c1 ++ c2)%list. split.
    + rewrite run_app, <- Hl1. exact Hl2.
    + rewrite fmap_app, appended_app, Hc1, Hc2. reflexivity.
Qed.

(** The consent id in the metadata of a ledger entry. *)
Definition entry_consentId (e : AuditEntry.t) : option string :=
  match AuditEntry.metadata e with
  | (k, Json.Str c) :: _ => if String.eqb k "consentId" then Some c else None
  | _ => None
  end.

(** The entries that carry the consent id [c], in order. *)
Definition recorded (c : string) (es : list AuditEntry.t) : list AuditEntry.t :=
  filter (fun e => entry_consentId e = Some c) es.

(** The entry holds what the record handed to [append] said. *)
Definition carries (e : AuditEntry.t) (p : AuditLedger.Params.t) : Prop :=
  AuditEntry.action e = AuditLedger.Params.action p /\
  AuditEntry.toolName e = AuditLedger.Params.toolName p /\
  AuditEntry.riskLevel e = AuditLedger.Params.riskLevel p /\
  AuditEntry.consentRequired e = AuditLedger.Params.consentRequired p /\
  AuditEntry.consentGranted e = AuditLedger.Params.consentGranted p /\
  AuditEntry.dataTokenized e = AuditLedger.Params.dataTokenized p /\
  AuditEntry.injectionDetected e = AuditLedger.Params.injectionDetected p /\
  AuditEntry.metadata e = default [] (AuditLedger.Params.metadata p).

Lemma newEntry_carries (env : AuditLedger.AppendEnv) (p : AuditLedger.Params.t)
    (l : AuditLedger.t) :
  carries (LedgerFacts.newEntry env p l) p.
Proof. repeat split. Qed.

Lemma newEntry_consentId (env : AuditLedger.AppendEnv) (p : AuditLedger.Params.t)
    (l : AuditLedger.t) :
  entry_consentId (LedgerFacts.newEntry env p l) = consentId_of p.
Proof.
  unfold entry_consentId, consentId_of.
  change (AuditEntry.metadata (LedgerFacts.newEntry env p l))
    with (default [] (AuditLedger.Params.metadata p)).
  destruct (AuditLedger.Params.metadata p) as [[|[k v] rest]|]; reflexivity.
Qed.

Lemma decisions_appended (c : string) (outs : list Output) :
  decisions c outs = filter (fun p => consentId_of p = Some c) (appended outs).
Proof.
  unfold decisions, appended. induction outs as [|o outs IH]; [reflexivity|].
  destruct o as [res|b|p]; cbn [omap list_omap decision_of]; try exact IH.
  rewrite filter_cons, IH. case_bool_decide as Hc.
  - rewrite decide_True by exact Hc. reflexivity.
  - rewrite decide_False by exact Hc. reflexivity.
Qed.

Lemma built_recorded (c : string) (calls : list LedgerFacts.Call) (l : AuditLedger.t) :
  Forall2 carries (recorded c (LedgerFacts.built calls l))
          (filter (fun p => consentId_of p = Some c) calls.*2).
Proof.
  unfold recorded. revert l. induction calls as [|call rest IH]; intros l.
  - constructor.
  - cbn [LedgerFacts.built fmap list_fmap]. rewrite !filter_cons, newEntry_consentId.
    destruct (decide (consentId_of call.2 = Some c)).
    + constructor; [apply newEntry_carries|apply IH].
    + apply IH.
Qed.

(** The entries that the run built for the consent id [c] are the decision
    records handed to [append] for it. *)
Lemma exec_recorded (evs : list Event) (g : t) (c : string) :
  exists calls : list LedgerFacts.Call,
    ledger (exec evs g).1 = (LedgerFacts.run calls (ledger g)).1 /\
    calls.*2 = appended (exec evs g).2 /\
    Forall2 carries (recorded c (LedgerFacts.built calls (ledger g)))
            (decisions c (exec evs g).2) /\
    (AuditLedger.maxEntries (AuditLedger.config (ledger g)) <= 0 \/
     Z.of_nat (length (AuditLedger.entries (ledger g)) + length calls)
     <= AuditLedger.maxEntries (AuditLedger.config (ledger g)) ->
     AuditLedger.entries (ledger (exec evs g).1)
     = (AuditLedger.entries (ledger g) ++ LedgerFacts.built calls (ledger g))%list).
Proof.
  destruct (exec_ledger evs g) as (calls & Hl & Hc).
  exists calls. split; [exact Hl|]. split; [exact Hc|]. split.
  - rewrite decisions_appended, <- Hc. apply built_recorded.
  - intros Hroom. rewrite Hl, LedgerFacts.run_entries.
    + apply LedgerFacts.retain_all.
      rewrite length_app, LedgerFacts.built_length. lia.
    + apply LedgerFacts.retain_all. lia.
Qed.

Lemma resume_ledger (g : t) (h : nat) (env : ResumeEnv) (w : Suspended) (b : bool) :
  suspended g !! h = Some w -> settled w = Some b -> resumed w = false ->
  ledger (resume h env g).1
  = (AuditLedger.append (r_append env) (decision_record (resumed_call (r_now env) w))
                        (ledger g)).1.
Proof.
  intros Hh Hs Hr. unfold resume. rewrite Hh, Hs, Hr. cbv zeta.
  match goal with
  | |- context [AuditLedger.append ?e ?p ?l] =>
      assert (Hp : p = decision_record (resumed_call (r_now env) w))
        by (unfold decision_record, resumed_call, decided; rewrite Hs;
            cbn [set_resumed set_request request settled]; rewrite Hs; reflexivity);
      change l with (ledger g); rewrite Hp;
      destruct (AuditLedger.append e (decision_record (resumed_call (r_now env) w))
                                   (ledger g)) as [l' [e'|]]
  end; reflexivity.
Qed.

(** C3: in every run whose [intercept] calls draw distinct ids, for every
    suspended call with consent id [c]:
    - [c] is in the registry exactly while the request is unclaimed; until
      then its status is [pending] and no decision has been recorded;
    - the first claim fixes the outcome: a response [b] makes it [approved]
      or [rejected] and [handleResponse] returns [true]; the timer makes it
      [timeout];
    - after the claim the other path does nothing: [handleResponse] returns
      [false] and leaves the gate as it is, and the timer callback changes
      nothing but its own armed flag;
    - resuming a settled call hands one record to the ledger, with the
      decided status, and the ledger of the gate afterwards is the ledger
      that [append] leaves for that record;
    - whatever runs afterwards, the settled value and the decided status stay
      as they are, [handleResponse] keeps returning [false], at most one
      decision record for [c] is ever handed to the ledger, and once the call
      has been resumed there is exactly one, carrying the decided status;
    - the ledger of the gate is the given ledger after the [append] calls for
      the records handed over, in order, and nothing else; among the entries
      that these calls built, none carries the id [c] before the call has
      been resumed and exactly one does afterwards, which holds the decision
      record (action, tool, risk, [consentGranted], metadata); whatever runs
      after the resumption builds no further entry for [c]; and as long as
      the ledger does not trim, its entries are the given ones followed by
      the entries built. *)
Theorem consent_resolved_once (cfg : ConsentGateConfig) (ldg : AuditLedger.t)
    (evs more : list Event) :
  NoDup (uuids (evs ++ more)) ->
  let r := exec evs (new cfg ldg) in
  let r2 := exec more r.1 in
  forall h w, suspended r.1 !! h = Some w ->
    let c := id (request w) in
    (pendingRequests r.1 !! c = Some h <-> settled w = None) /\
    (settled w = None ->
       status (request w) = pending /\ decisions c r.2 = [] /\
       (forall b, (handleResponse c b r.1).2 = true /\
          exists w', suspended (handleResponse c b r.1).1 !! h = Some w' /\
                     settled w' = Some b /\
                     decided w' = Some (if b then approved else rejected)) /\
       (exists w', suspended (timerFires h r.1) !! h = Some w' /\
                   settled w' = Some false /\
                   status (request w') = timeout /\ decided w' = Some timeout)) /\
    (settled w <> None ->
       (forall b, handleResponse c b r.1 = (r.1, false)) /\
       (timerFires h r.1 = r.1 \/
        timerFires h r.1
        = set_suspended (<[h:=set_timerArmed false w]> (suspended r.1)) r.1)) /\
    decisions c r.2 = (if resumed w then [decision_record w] else []) /\
    (resumed w = true -> Some (status (request w)) = decided w) /\
    (forall b env, settled w = Some b -> resumed w = false ->
       exists res w',
         (resume h env r.1).2 = [LedgerAppend (decision_record w'); InterceptSettled res] /\
         suspended (resume h env r.1).1 !! h = Some w' /\
         id (request w') = c /\ settled w' = Some b /\
         Some (status (request w')) = decided w /\
         ledger (resume h env r.1).1
         = (AuditLedger.append (r_append env) (decision_record w') (ledger r.1)).1) /\
    (exists w2, suspended r2.1 !! h = Some w2 /\ id (request w2) = c /\
       (length (decisions c (r.2 ++ r2.2)) <= 1)%nat /\
       (forall b, settled w = Some b ->
          settled w2 = Some b /\ decided w2 = decided w /\
          forall b', handleResponse c b' r2.1 = (r2.1, false)) /\
       (resumed w = true ->
          request w2 = request w /\
          decisions c (r.2 ++ r2.2) = [decision_record w])) /\
    (exists calls : list LedgerFacts.Call,
       ledger r.1 = (LedgerFacts.run calls ldg).1 /\
       calls.*2 = appended r.2 /\
       (resumed w = false -> recorded c (LedgerFacts.built calls ldg) = []) /\
       (resumed w = true ->
          exists e, recorded c (LedgerFacts.built calls ldg) = [e] /\
                    carries e (decision_record w)) /\
       (AuditLedger.maxEntries (AuditLedger.config ldg) <= 0 \/
        Z.of_nat (length (AuditLedger.entries ldg) + length calls)
        <= AuditLedger.maxEntries (AuditLedger.config ldg) ->
        AuditLedger.entries (ledger r.1)
        = (AuditLedger.entries ldg ++ LedgerFacts.built calls ldg)%list)) /\
    (exists later : list LedgerFacts.Call,
       ledger r2.1 = (LedgerFacts.run later (ledger r.1)).1 /\
       later.*2 = appended r2.2 /\
       (length (recorded c (LedgerFacts.built later (ledger r.1))) <= 1)%nat /\
       (resumed w = true -> recorded c (LedgerFacts.built later (ledger r.1)) = [])).
Proof.
  intros Hnd r r2 h w Hh c.
  rewrite uuids_app in Hnd. apply NoDup_app in Hnd as (Hnd1 & Hdisj & Hnd2).
  destruct (exec_sound evs (new cfg ldg) [] (new_sound cfg ldg) Hnd1)
    as (Hsound & _ & Hids).
  { intros u _ Hu. inversion Hu. }
  fold r in Hsound, Hids. rewrite app_nil_l in Hsound.
  destruct (exec_sound more r.1 r.2 Hsound Hnd2) as (Hsound2 & Hstable & _).
  { intros u Hu Hin. destruct (Hids u Hin) as [Hnil|Hev]; [inversion Hnil|].
    apply (Hdisj u Hev Hu). }
  fold r2 in Hsound2, Hstable.
  destruct (sound_pending_iff r.1 r.2 h w Hsound Hh) as [Hsome Hnone].
  destruct (wf_ok _ _ _ Hsound h w Hh) as [H1 H2 H3 H4 H5].
  assert (Hlt : (h < length (suspended r.1))%nat) by (eapply lookup_lt_Some; eassumption).
  split; [exact Hsome|]. split; [|split; [|split; [|split; [|split; [|split; [|split]]]]]].
  - intros Hs. destruct (H1 Hs) as (Hp & Hst & Hr & Harm).
    split; [exact Hst|]. split; [fold c in H5; rewrite H5, Hr; reflexivity|]. split.
    + intros b. rewrite (handleResponse_hit r.1 c b h w) by assumption.
      split; [reflexivity|]. exists (set_settled (Some b) w). cbn [fst suspended].
      rewrite list_lookup_insert_eq by exact Hlt. split; [reflexivity|].
      split; [reflexivity|]. unfold decided. cbn. rewrite Hst.
      rewrite bool_decide_eq_false_2 by discriminate. reflexivity.
    + rewrite (timerFires_claim r.1 h w) by assumption.
      exists (timed_out w). cbn [suspended].
      rewrite list_lookup_insert_eq by exact Hlt. repeat split.
  - intros Hs. apply Hnone in Hs. split.
    + intros b. apply handleResponse_miss. exact Hs.
    + destruct (timerArmed w) eqn:Harm.
      * right. apply timerFires_late; assumption.
      * left. apply timerFires_idle. eauto.
  - exact H5.
  - exact H3.
  - intros b env Hb Hr.
    pose proof (resume_ledger r.1 h env w b Hh Hb Hr) as Hledger.
    destruct (resume_run r.1 h env w b Hh Hb Hr) as (ldg' & res & Hrun).
    rewrite Hrun in Hledger |- *.
    destruct (decided_resumed_call (r_now env) w) as (Hd & Hs' & Hid & Hst).
    exists res, (resumed_call (r_now env) w). cbn [fst snd suspended].
    rewrite list_lookup_insert_eq by exact Hlt.
    split; [reflexivity|]. split; [reflexivity|]. split; [exact Hid|].
    split; [congruence|]. split.
    + unfold decided in Hst |- *. rewrite Hb in Hst |- *.
      f_equal. apply Hst. reflexivity.
    + exact Hledger.
  - destruct (Hstable h w Hh) as (w2 & Hh2 & Hid2 & Hs2 & Hr2).
    destruct (wf_ok _ _ _ Hsound2 h w2 Hh2) as [_ _ _ _ H5'].
    rewrite Hid2 in H5'. fold c in H5'.
    exists w2. split; [exact Hh2|]. split; [exact Hid2|]. split; [|split].
    + rewrite H5'. destruct (resumed w2); simpl; lia.
    + intros b Hb. destruct (Hs2 b Hb) as [Hb2 Hd2].
      split; [exact Hb2|]. split; [exact Hd2|].
      intros b'. apply handleResponse_miss.
      destruct (sound_pending_iff r2.1 _ h w2 Hsound2 Hh2) as [_ Hnone2].
      rewrite Hid2 in Hnone2. apply Hnone2. congruence.
    + intros Hr. destruct (Hr2 Hr) as (Hreq & Hset & Hres).
      split; [exact Hreq|]. rewrite H5', Hres. f_equal.
      apply decision_record_ext; assumption.
  - destruct (exec_recorded evs (new cfg ldg) c) as (calls & Hl & Hc & Hrec & Hent).
    fold r in Hl, Hc, Hrec, Hent. cbn [ledger new] in Hl, Hrec, Hent.
    fold c in H5. rewrite H5 in Hrec.
    exists calls. split; [exact Hl|]. split; [exact Hc|].
    split; [|split; [|exact Hent]].
    + intros Hr. rewrite Hr in Hrec. inversion Hrec. reflexivity.
    + intros Hr. rewrite Hr in Hrec.
      inversion Hrec as [|e p es ps Hcar Hrest]; subst. inversion Hrest; subst.
      exists e. split; [reflexivity|exact Hcar].
  - destruct (exec_recorded more r.1 c) as (later & Hl & Hc & Hrec & _).
    fold r2 in Hl, Hc, Hrec.
    destruct (Hstable h w Hh) as (w2 & Hh2 & Hid2 & Hs2 & Hr2).
    destruct (wf_ok _ _ _ Hsound2 h w2 Hh2) as [_ _ _ _ H5'].
    rewrite Hid2 in H5'. fold c in H5, H5'. rewrite decisions_app, H5 in H5'.
    exists later. split; [exact Hl|]. split; [exact Hc|]. split.
    + rewrite (Forall2_length _ _ _ Hrec).
      apply (f_equal length) in H5'. rewrite length_app in H5'.
      destruct (resumed w2), (resumed w); simpl in H5'; lia.
    + intros Hr. rewrite Hr in H5'. destruct (Hr2 Hr) as (_ & _ & Hres).
      rewrite Hres in H5'. apply (f_equal length) in H5'.
      rewrite length_app in H5'. simpl in H5'.
      destruct (decisions c r2.2) as [|p ps]; [|simpl in H5'; lia].
      inversion Hrec. reflexivity.
Qed.

(** A run in which the response arrives before the timer: [exec] is
    intercepted, approved, the timer fires, the call is resumed; afterwards a
    second response and the timer are tried again. *)
Definition scenario_consent_id : string := "c0000000-0000-4000-8000-000000000001".

Definition scenario_event : ToolCallEvent :=
  {| ev_toolName := "exec"; ev_args := [("cmd", Json.Str "rm -rf /")];
     ev_sessionId := "test"; ev_timestamp := "2024-01-01T00:00:00.000Z" |}.

Definition scenario_run : list Event :=
  [ Intercept scenario_event
      {| i_uuid := scenario_consent_id; i_now := "2024-01-01T00:00:00.001Z";
         i_sendOk := true |};
    HandleResponse scenario_consent_id true;
    TimerFires 0;
    Resume 0 {| r_now := "2024-01-01T00:00:00.050Z";
                r_append := LedgerFacts.scenario_env "1" true |} ].

Definition scenario_more : list Event :=
  [ HandleResponse scenario_consent_id false; TimerFires 0 ].

Definition scenario_gate : t :=
  new gate_config (LedgerFacts.scenario_new 100).

Definition scenario_call : Suspended :=
  {| request :=
       {| id := scenario_consent_id; toolName := "exec";
          toolArgs := [("cmd", Json.Str "rm -rf /")]; riskLevel := critical;
          reason := "Tool " +:+ Json.dquote +:+ "exec" +:+ Json.dquote
                    +:+ " classified as critical risk";
          status := approved; createdAt := "2024-01-01T00:00:00.001Z";
          resolvedAt := Some "2024-01-01T00:00:00.050Z" |};
     settled := Some true; timerArmed := false; resumed := true |}.

Lemma scenario_call_lookup :
  suspended (exec scenario_run scenario_gate).1 !! 0%nat = Some scenario_call.
Proof. vm_compute. reflexivity. Qed.

Lemma consent_resolved_once_witness :
  let r := exec scenario_run scenario_gate in
  let r2 := exec scenario_more r.1 in
  handleResponse scenario_consent_id false r.1 = (r.1, false) /\
  decisions scenario_consent_id r.2 = [decision_record scenario_call] /\
  decisions scenario_consent_id (r.2 ++ r2.2) = [decision_record scenario_call] /\
  AuditLedger.Params.action (decision_record scenario_call) = "consent_approved" /\
  handleResponse scenario_consent_id true r2.1 = (r2.1, false) /\
  (exists calls e,
     ledger r.1 = (LedgerFacts.run calls (LedgerFacts.scenario_new 100)).1 /\
     recorded (id (request scenario_call))
              (LedgerFacts.built calls (LedgerFacts.scenario_new 100)) = [e] /\
     carries e (decision_record scenario_call)).
Proof.
  intros r r2.
  assert (Hnd : NoDup (uuids (scenario_run ++ scenario_more))).
  { apply (bool_decide_unpack _). vm_compute. exact I. }
  destruct (consent_resolved_once gate_config (LedgerFacts.scenario_new 100)
              scenario_run scenario_more Hnd 0%nat scenario_call scenario_call_lookup)
    as (_ & _ & Hlate & Hdec & _ & _ & (w2 & _ & _ & _ & Hkeep & Hone)
        & (calls & Hledger & _ & _ & Hrec & _) & _).
  destruct (Hlate ltac:(discriminate)) as [Hfalse _].
  destruct (Hkeep true eq_refl) as (_ & _ & Hfalse2).
  destruct (Hone eq_refl) as [_ Hone'].
  split; [exact (Hfalse false)|]. split; [exact Hdec|]. split; [exact Hone'|].
  split; [reflexivity|]. split; [exact (Hfalse2 true)|].
  destruct (Hrec eq_refl) as (e & He & Hcar).
  exists calls, e. split; [exact Hledger|]. split; [exact He|exact Hcar].
Defined.

End GateFacts.

(* ================================================================== *)
(** * Further properties of the audit ledger                           *)
(* ================================================================== *)

Module LedgerExtras.
Import AuditLedger LedgerFacts.
Local Open Scope Z_scope.

(** ** Persistence: [saveChain], [loadChain] and the constructor *)

(** What [saveChain] writes for the ledger [l] at time [at_]. *)
Definition snapshot (l : t) (at_ : string) : SavedChain :=
  {| saved_entries := entries l; saved_sequence := sequence l;
     saved_lastHash := lastHash l; savedAt := at_ |}.

(** A new process on the files that [l] left behind: the key file holds the
    key of [l], the chain file is as [l] wrote it last. *)
Definition restart (random : list Z) (l : t) : t :=
  new (config l) (gatewayUrl l) (gatewayKey l) (Some (secret l)) random (file l).

Lemma append_ok_file (env : AppendEnv) (params : Params.t) (l : t) :
  writeOk env = true ->
  file (append env params l).1
  = Some (Saved (snapshot (append env params l).1 (saveTime env))).
Proof.
  intros Hw. rewrite append_state, Hw. cbv zeta.
  destruct (forwardToGateway (config l) && truthy (gatewayUrl l)); reflexivity.
Qed.

Lemma append_fail_file (env : AppendEnv) (params : Params.t) (l : t) :
  writeOk env = false ->
  file (append env params l).1 = if writeCut env then Some Corrupted else file l.
Proof. intros Hw. rewrite append_state, Hw. destruct (writeCut env); reflexivity. Qed.

Lemma run_fail_file (calls : list Call) (l : t) :
  Forall (fun c : Call => writeOk c.1 = false) calls ->
  file (run calls l).1
  = if existsb (fun c : Call => writeCut c.1) calls then Some Corrupted else file l.
Proof.
  revert l. induction calls as [|c rest IH]; intros l Hf; [reflexivity|].
  inversion Hf as [|? ? Hc Hrest]; subst. cbn [run fst existsb].
  rewrite IH, append_fail_file by assumption.
  destruct (writeCut c.1), (existsb _ rest); reflexivity.
Qed.

Lemma existsb_none (calls : list Call) :
  Forall (fun c : Call => writeCut c.1 = false) calls ->
  existsb (fun c : Call => writeCut c.1) calls = false.
Proof. induction 1 as [|c rest Hc _ IH]; simpl; [reflexivity|]. rewrite Hc, IH. reflexivity. Qed.

Lemma existsb_some (calls : list Call) :
  Exists (fun c : Call => writeCut c.1 = true) calls ->
  existsb (fun c : Call => writeCut c.1) calls = true.
Proof.
  induction 1 as [c rest Hc|c rest _ IH]; simpl.
  - rewrite Hc. reflexivity.
  - rewrite IH. apply orb_true_r.
Qed.

Lemma append_gateway (env : AppendEnv) (params : Params.t) (l : t) :
  gatewayUrl (append env params l).1 = gatewayUrl l /\
  gatewayKey (append env params l).1 = gatewayKey l.
Proof.
  rewrite append_state.
  destruct (writeOk env); [destruct (_ && _)|destruct (writeCut env)]; split; reflexivity.
Qed.

Lemma run_gateway (calls : list Call) (l : t) :
  gatewayUrl (run calls l).1 = gatewayUrl l /\ gatewayKey (run calls l).1 = gatewayKey l.
Proof.
  revert l. induction calls as [|c rest IH]; intros l; simpl; [auto|].
  destruct (IH (append c.1 c.2 l).1) as [-> ->]. apply append_gateway.
Qed.

Lemma append_outcome_ext (env : AppendEnv) (params : Params.t) (l l' : t) :
  sequence l = sequence l' -> lastHash l = lastHash l' -> secret l = secret l' ->
  (append env params l).2 = (append env params l').2.
Proof.
  intros Hs Hh Hk. rewrite !append_outcome.
  rewrite (newEntry_ext env params l l') by assumption. reflexivity.
Qed.

(** X1: what a restart finds after failed writes.  After an [append]
    whose write succeeded, followed by any number of appends whose writes
    failed, a ledger constructed on the same files has the key of the old
    one.  If every failed write left the file as it was, the new ledger has
    the entries, the sequence counter and the [lastHash] of the moment of the
    successful write, verifies as the ledger did then, and its next [append]
    returns what that ledger would have returned (so the numbers of the
    unpersisted entries are used again).  If one of the failed writes had
    already opened the file, the file is empty or cut short, and the new
    ledger starts an empty chain: the entries that had been persisted are
    lost as well. *)
Theorem restart_restores_last_save (env : AppendEnv) (params : Params.t) (l : t)
    (unsaved : list Call) (random : list Z) :
  writeOk env = true ->
  Forall (fun c : Call => writeOk c.1 = false) unsaved ->
  let saved := (append env params l).1 in
  let reloaded := restart random (run unsaved saved).1 in
  secret reloaded = secret saved /\
  (Forall (fun c : Call => writeCut c.1 = false) unsaved ->
   entries reloaded = entries saved /\
   sequence reloaded = sequence saved /\
   lastHash reloaded = lastHash saved /\
   verify reloaded = verify saved /\
   (forall env' params',
      (append env' params' reloaded).2 = (append env' params' saved).2)) /\
  (Exists (fun c : Call => writeCut c.1 = true) unsaved ->
   entries reloaded = [] /\
   sequence reloaded = 0 /\
   lastHash reloaded = GENESIS_HASH /\
   verify reloaded = intact 0).
Proof.
  intros Hw Hfail saved reloaded.
  pose proof (run_fail_file unsaved saved Hfail) as Hfile.
  assert (Hk : secret reloaded = secret saved).
  { unfold reloaded, restart, new, loadChain. cbn [file].
    destruct (file (run unsaved saved).1) as [[|data]|]; cbn; apply run_secret. }
  split; [exact Hk|]. split.
  - intros Hkept. rewrite (existsb_none _ Hkept) in Hfile.
    unfold saved in Hfile at 2. rewrite (append_ok_file env params l Hw) in Hfile.
    fold saved in Hfile.
    assert (He : entries reloaded = entries saved).
    { unfold reloaded, restart, new, loadChain. cbn [file]. rewrite Hfile. reflexivity. }
    assert (Hs : sequence reloaded = sequence saved).
    { unfold reloaded, restart, new, loadChain. cbn [file]. rewrite Hfile. reflexivity. }
    assert (Hh : lastHash reloaded = lastHash saved).
    { unfold reloaded, restart, new, loadChain. cbn [file]. rewrite Hfile. reflexivity. }
    repeat split; try assumption.
    + rewrite !verify_eq_loop, He, Hk. reflexivity.
    + intros env' params'. apply append_outcome_ext; assumption.
  - intros Hcut. rewrite (existsb_some _ Hcut) in Hfile.
    unfold reloaded, restart, new, loadChain. cbn [file]. rewrite Hfile.
    repeat split.
Qed.

Lemma restart_restores_last_save_witness :
  let saved := (append (scenario_env "1" true) (scenario_params "test1")
                       (scenario_new 100)).1 in
  let crashed := (run [(scenario_env "2" false, scenario_params "test2")] saved).1 in
  let cut := (run [({| uuid := "00000000-0000-4000-8000-000000000002";
                       now := "2024-01-01T00:00:00.002Z";
                       saveTime := "2024-01-01T00:00:00.102Z";
                       writeOk := false; writeCut := true |},
                    scenario_params "test2")] saved).1 in
  sequence crashed = 2 /\
  sequence (restart scenario_key crashed) = 1 /\
  entries (restart scenario_key crashed) = [scenario_entry1] /\
  entries (restart scenario_key cut) = [] /\
  sequence (restart scenario_key cut) = 0.
Proof.
  intros saved crashed cut.
  destruct (restart_restores_last_save (scenario_env "1" true) (scenario_params "test1")
              (scenario_new 100) [(scenario_env "2" false, scenario_params "test2")]
              scenario_key eq_refl)
    as (_ & Hkept & _).
  { repeat constructor. }
  destruct Hkept as (He & Hs & _).
  { repeat constructor. }
  destruct (restart_restores_last_save (scenario_env "1" true) (scenario_params "test1")
              (scenario_new 100)
              [({| uuid := "00000000-0000-4000-8000-000000000002";
                   now := "2024-01-01T00:00:00.002Z";
                   saveTime := "2024-01-01T00:00:00.102Z";
                   writeOk := false; writeCut := true |},
                scenario_params "test2")]
              scenario_key eq_refl)
    as (_ & _ & Hcut).
  { repeat constructor. }
  destruct Hcut as (He0 & Hs0 & _).
  { left. reflexivity. }
  split; [vm_compute; reflexivity|]. split; [|split; [|split]].
  - fold saved crashed in Hs. rewrite Hs. vm_compute. reflexivity.
  - fold saved crashed in He. rewrite He. vm_compute. reflexivity.
  - exact He0.
  - exact Hs0.
Defined.

(** X2: the constructor does not fail on a chain file that cannot be
    parsed: the ledger starts empty and verifies, and its first successful
    [append] numbers the entry 1, links it to the genesis sentinel and
    replaces the content of the file by that single entry. *)
Theorem unreadable_file_starts_empty (cfg : AuditLedgerConfig) (url key : option string)
    (keyFile : option (list Z)) (random : list Z) (env : AppendEnv) (params : Params.t) :
  let l := new cfg url key keyFile random (Some Corrupted) in
  entries l = [] /\ verify l = intact 0 /\
  (writeOk env = true ->
   exists e,
     (append env params l).2 = Returned e /\
     AuditEntry.sequence e = 1 /\ AuditEntry.prevHash e = GENESIS_HASH /\
     file (append env params l).1
     = Some (Saved {| saved_entries := [e]; saved_sequence := 1;
                      saved_lastHash := AuditEntry.hash e;
                      savedAt := saveTime env |})).
Proof.
  intros l. split; [reflexivity|]. split; [reflexivity|].
  intros Hw. exists (newEntry env params l).
  split; [rewrite append_outcome, Hw; reflexivity|].
  split; [reflexivity|]. split; [reflexivity|].
  rewrite append_ok_file by exact Hw. unfold snapshot.
  destruct (append_pushed env params l) as (He & _ & Hh & Hs & _).
  rewrite He, Hh, Hs. unfold pushed. cbn [entries].
  assert (Hr : retain (maxEntries (config l)) (entries l ++ [newEntry env params l])
               = [newEntry env params l]).
  { change (entries l) with (@nil AuditEntry.t). cbn [app]. unfold retain.
    destruct (Z.ltb_spec 0 (maxEntries (config l))); [|reflexivity].
    cbn [length]. replace (1 - Z.to_nat (maxEntries (config l)))%nat with 0%nat by lia.
    reflexivity. }
  rewrite Hr. reflexivity.
Qed.

Lemma unreadable_file_starts_empty_witness :
  exists e,
    (append (scenario_env "1" true) (scenario_params "test1")
            (new (scenario_config 100) None None None scenario_key (Some Corrupted))).2
    = Returned e /\ AuditEntry.sequence e = 1.
Proof.
  destruct (proj2 (proj2 (unreadable_file_starts_empty (scenario_config 100) None None
                            None scenario_key (scenario_env "1" true)
                            (scenario_params "test1"))) eq_refl)
    as (e & He & Hs & _).
  exists e. split; [exact He|exact Hs].
Defined.

(** ** More on [verify] *)

(** X3: when the key file is lost, the constructor draws a new key and
    [verify()] on the reloaded chain reports a signature mismatch at the
    first entry (if the new key signs that entry differently). *)
Theorem lost_key_fails_first_signature (l : t) (url key : option string)
    (random : list Z) (at_ : string) (e : AuditEntry.t) (rest : list AuditEntry.t) :
  valid (verify l) = true ->
  entries l = e :: rest ->
  computeSignature random e <> computeSignature (secret l) e ->
  verify (new (config l) url key None random (Some (Saved (snapshot l at_))))
  = broken (Z.of_nat (length (entries l))) e "Signature mismatch at sequence ".
Proof.
  intros Hv He Hne.
  rewrite verify_eq_loop in Hv. apply verify_loop_valid in Hv.
  rewrite He in Hv. destruct Hv as [(Hp & Hh & Hs) _].
  rewrite verify_eq_loop. unfold new, loadChain, snapshot. cbn. rewrite He.
  apply verify_loop_step_signature; try assumption.
  rewrite Hs. intros Heq. apply Hne. symmetry. exact Heq.
Qed.

Lemma lost_key_fails_first_signature_witness :
  verify (new (config (scenario_ledger 100)) None None None
              (Sha256.octets_of_string "another key")
              (Some (Saved (snapshot (scenario_ledger 100) "later"))))
  = broken (Z.of_nat (length (entries (scenario_ledger 100)))) scenario_entry1
           "Signature mismatch at sequence ".
Proof.
  apply (lost_key_fails_first_signature (scenario_ledger 100) None None
           (Sha256.octets_of_string "another key") "later"
           scenario_entry1 [scenario_entry2] scenario_valid scenario_entries).
  apply String.eqb_neq. vm_compute. reflexivity.
Defined.

(** X4: on a ledger that verifies, overwriting the stored signature of an
    entry with any other string is reported as a signature mismatch at that
    entry, and overwriting its stored hash with any other string as a content
    mismatch at that entry; neither needs an assumption on the hash
    functions. *)
Theorem overwritten_signature_or_hash_detected (l : t) (i : nat) (e : AuditEntry.t)
    (s : string) :
  valid (verify l) = true ->
  entries l !! i = Some e ->
  let N := Z.of_nat (length (entries l)) in
  (s <> AuditEntry.signature e ->
   verify (tamper i (AuditEntry.set_signature s) l)
   = broken N e "Signature mismatch at sequence ") /\
  (s <> AuditEntry.hash e ->
   verify (tamper i (AuditEntry.set_hash s) l)
   = broken N e "Content hash mismatch at sequence ").
Proof.
  intros Hv Hi N.
  rewrite verify_eq_loop in Hv. apply verify_loop_valid in Hv.
  destruct (chain_lookup _ _ _ i e Hv Hi) as [Hh Hs].
  split; intros Hne; rewrite verify_eq_loop; unfold tamper;
    cbn [entries secret set_entries]; rewrite length_alter; fold N;
    rewrite (verify_loop_alter _ _ _ _ i e) by assumption.
  - rewrite verify_loop_step_signature; [reflexivity|reflexivity|exact Hh|].
    change (s <> computeSignature (secret l) e). rewrite <- Hs. exact Hne.
  - rewrite verify_loop_step_content; [reflexivity|reflexivity|].
    change (s <> computeHash e). rewrite <- Hh. exact Hne.
Qed.

Lemma overwritten_signature_or_hash_detected_witness :
  valid (verify (tamper 1 (AuditEntry.set_signature "00") (scenario_ledger 100))) = false /\
  valid (verify (tamper 0 (AuditEntry.set_hash "00") (scenario_ledger 100))) = false.
Proof.
  destruct (overwritten_signature_or_hash_detected (scenario_ledger 100) 1
              scenario_entry2 "00" scenario_valid) as [Hs _].
  { rewrite scenario_entries. reflexivity. }
  destruct (overwritten_signature_or_hash_detected (scenario_ledger 100) 0
              scenario_entry1 "00" scenario_valid) as [_ Hh].
  { rewrite scenario_entries. reflexivity. }
  rewrite Hs, Hh.
  - split; reflexivity.
  - apply String.eqb_neq. vm_compute. reflexivity.
  - apply String.eqb_neq. vm_compute. reflexivity.
Defined.

Lemma chain_take (key : list Z) (h : string) (es : list AuditEntry.t) (k : nat) :
  chain key h es -> chain key h (take k es).
Proof.
  intros Hc. rewrite <- (take_drop k es) in Hc. apply chain_app in Hc. apply Hc.
Qed.

(** X5: [verify()] does not notice that the newest entries are missing: on
    a ledger that verifies, removing any number of entries from the end
    leaves a ledger that verifies; the result only counts fewer entries. *)
Theorem truncated_tail_still_verifies (l : t) (k : nat) :
  valid (verify l) = true ->
  verify (set_entries (take k (entries l)) l)
  = intact (Z.of_nat (Nat.min k (length (entries l)))).
Proof.
  intros Hv. rewrite verify_eq_loop in Hv. apply verify_loop_valid in Hv.
  rewrite verify_eq_loop. cbn [entries secret set_entries]. rewrite length_take.
  apply verify_loop_chain, chain_take. exact Hv.
Qed.

Lemma truncated_tail_still_verifies_witness :
  verify (set_entries (take 1 (entries (scenario_ledger 100))) (scenario_ledger 100))
  = intact 1.
Proof. apply (truncated_tail_still_verifies (scenario_ledger 100) 1 scenario_valid). Defined.

(** ** Trimming and [verify] *)

Lemma tip_take (h : string) (es : list AuditEntry.t) (k : nat) (e : AuditEntry.t) :
  es !! k = Some e -> tip h (take (S k) es) = AuditEntry.hash e.
Proof.
  intros Hk. rewrite (take_S_r es k e Hk), tip_app. reflexivity.
Qed.

Lemma chain_drop (key : list Z) (h : string) (es : list AuditEntry.t) (k : nat) :
  chain key h es -> chain key (tip h (take k es)) (drop k es).
Proof.
  intros Hc. rewrite <- (take_drop k es) in Hc. apply chain_app in Hc. apply Hc.
Qed.

Lemma built_lookup_sequence (calls : list Call) (l : t) (i : nat) (e : AuditEntry.t) :
  built calls l !! i = Some e -> AuditEntry.sequence e = sequence l + Z.of_nat (S i).
Proof.
  intros Hi.
  assert (Hlt : (i < length calls)%nat).
  { rewrite <- (built_length calls l). eapply lookup_lt_Some. exact Hi. }
  pose proof (built_sequence calls l) as Hs.
  apply (f_equal (fun x => x !! i)) in Hs.
  change (map AuditEntry.sequence (built calls l))
    with (AuditEntry.sequence <$> built calls l) in Hs.
  change (map (fun i => sequence l + Z.of_nat i) (seq 1 (length calls)))
    with ((fun i => sequence l + Z.of_nat i) <$> seq 1 (length calls)) in Hs.
  rewrite !list_lookup_fmap, Hi, lookup_seq_lt in Hs by exact Hlt.
  injection Hs as ->. reflexivity.
Qed.

(** X6: once a fresh ledger has trimmed (a limit [K > 0] and more than [K]
    appends), the oldest retained entry is number [N - K + 1] and its
    [prevHash] is the hash of the entry evicted last; the retained entries
    still pass every check of [verify()] when the walk starts from that hash;
    but [verify()] starts from the genesis hash, and so (unless the evicted
    entry hashes to 64 zeros) reports a prevHash mismatch at the oldest
    retained entry, with [totalEntries = K]. *)
Theorem trimmed_ledger_fails_at_oldest (cfg : AuditLedgerConfig) (url key : option string)
    (keyFile : option (list Z)) (random : list Z) (calls : list Call) :
  let K := Z.to_nat (maxEntries cfg) in
  let N := length calls in
  0 < maxEntries cfg -> maxEntries cfg < Z.of_nat N ->
  let l := (run calls (new cfg url key keyFile random None)).1 in
  let u := (run calls (new (unlimited cfg) url key keyFile random None)).1 in
  exists evicted oldest rest,
    entries u !! (N - K - 1)%nat = Some evicted /\
    entries l = oldest :: rest /\
    AuditEntry.sequence oldest = Z.of_nat (N - K + 1) /\
    AuditEntry.prevHash oldest = AuditEntry.hash evicted /\
    chain (secret l) (AuditEntry.hash evicted) (entries l) /\
    (AuditEntry.hash evicted <> GENESIS_HASH ->
     verify l = broken (Z.of_nat K) oldest "prevHash mismatch at sequence ").
Proof.
  intros K N HK HN l u.
  set (l0 := new cfg url key keyFile random None).
  set (all := built calls l0).
  assert (Hall : length all = N) by apply built_length.
  assert (Hu : entries u = all).
  { unfold u. rewrite run_fresh_entries, built_unlimited. reflexivity. }
  assert (Hl : entries l = drop (S (N - K - 1)) all).
  { unfold l. rewrite run_fresh_entries. fold l0 all. unfold retain.
    destruct (Z.ltb_spec 0 (maxEntries cfg)); [|lia].
    rewrite Hall. f_equal. lia. }
  destruct (lookup_lt_is_Some_2 all (N - K - 1)) as [evicted Hev]; [lia|].
  destruct (lookup_lt_is_Some_2 all (S (N - K - 1))) as [oldest Hold]; [lia|].
  assert (Hc : chain (secret l) (AuditEntry.hash evicted) (entries l)).
  { rewrite Hl, <- (tip_take GENESIS_HASH all _ evicted Hev).
    apply chain_drop. unfold l. rewrite run_secret. apply (built_chain calls l0). }
  rewrite Hl in Hc |- *. rewrite (drop_S all oldest _ Hold) in Hc |- *.
  exists evicted, oldest, (drop (S (S (N - K - 1))) all).
  split; [rewrite Hu; exact Hev|]. split; [reflexivity|].
  split; [|split; [apply Hc|split; [exact Hc|]]].
  - rewrite (built_lookup_sequence calls l0 _ oldest Hold). cbn [sequence l0 new loadChain].
    change (sequence l0) with 0. lia.
  - intros Hne. rewrite verify_eq_loop, Hl, (drop_S all oldest _ Hold).
    rewrite <- (drop_S all oldest _ Hold), length_drop, Hall.
    replace (N - S (N - K - 1))%nat with K by lia.
    rewrite (drop_S all oldest _ Hold).
    apply verify_loop_step_linkage.
    destruct Hc as [(-> & _) _]. exact Hne.
Qed.

Lemma trimmed_ledger_fails_at_oldest_witness :
  exists evicted oldest rest,
    entries (run scenario_calls
               (new (unlimited (scenario_config 1)) None None None scenario_key None)).1
      !! (length scenario_calls - Z.to_nat (maxEntries (scenario_config 1)) - 1)%nat
    = Some evicted /\
    entries (run scenario_calls
               (new (scenario_config 1) None None None scenario_key None)).1
    = oldest :: rest /\
    AuditEntry.sequence oldest = 2 /\
    verify (run scenario_calls
              (new (scenario_config 1) None None None scenario_key None)).1
    = broken 1 oldest "prevHash mismatch at sequence ".
Proof.
  destruct (trimmed_ledger_fails_at_oldest (scenario_config 1) None None None
              scenario_key scenario_calls)
    as (evicted & oldest & rest & Hev & Hl & Hs & _ & _ & Hv).
  - reflexivity.
  - reflexivity.
  - exists evicted, oldest, rest.
    split; [exact Hev|]. split; [exact Hl|]. split; [exact Hs|].
    apply Hv. apply String.eqb_neq.
    assert (He : evicted = scenario_entry1).
    { vm_compute in Hev. injection Hev as <-. vm_compute. reflexivity. }
    rewrite He. vm_compute. reflexivity.
Defined.

(** ** Forwarding to the gateway *)

Definition returned_entry (r : outcome AuditEntry.t) : option AuditEntry.t :=
  match r with
  | Returned e => Some e
  | Thrown => None
  end.

Lemma append_forwarded (env : AppendEnv) (params : Params.t) (l : t) :
  forwarded (append env params l).1
  = (forwarded l
     ++ (if forwardToGateway (config l) && truthy (gatewayUrl l)
         then omap returned_entry [(append env params l).2] else []))%list.
Proof.
  rewrite append_outcome, append_state. cbv zeta.
  destruct (writeOk env); try destruct (writeCut env);
    cbn [forwarded pushed set_entries set_lastHash set_sequence];
    destruct (forwardToGateway (config l) && truthy (gatewayUrl l));
    cbn; rewrite ?app_nil_r; reflexivity.
Qed.

(** X7: the entries handed to [forwardEntry] over any sequence of [append]
    calls are, when [forwardToGateway] is set and [gatewayUrl] is a non-empty
    string, exactly the entries the calls returned, in call order (a call
    that throws on the write forwards nothing); otherwise nothing is ever
    forwarded. *)
Theorem forwarded_are_the_returned_entries (calls : list Call) (l : t) :
  forwarded (run calls l).1
  = (forwarded l
     ++ (if forwardToGateway (config l) && truthy (gatewayUrl l)
         then omap returned_entry (run calls l).2 else []))%list.
Proof.
  revert l. induction calls as [|c rest IH]; intros l.
  - simpl. destruct (_ && _); rewrite app_nil_r; reflexivity.
  - change (run (c :: rest) l).1 with (run rest (append c.1 c.2 l).1).1.
    change (run (c :: rest) l).2
      with ((append c.1 c.2 l).2 :: (run rest (append c.1 c.2 l).1).2).
    rewrite IH, append_forwarded.
    destruct (append_pushed c.1 c.2 l) as (_ & _ & _ & _ & ->).
    rewrite (proj1 (append_gateway c.1 c.2 l)).
    destruct (forwardToGateway (config l) && truthy (gatewayUrl l)).
    + rewrite <- app_assoc. f_equal.
      destruct (append c.1 c.2 l).2; reflexivity.
    + rewrite !app_nil_r. reflexivity.
Qed.

(** ** [stats] *)

Lemma built_timestamp (calls : list Call) (l : t) :
  AuditEntry.timestamp <$> built calls l = (fun c : Call => now c.1) <$> calls.
Proof.
  revert l. induction calls as [|c rest IH]; intros l; [reflexivity|].
  cbn [built fmap list_fmap]. f_equal. apply IH.
Qed.

(** X8: [stats()] after a run of [append] calls on a fresh ledger:
    [totalEntries] counts the retained entries, [earliest] is the time of
    the call that built the oldest retained entry (call number
    [N - retained + 1]), [latest] is the time of the last call, both are
    undefined when nothing was appended, and [chainValid] is true whenever
    nothing was trimmed. *)
Theorem stats_of_fresh_run (cfg : AuditLedgerConfig) (url key : option string)
    (keyFile : option (list Z)) (random : list Z) (calls : list Call) :
  let l := (run calls (new cfg url key keyFile random None)).1 in
  let N := length calls in
  let kept := length (entries l) in
  Stats.totalEntries (stats l) = Z.of_nat kept /\
  Stats.earliest (stats l) = (fun c : Call => now c.1) <$> calls !! (N - kept)%nat /\
  Stats.latest (stats l) = (fun c : Call => now c.1) <$> last calls /\
  (maxEntries cfg <= 0 \/ Z.of_nat N <= maxEntries cfg ->
   Stats.chainValid (stats l) = true).
Proof.
  intros l N kept.
  set (l0 := new cfg url key keyFile random None).
  set (all := built calls l0).
  assert (Hall : length all = N) by apply built_length.
  assert (He : entries l = retain (maxEntries cfg) all) by apply run_fresh_entries.
  assert (Hd : entries l = drop (N - kept) all).
  { unfold kept. rewrite He at 1. rewrite He, <- Hall. apply retain_drop. }
  assert (Hk : (kept <= N)%nat /\ (N = 0 \/ 1 <= kept)%nat).
  { unfold kept. rewrite He, retain_length, Hall.
    destruct (Z.ltb_spec 0 (maxEntries cfg)); lia. }
  assert (Ht : forall i, AuditEntry.timestamp <$> all !! i
                         = (fun c : Call => now c.1) <$> calls !! i).
  { intros i. rewrite <- !list_lookup_fmap. unfold all. rewrite built_timestamp.
    reflexivity. }
  split; [reflexivity|]. split; [|split].
  - unfold stats. cbn [Stats.earliest]. rewrite Hd, head_lookup, lookup_drop, Nat.add_0_r.
    apply Ht.
  - unfold stats. cbn [Stats.latest].
    rewrite Hd, !last_lookup, lookup_drop, length_drop, Hall, Ht. fold N.
    f_equal. f_equal. lia.
  - intros Hno. unfold stats. cbn [Stats.chainValid].
    rewrite verify_eq_loop, He, retain_all by (rewrite Hall; exact Hno).
    rewrite verify_loop_chain; [reflexivity|].
    unfold l. rewrite run_secret. apply (built_chain calls l0).
Qed.

Lemma stats_of_fresh_run_witness :
  Stats.chainValid
    (stats (run scenario_calls (new (scenario_config 100) None None None scenario_key None)).1)
  = true.
Proof.
  apply (proj2 (proj2 (proj2 (stats_of_fresh_run (scenario_config 100) None None None
                                scenario_key scenario_calls)))).
  right. simpl. lia.
Defined.

(** ** [getRecent] outside its intended range *)

(** X9: [getRecent()] without an argument returns the last 50 retained
    entries (all of them when there are fewer); with a negative argument
    [n] it returns the entries from index [|n|] on, that is, it drops the
    [|n|] oldest entries instead of selecting recent ones; and whatever the
    argument, the result is a suffix of the retained entries. *)
Theorem getRecent_default_and_negative (l : t) :
  getRecent None l = drop (length (entries l) - 50) (entries l) /\
  (forall n, n < 0 -> getRecent (Some n) l = drop (Z.to_nat (- n)) (entries l)) /\
  (forall n, exists older, entries l = (older ++ getRecent n l)%list).
Proof.
  split; [|split].
  - unfold getRecent. cbn [default]. change (- 50) with (- (50)).
    rewrite slice_from_neg by lia. reflexivity.
  - intros n Hn. unfold getRecent, slice_from.
    change (default 50 (Some n)) with n. cbv zeta.
    destruct (Z.ltb_spec (- n) 0) as [?|_]; [lia|].
    destruct (Z.min_spec (- n) (Z.of_nat (length (entries l)))) as [[_ ->]|[Hle ->]].
    + reflexivity.
    + rewrite Nat2Z.id, drop_all. symmetry. apply drop_ge. lia.
  - intros n. unfold getRecent, slice_from.
    eexists. symmetry. apply take_drop.
Qed.

Lemma getRecent_default_and_negative_witness :
  getRecent (Some (-1)) (scenario_ledger 100) = [scenario_entry2] /\
  getRecent (Some (-2)) (scenario_ledger 100) = [].
Proof.
  split.
  - rewrite (proj1 (proj2 (getRecent_default_and_negative (scenario_ledger 100)))
               (-1) ltac:(lia)).
    rewrite scenario_entries. reflexivity.
  - rewrite (proj1 (proj2 (getRecent_default_and_negative (scenario_ledger 100)))
               (-2) ltac:(lia)).
    rewrite scenario_entries. reflexivity.
Defined.

(** ** [append] on a ledger that was not built in this process *)

Lemma tip_last (h : string) (es : list AuditEntry.t) :
  tip h es = default h (AuditEntry.hash <$> last es).
Proof.
  destruct es as [|x es] using rev_ind; [reflexivity|].
  rewrite tip_app, last_snoc. reflexivity.
Qed.

(** X10: [append] links the new entry to the [lastHash] field, not to the
    last retained entry.  On a ledger that verifies and has room for one
    more entry, the ledger after [append] verifies again exactly when
    [lastHash] was the hash of the last entry (the genesis hash for an empty
    chain); when it was anything else, as a chain file can make it,
    [verify()] reports a prevHash mismatch at the entry just appended.  This
    holds whether or not the write succeeds. *)
Theorem append_links_to_lastHash (env : AppendEnv) (params : Params.t) (l : t) :
  valid (verify l) = true ->
  maxEntries (config l) <= 0 \/ Z.of_nat (length (entries l)) < maxEntries (config l) ->
  let l' := (append env params l).1 in
  let N := Z.of_nat (length (entries l)) + 1 in
  let last_hash := default GENESIS_HASH (AuditEntry.hash <$> last (entries l)) in
  exists e,
    entries l' = (entries l ++ [e])%list /\
    (lastHash l = last_hash -> verify l' = intact N) /\
    (lastHash l <> last_hash -> verify l' = broken N e "prevHash mismatch at sequence ").
Proof.
  intros Hv Hroom l' N last_hash.
  rewrite verify_eq_loop in Hv. apply verify_loop_valid in Hv.
  destruct (append_pushed env params l) as (He & Hk & _ & _ & _). fold l' in He, Hk.
  unfold pushed in He. cbn [entries] in He.
  rewrite retain_all in He by (rewrite length_app; simpl length; lia).
  exists (newEntry env params l). split; [exact He|].
  assert (HN : Z.of_nat (length (entries l')) = N).
  { rewrite He, length_app. simpl length. lia. }
  split; intros Hh; rewrite verify_eq_loop, HN, He, Hk, verify_loop_skip by exact Hv;
    rewrite tip_last; fold last_hash.
  - apply verify_loop_chain. split; [|exact I]. repeat split. exact Hh.
  - apply verify_loop_step_linkage. exact Hh.
Qed.

(** A chain file that holds the two entries of the scenario but the genesis
    hash in its [lastHash] field. *)
Definition scenario_reloaded : t :=
  new (scenario_config 100) None None (Some scenario_key) []
      (Some (Saved {| saved_entries := [scenario_entry1; scenario_entry2];
                      saved_sequence := 2;
                      saved_lastHash := GENESIS_HASH;
                      savedAt := "2026-01-01T00:00:09.000Z" |})).

Lemma append_links_to_lastHash_witness :
  (exists e,
     entries (append (scenario_env "3" false) (scenario_params "test3")
                (scenario_ledger 100)).1
     = (entries (scenario_ledger 100) ++ [e])%list /\
     verify (append (scenario_env "3" false) (scenario_params "test3")
               (scenario_ledger 100)).1
     = intact (Z.of_nat (length (entries (scenario_ledger 100))) + 1)) /\
  (exists e,
     entries (append (scenario_env "3" true) (scenario_params "test3") scenario_reloaded).1
     = (entries scenario_reloaded ++ [e])%list /\
     verify (append (scenario_env "3" true) (scenario_params "test3") scenario_reloaded).1
     = broken (Z.of_nat (length (entries scenario_reloaded)) + 1)
              e "prevHash mismatch at sequence ").
Proof.
  split.
  - destruct (append_links_to_lastHash (scenario_env "3" false) (scenario_params "test3")
                (scenario_ledger 100) scenario_valid) as (e & He & Hok & _).
    { right. rewrite scenario_entries. reflexivity. }
    exists e. split; [exact He|]. apply Hok.
    rewrite scenario_entries. vm_compute. reflexivity.
  - assert (Hv : valid (verify scenario_reloaded) = true) by (vm_compute; reflexivity).
    destruct (append_links_to_lastHash (scenario_env "3" true) (scenario_params "test3")
                scenario_reloaded Hv) as (e & He & _ & Hbad).
    { right. reflexivity. }
    exists e. split; [exact He|]. apply Hbad.
    apply String.eqb_neq. vm_compute. reflexivity.
Defined.

(** ** Removing an entry; the order of the entries *)

(** X11: on a ledger that verifies, removing one entry that is not the
    last is reported as a prevHash mismatch at the entry that followed it
    (provided the removed entry's hash differs from the hash of the entry
    before it, or from the genesis hash when it was the first). *)
Theorem removed_entry_detected (l : t) (pre post : list AuditEntry.t)
    (e e' : AuditEntry.t) :
  valid (verify l) = true ->
  entries l = (pre ++ e :: e' :: post)%list ->
  AuditEntry.hash e <> default GENESIS_HASH (AuditEntry.hash <$> last pre) ->
  verify (set_entries (pre ++ e' :: post) l)
  = broken (Z.of_nat (length (pre ++ e' :: post))) e' "prevHash mismatch at sequence ".
Proof.
  intros Hv He Hne.
  rewrite verify_eq_loop in Hv. apply verify_loop_valid in Hv.
  rewrite He in Hv. apply chain_app in Hv as [Hpre (_ & ((Hlink & _) & _))].
  rewrite verify_eq_loop. cbn [entries secret set_entries].
  rewrite verify_loop_skip by exact Hpre.
  apply verify_loop_step_linkage. rewrite Hlink, tip_last. exact Hne.
Qed.

Lemma removed_entry_detected_witness :
  verify (set_entries ([] ++ scenario_entry2 :: []) (scenario_ledger 100))
  = broken (Z.of_nat (length ([] ++ scenario_entry2 :: []))) scenario_entry2
           "prevHash mismatch at sequence ".
Proof.
  apply (removed_entry_detected (scenario_ledger 100) [] [] scenario_entry1
           scenario_entry2 scenario_valid scenario_entries).
  apply String.eqb_neq. vm_compute. reflexivity.
Defined.

(** X12: [append] never rewrites, reorders or inserts: after any sequence
    of calls, on any ledger, the retained entries are a suffix of the
    entries that were there followed by the entries the calls built, in call
    order.  Entries enter at the end and leave at the front only. *)
Theorem entries_enter_last_leave_first (calls : list Call) (l : t) :
  entries (run calls l).1 `suffix_of` (entries l ++ built calls l)%list.
Proof.
  revert l. induction calls as [|c rest IH]; intros l.
  - cbn [run built fst]. rewrite app_nil_r. reflexivity.
  - cbn [run built fst]. etransitivity; [apply IH|].
    destruct (append_pushed c.1 c.2 l) as (-> & _).
    unfold pushed. cbn [entries].
    rewrite (cons_middle (newEntry c.1 c.2 l) (entries l) (built rest _)), app_assoc.
    apply suffix_app. unfold retain.
    destruct (0 <? maxEntries (config l)); [apply suffix_drop|reflexivity].
Qed.

End LedgerExtras.

(* ================================================================== *)
(** * Further properties of the consent gate                           *)
(* ================================================================== *)

Module GateExtras.
Import ConsentGate GateFacts.
Local Open Scope Z_scope.

(** ** The classifier *)

(** The substring search of [classifyRisk] on the lower-cased name. *)
Definition scan (lower : string) : RiskLevel :=
  match find (fun entry : string * RiskLevel => includes lower entry.1) TOOL_RISK_MAP with
  | Some (_, level) => level
  | None => low
  end.

Lemma own_elem_of (table : list (string * RiskLevel)) (name : string) (r : RiskLevel) :
  own table name = Some r -> (name, r) ∈ table.
Proof.
  induction table as [|[k r'] rest IH]; simpl; [discriminate|].
  destruct (String.eqb_spec k name) as [->|_].
  - intros [= ->]. left.
  - intros H. right. apply IH. exact H.
Qed.

(** On its own keys the table answers what the substring search would. *)
Lemma TOOL_RISK_MAP_scan :
  Forall (fun entry : string * RiskLevel => scan (toLowerCase entry.1) = entry.2)
         TOOL_RISK_MAP.
Proof. repeat constructor. Qed.

Lemma classifyRisk_scan (name : string) :
  name ∉ Object_prototype -> classifyRisk name = Level (scan (toLowerCase name)).
Proof.
  intros Hname. unfold classifyRisk, get.
  destruct (own TOOL_RISK_MAP name) as [r|] eqn:Hown.
  - apply own_elem_of in Hown.
    pose proof (proj1 (Forall_forall _ _) TOOL_RISK_MAP_scan _ Hown) as Hs.
    simpl in Hs. rewrite Hs. reflexivity.
  - rewrite bool_decide_eq_false_2 by assumption. unfold scan.
    destruct (find _ TOOL_RISK_MAP) as [[k r]|]; reflexivity.
Qed.

Lemma Object_prototype_inherited :
  Forall (fun name => classifyRisk name = Inherited name) Object_prototype.
Proof. repeat constructor. Qed.

Lemma Object_prototype_scan_low :
  Forall (fun name => scan (toLowerCase name) = low) Object_prototype.
Proof. repeat constructor. Qed.

Lemma scan_elem_of (lower : string) :
  scan lower = low \/
  exists key, (key, scan lower) ∈ TOOL_RISK_MAP /\ includes lower key = true.
Proof.
  unfold scan.
  destruct (find _ TOOL_RISK_MAP) as [[k r]|] eqn:Hf; [right|left; reflexivity].
  apply find_some in Hf as [Hin Hk]. exists k. split; [|exact Hk].
  apply list_elem_of_In. exact Hin.
Qed.

Ltac scan_table :=
  lazymatch goal with
  | |- context [if includes ?l ?k then _ else _] =>
      let H := fresh "Hscan" in
      destruct (includes l k) eqn:H;
      [first [reflexivity | congruence] | first [congruence | scan_table]]
  | _ => first [reflexivity | congruence]
  end.

(** X13: a name that contains one of the critical keys of the table ([exec],
    [spawn], [shell], [run_command], [execute]) in any letter case is
    classified [critical], whatever else it contains: no exact match, no
    other key and no inherited property takes precedence. *)
Theorem critical_key_dominates (name key : string) :
  (key, critical) ∈ TOOL_RISK_MAP ->
  includes (toLowerCase name) key = true ->
  classifyRisk name = Level critical.
Proof.
  intros Hkey Hin.
  assert (Hscan : scan (toLowerCase name) = critical).
  { unfold scan, TOOL_RISK_MAP in Hkey |- *. cbn [find fst].
    repeat (apply elem_of_cons in Hkey as [Hkey|Hkey];
            [inversion Hkey; subst key; clear Hkey; scan_table|]).
    inversion Hkey. }
  destruct (decide (name ∈ Object_prototype)) as [Hp|Hp].
  - pose proof (proj1 (Forall_forall _ _) Object_prototype_scan_low _ Hp) as Hl.
    simpl in Hl. congruence.
  - rewrite classifyRisk_scan by exact Hp. rewrite Hscan. reflexivity.
Qed.

Lemma critical_key_dominates_witness :
  classifyRisk "Safe_Read_Then_EXECUTE_Query" = Level critical.
Proof.
  apply (critical_key_dominates "Safe_Read_Then_EXECUTE_Query" "execute").
  - apply (bool_decide_unpack _). vm_compute. exact I.
  - vm_compute. reflexivity.
Defined.

(** X14: away from the names that the table inherits from
    [Object.prototype], [classifyRisk] does not look at letter case: two
    names with the same lower-case form are classified alike.  (The exact
    lookup is case-sensitive, but on the keys of the table it agrees with
    the substring search.) *)
Theorem classifyRisk_ignores_case (name name' : string) :
  toLowerCase name = toLowerCase name' ->
  name ∉ Object_prototype -> name' ∉ Object_prototype ->
  classifyRisk name = classifyRisk name'.
Proof.
  intros Hl Hn Hn'. rewrite !classifyRisk_scan by assumption. rewrite Hl. reflexivity.
Qed.

Lemma classifyRisk_ignores_case_witness :
  classifyRisk "RmDir" = classifyRisk "rmdir".
Proof.
  apply (classifyRisk_ignores_case "RmDir" "rmdir").
  - vm_compute. reflexivity.
  - apply (bool_decide_unpack _). vm_compute. exact I.
  - apply (bool_decide_unpack _). vm_compute. exact I.
Defined.

(** ** The threshold *)

Definition with_threshold (r : RiskLevel) (config : ConsentGateConfig)
  : ConsentGateConfig :=
  {| enabled := enabled config; alwaysRequire := alwaysRequire config;
     neverRequire := neverRequire config; timeoutMs := timeoutMs config;
     riskThreshold := r |}.

(** X15: lowering the threshold never removes a consent requirement: with
    the two lists unchanged, every tool that requires consent under a
    threshold requires it under every lower threshold. *)
Theorem requiresConsent_antitone (config : ConsentGateConfig) (lower : RiskLevel)
    (name : string) :
  RISK_ORDER lower <= RISK_ORDER (riskThreshold config) ->
  requiresConsent config name = true ->
  requiresConsent (with_threshold lower config) name = true.
Proof.
  unfold requiresConsent. cbn [with_threshold neverRequire alwaysRequire riskThreshold].
  intros Hle.
  destruct (bool_decide (name ∈ neverRequire config)); [trivial|].
  destruct (bool_decide (name ∈ alwaysRequire config)); [trivial|].
  destruct (classifyRisk name) as [r|p]; simpl; [|trivial].
  rewrite !Z.leb_le. lia.
Qed.

Lemma requiresConsent_antitone_witness :
  requiresConsent (with_threshold medium gate_config) "fs_write" = true.
Proof.
  apply (requiresConsent_antitone gate_config medium "fs_write").
  - simpl. lia.
  - vm_compute. reflexivity.
Defined.

Lemma TOOL_RISK_MAP_above_none :
  Forall (fun entry : string * RiskLevel => 1 <= RISK_ORDER entry.2) TOOL_RISK_MAP.
Proof. repeat constructor; simpl; lia. Qed.

Lemma scan_above_none (lower : string) : 1 <= RISK_ORDER (scan lower).
Proof.
  destruct (scan_elem_of lower) as [->|(key & Hin & _)]; [simpl; lia|].
  exact (proj1 (Forall_forall _ _) TOOL_RISK_MAP_above_none _ Hin).
Qed.

(** X16: the classifier never answers [none], so the thresholds [none] and
    [low] are the same: under either, every tool that is on neither list and
    is not named like a member of [Object.prototype] requires consent.  A
    tool that is named like one ([constructor], [toString], ...) and is on
    neither list requires no consent under any threshold, [none]
    included. *)
Theorem requiresConsent_at_the_floor (config : ConsentGateConfig) (name : string) :
  name ∉ neverRequire config -> name ∉ alwaysRequire config ->
  (name ∉ Object_prototype -> RISK_ORDER (riskThreshold config) <= 1 ->
   requiresConsent config name = true) /\
  (name ∈ Object_prototype -> requiresConsent config name = false).
Proof.
  intros Hn Ha. unfold requiresConsent.
  rewrite !bool_decide_eq_false_2 by assumption. split.
  - intros Hp Hlow. rewrite classifyRisk_scan by exact Hp. simpl.
    pose proof (scan_above_none (toLowerCase name)). apply Z.leb_le. lia.
  - intros Hp.
    rewrite (proj1 (Forall_forall _ _) Object_prototype_inherited _ Hp). reflexivity.
Qed.

Lemma requiresConsent_at_the_floor_witness :
  requiresConsent (with_threshold none gate_config) "unknown_tool" = true /\
  requiresConsent (with_threshold none gate_config) "toString" = false.
Proof.
  destruct (requiresConsent_at_the_floor (with_threshold none gate_config) "unknown_tool")
    as [Hyes _].
  { apply (bool_decide_unpack _). vm_compute. exact I. }
  { apply (bool_decide_unpack _). vm_compute. exact I. }
  destruct (requiresConsent_at_the_floor (with_threshold none gate_config) "toString")
    as [_ Hno].
  { apply (bool_decide_unpack _). vm_compute. exact I. }
  { apply (bool_decide_unpack _). vm_compute. exact I. }
  split.
  - apply Hyes; [apply (bool_decide_unpack _); vm_compute; exact I | simpl; lia].
  - apply Hno. apply (bool_decide_unpack _). vm_compute. exact I.
Defined.

(** ** [intercept] *)

(** X17: what [intercept] does at once, before any user input.  A tool
    that requires no consent passes: the call returns [{blocked: false}], the
    gate is unchanged and nothing is logged.  A tool on the always-require
    list whose name is a member of [Object.prototype] makes the call throw
    (the risk is not a string), again with nothing registered or logged.  In
    every other case, if the prompt can be sent, the call is suspended: one
    request with the drawn id, the name and arguments of the event and status
    [pending] is registered under that id, and nothing is logged yet. *)
Theorem intercept_first_phase (event : ToolCallEvent) (env : InterceptEnv) (g : t) :
  let name := ev_toolName event in
  let r := intercept event env g in
  (requiresConsent (config g) name = false ->
   r = (g, [InterceptSettled (Returned {| blocked := false; blocked_reason := None |})])) /\
  (requiresConsent (config g) name = true -> name ∈ Object_prototype ->
   r = (g, [InterceptSettled Thrown])) /\
  (requiresConsent (config g) name = true -> name ∉ Object_prototype ->
   i_sendOk env = true ->
   exists w,
     r.2 = [] /\
     suspended r.1 = (suspended g ++ [w])%list /\
     pendingRequests r.1 = <[i_uuid env := length (suspended g)]> (pendingRequests g) /\
     ledger r.1 = ledger g /\
     id (request w) = i_uuid env /\ toolName (request w) = name /\
     toolArgs (request w) = ev_args event /\
     classifyRisk name = Level (riskLevel (request w)) /\
     status (request w) = pending /\ settled w = None /\ resumed w = false).
Proof.
  intros name r. unfold r, intercept. fold name. split; [|split].
  - intros ->. reflexivity.
  - intros -> Hp. cbn [negb].
    rewrite (proj1 (Forall_forall _ _) Object_prototype_inherited _ Hp). reflexivity.
  - intros -> Hp Hsend. cbn [negb].
    rewrite classifyRisk_scan by exact Hp. rewrite Hsend.
    eexists. cbn [fst snd suspended pendingRequests ledger set_suspended
                  set_pendingRequests request id].
    repeat split.
Qed.

(** A configuration that always requires consent for a tool named
    [constructor]. *)
Definition inherited_config : ConsentGateConfig :=
  {| enabled := true; alwaysRequire := ["constructor"]; neverRequire := ["search"];
     timeoutMs := 2000; riskThreshold := high |}.

Definition scenario_tool (name : string) : ToolCallEvent :=
  {| ev_toolName := name; ev_args := []; ev_sessionId := "test";
     ev_timestamp := "2024-01-01T00:00:00.000Z" |}.

Definition scenario_draw : InterceptEnv :=
  {| i_uuid := scenario_consent_id; i_now := "2024-01-01T00:00:00.001Z";
     i_sendOk := true |}.

Lemma intercept_first_phase_witness :
  let g := new inherited_config (LedgerFacts.scenario_new 100) in
  intercept (scenario_tool "search") scenario_draw g
  = (g, [InterceptSettled (Returned {| blocked := false; blocked_reason := None |})]) /\
  intercept (scenario_tool "constructor") scenario_draw g = (g, [InterceptSettled Thrown]) /\
  pendingRequests (intercept (scenario_tool "deploy") scenario_draw g).1
  = <[scenario_consent_id := 0%nat]> ∅.
Proof.
  intros g. split; [|split].
  - apply (proj1 (intercept_first_phase (scenario_tool "search") scenario_draw g)).
    vm_compute. reflexivity.
  - apply (proj1 (proj2 (intercept_first_phase (scenario_tool "constructor")
                           scenario_draw g))).
    + vm_compute. reflexivity.
    + apply (bool_decide_unpack _). vm_compute. exact I.
  - destruct (proj2 (proj2 (intercept_first_phase (scenario_tool "deploy")
                              scenario_draw g)))
      as (w & _ & _ & Hp & _).
    + vm_compute. reflexivity.
    + apply (bool_decide_unpack _). vm_compute. exact I.
    + reflexivity.
    + exact Hp.
Defined.

(** X18: what a suspended [intercept] call returns once its promise is
    settled, in any state the gate can reach (the ids drawn being distinct).
    It hands one record to the ledger, with [consentRequired: true],
    [consentGranted] the settled value and the action [consent_approved],
    [consent_timeout] or [consent_rejected]; an approval is never recorded as
    a timeout.  If the ledger write succeeds it returns [{blocked: false}]
    for an approval and otherwise [{blocked: true}] with the reason
    [approval timed out] or [user rejected]; if the write fails the call
    throws, whatever the user decided. *)
Theorem intercept_second_phase (cfg : ConsentGateConfig) (ldg : AuditLedger.t)
    (evs : list Event) (h : nat) (w : Suspended) (b : bool) (env : ResumeEnv) :
  NoDup (uuids evs) ->
  let g := (exec evs (new cfg ldg)).1 in
  suspended g !! h = Some w -> settled w = Some b -> resumed w = false ->
  let late := bool_decide (status (request w) = timeout) in
  exists params,
    (resume h env g).2
    = [LedgerAppend params;
       InterceptSettled
         (if AuditLedger.writeOk (r_append env) then
            Returned (if b then {| blocked := false; blocked_reason := None |}
                      else {| blocked := true;
                              blocked_reason :=
                                Some ("Tool call rejected: " +:+
                                      (if late then "approval timed out"
                                       else "user rejected")) |})
          else Thrown)] /\
    ledger (resume h env g).1 = (AuditLedger.append (r_append env) params (ledger g)).1 /\
    AuditLedger.Params.consentRequired params = true /\
    AuditLedger.Params.consentGranted params = Some b /\
    AuditLedger.Params.toolName params = Some (toolName (request w)) /\
    AuditLedger.Params.action params
    = (if b then "consent_approved"
       else if late then "consent_timeout" else "consent_rejected").
Proof.
  intros Hnd g Hh Hs Hr late.
  destruct (exec_sound evs (new cfg ldg) [] (new_sound cfg ldg) Hnd) as (Hsound & _ & _).
  { intros u _ Hu. inversion Hu. }
  fold g in Hsound.
  destruct (wf_ok _ _ _ Hsound h w Hh) as [_ Htimeout _ _ _].
  assert (Hb : b = true -> late = false).
  { intros ->. unfold late. apply bool_decide_eq_false_2. intros Hst.
    specialize (Htimeout Hst). congruence. }
  unfold resume. rewrite Hh, Hs, Hr. fold late. cbv zeta.
  rewrite LedgerFacts.append_outcome.
  eexists. split; [|split; [|split; [|split; [|split]]]].
  - destruct (AuditLedger.writeOk (r_append env)); reflexivity.
  - destruct (AuditLedger.writeOk (r_append env)); reflexivity.
  - reflexivity.
  - reflexivity.
  - reflexivity.
  - cbn [AuditLedger.Params.action]. destruct b.
    + rewrite (Hb eq_refl). reflexivity.
    + destruct late; reflexivity.
Qed.

(** The scenario up to the approval: [exec] is intercepted and the user
    approves; the call has not been resumed yet. *)
Definition scenario_approval : list Event :=
  [ Intercept scenario_event scenario_draw;
    HandleResponse scenario_consent_id true ].

Definition scenario_settled : Suspended :=
  {| request :=
       {| id := scenario_consent_id; toolName := "exec";
          toolArgs := [("cmd", Json.Str "rm -rf /")]; riskLevel := critical;
          reason := "Tool " +:+ Json.dquote +:+ "exec" +:+ Json.dquote
                    +:+ " classified as critical risk";
          status := pending; createdAt := "2024-01-01T00:00:00.001Z";
          resolvedAt := None |};
     settled := Some true; timerArmed := true; resumed := false |}.

Definition scenario_resume (ok : bool) : ResumeEnv :=
  {| r_now := "2024-01-01T00:00:00.050Z"; r_append := LedgerFacts.scenario_env "1" ok |}.

Lemma intercept_second_phase_witness :
  let g := (exec scenario_approval (new gate_config (LedgerFacts.scenario_new 100))).1 in
  (exists params,
     (resume 0 (scenario_resume true) g).2
     = [LedgerAppend params;
        InterceptSettled (Returned {| blocked := false; blocked_reason := None |})] /\
     AuditLedger.Params.action params = "consent_approved") /\
  (exists params,
     (resume 0 (scenario_resume false) g).2
     = [LedgerAppend params; InterceptSettled Thrown]).
Proof.
  intros g.
  assert (Hnd : NoDup (uuids scenario_approval)).
  { apply (bool_decide_unpack _). vm_compute. exact I. }
  assert (Hh : suspended g !! 0%nat = Some scenario_settled) by (vm_compute; reflexivity).
  split.
  - destruct (intercept_second_phase gate_config (LedgerFacts.scenario_new 100)
                scenario_approval 0 scenario_settled true (scenario_resume true)
                Hnd Hh eq_refl eq_refl) as (params & Hout & _ & _ & _ & _ & Hact).
    exists params. split; [exact Hout|exact Hact].
  - destruct (intercept_second_phase gate_config (LedgerFacts.scenario_new 100)
                scenario_approval 0 scenario_settled true (scenario_resume false)
                Hnd Hh eq_refl eq_refl) as (params & Hout & _).
    exists params. exact Hout.
Defined.

(** ** The gate and its ledger *)

(** X19: the gate touches its ledger through [append] only, once per
    record.  On a gate built on a fresh ledger, after any sequence of
    [intercept] calls, responses, timers and resumptions, the ledger's
    sequence counter is the number of records handed to it; and unless that
    number exceeds a positive retention limit, [verify()] answers
    [{valid: true}] with that number of entries, and the retained entries
    carry the actions of those records in order. *)
Theorem gate_ledger_holds_the_decisions (cfg : ConsentGateConfig)
    (lcfg : AuditLedger.AuditLedgerConfig) (url key : option string)
    (keyFile : option (list Z)) (random : list Z) (evs : list Event) :
  let r := exec evs (new cfg (AuditLedger.new lcfg url key keyFile random None)) in
  let n := Z.of_nat (length (appended r.2)) in
  AuditLedger.sequence (ledger r.1) = n /\
  (AuditLedger.maxEntries lcfg <= 0 \/ n <= AuditLedger.maxEntries lcfg ->
   AuditLedger.verify (ledger r.1) = AuditLedger.intact n /\
   AuditEntry.action <$> AuditLedger.entries (ledger r.1)
   = AuditLedger.Params.action <$> appended r.2).
Proof.
  intros r n. subst n r.
  set (l0 := AuditLedger.new lcfg url key keyFile random None).
  destruct (exec_ledger evs (new cfg l0)) as (calls & Hl & Hc).
  cbn [ledger new] in Hl. rewrite <- Hc, length_fmap.
  split.
  - rewrite Hl, LedgerFacts.run_sequence. reflexivity.
  - intros Hroom.
    assert (He : AuditLedger.entries (ledger (exec evs (new cfg l0)).1)
                 = LedgerFacts.built calls l0).
    { rewrite Hl. unfold l0. rewrite LedgerFacts.run_fresh_entries.
      apply LedgerFacts.retain_all. rewrite LedgerFacts.built_length. exact Hroom. }
    split.
    + rewrite LedgerFacts.verify_eq_loop, He, LedgerFacts.built_length.
      apply LedgerFacts.verify_loop_chain.
      rewrite Hl, LedgerFacts.run_secret. apply (LedgerFacts.built_chain calls l0).
    + rewrite He.
      change (map AuditEntry.action (LedgerFacts.built calls l0)
              = AuditLedger.Params.action <$> calls.*2).
      rewrite LedgerFacts.built_action, <- list_fmap_compose. reflexivity.
Qed.

Lemma gate_ledger_holds_the_decisions_witness :
  AuditLedger.verify
    (ledger (exec scenario_run
               (new gate_config
                    (AuditLedger.new (LedgerFacts.scenario_config 100) None None None
                                     LedgerFacts.scenario_key None))).1)
  = AuditLedger.intact
      (Z.of_nat (length (appended
         (exec scenario_run
            (new gate_config
                 (AuditLedger.new (LedgerFacts.scenario_config 100) None None None
                                  LedgerFacts.scenario_key None))).2))).
Proof.
  apply (proj2 (gate_ledger_holds_the_decisions gate_config
                  (LedgerFacts.scenario_config 100) None None None
                  LedgerFacts.scenario_key scenario_run)).
  right. vm_compute. discriminate.
Defined.

(** ** The prompt *)

Lemma prefix_append (p rest : string) : String.prefix p (p +:+ rest) = true.
Proof.
  induction p as [|x p IH].
  - change (String.prefix EmptyString rest = true). destruct rest; reflexivity.
  - rewrite LedgerFacts.append_cons. simpl.
    destruct (ascii_dec x x); [exact IH|congruence].
Qed.

Lemma includes_here (p rest : string) : includes (p +:+ rest) p = true.
Proof.
  assert (Hunfold : forall s, includes s p
            = String.prefix p s
              || match s with EmptyString => false | String _ s' => includes s' p end)
    by (intros s; destruct s; reflexivity).
  rewrite Hunfold, prefix_append. reflexivity.
Qed.

Lemma includes_later (a s p : string) : includes s p = true -> includes (a +:+ s) p = true.
Proof.
  intros H. induction a as [|x a IH]; [exact H|].
  rewrite LedgerFacts.append_cons. simpl. rewrite IH. apply orb_true_r.
Qed.

Lemma includes_join (sep x : string) (l : list string) :
  x ∈ l -> includes (Json.join sep l) x = true.
Proof.
  intros Hx. apply list_elem_of_split in Hx as (l1 & l2 & ->).
  rewrite LedgerFacts.join_split. apply includes_later, includes_here.
Qed.

(** The request object that [intercept] builds, and the message it passes to
    [ctx.sendMessage]: nothing when no consent is required; when
    [formatConsentMessage] throws, the outcome [Thrown]. *)
Definition prompt (event : ToolCallEvent) (env : InterceptEnv) (g : t)
  : option (outcome string) :=
  if negb (requiresConsent (config g) (ev_toolName event)) then None
  else
    match classifyRisk (ev_toolName event) with
    | Inherited _ => Some Thrown
    | Level risk =>
        Some (Returned (formatConsentMessage (config g)
          {| id := i_uuid env;
             toolName := ev_toolName event;
             toolArgs := ev_args event;
             riskLevel := risk;
             reason := "Tool " +:+ Json.dquote +:+ ev_toolName event +:+ Json.dquote
                       +:+ " classified as " +:+ RiskLevel_string risk +:+ " risk";
             status := pending;
             createdAt := i_now env;
             resolvedAt := None |}))
    end.

(** X20: the prompt and the registry agree.  When [intercept] sends a
    prompt and suspends, the prompt contains the lines
    [Reply `approve <id>` to allow] and [Reply `reject <id>` to block], the
    tool name, the risk in upper case and the timeout in rounded seconds, and
    [<id>] is the id under which the call has just been registered: a
    response with that id is accepted ([handleResponse] returns [true]) and
    settles this call with the answer given. *)
Theorem prompt_names_the_pending_request (event : ToolCallEvent) (env : InterceptEnv)
    (g : t) (msg : string) :
  prompt event env g = Some (Returned msg) -> i_sendOk env = true ->
  let g' := (intercept event env g).1 in
  let c := i_uuid env in
  includes msg ("Reply `approve " +:+ c +:+ "` to allow") = true /\
  includes msg ("Reply `reject " +:+ c +:+ "` to block") = true /\
  includes msg ("Tool: `" +:+ ev_toolName event +:+ "`") = true /\
  (exists risk, classifyRisk (ev_toolName event) = Level risk /\
     includes msg ("Risk: **" +:+ toUpperCase (RiskLevel_string risk) +:+ "**") = true) /\
  includes msg ("Auto-rejects in "
                +:+ Json.number_to_string ((timeoutMs (config g) + 500) / 1000) +:+ "s")
  = true /\
  pendingRequests g' !! c = Some (length (suspended g)) /\
  forall b, (handleResponse c b g').2 = true /\
    exists w, suspended (handleResponse c b g').1 !! length (suspended g) = Some w /\
              id (request w) = c /\ settled w = Some b.
Proof.
  unfold prompt, intercept.
  destruct (requiresConsent (config g) (ev_toolName event)); cbn [negb]; [|discriminate].
  destruct (classifyRisk (ev_toolName event)) as [risk|p]; [|discriminate].
  intros [= <-] ->. cbn [fst]. unfold formatConsentMessage.
  cbn [id toolName riskLevel toolArgs].
  split; [apply includes_join; do 8 right; left|].
  split; [apply includes_join; do 9 right; left|].
  split; [apply includes_join; do 2 right; left|].
  split; [exists risk; split; [reflexivity|apply includes_join; do 3 right; left]|].
  split; [apply includes_join; do 11 right; left|].
  cbn [pendingRequests set_pendingRequests set_suspended suspended].
  split; [apply lookup_insert_eq|].
  intros b. unfold handleResponse, resolve.
  cbn [pendingRequests set_pendingRequests set_suspended suspended config ledger].
  rewrite lookup_insert_eq. cbn [fst snd suspended set_pendingRequests set_suspended
                                 config ledger pendingRequests].
  split; [reflexivity|].
  eexists. split.
  - rewrite list_lookup_alter, lookup_app_r, Nat.sub_diag by lia.
    rewrite decide_True by reflexivity. reflexivity.
  - split; reflexivity.
Qed.

Lemma prompt_names_the_pending_request_witness :
  exists msg,
    prompt scenario_event scenario_draw scenario_gate = Some (Returned msg) /\
    includes msg ("Reply `approve " +:+ i_uuid scenario_draw +:+ "` to allow") = true /\
    includes msg ("Auto-rejects in "
                  +:+ Json.number_to_string ((timeoutMs (config scenario_gate) + 500) / 1000)
                  +:+ "s") = true /\
    (handleResponse (i_uuid scenario_draw) false
       (intercept scenario_event scenario_draw scenario_gate).1).2 = true.
Proof.
  eexists. split; [vm_compute; reflexivity|].
  destruct (prompt_names_the_pending_request scenario_event scenario_draw scenario_gate _
              ltac:(vm_compute; reflexivity) eq_refl)
    as (Ha & _ & _ & _ & Hs & _ & Hr).
  split; [exact Ha|]. split; [exact Hs|]. exact (proj1 (Hr false)).
Defined.

(** ** The three ways a consent request ends *)







End GateExtras.

(* ================================================================== *)
(** * injection-detector.ts: the active patterns                       *)
(* ================================================================== *)

(** The constructor of [InjectionDetector] and [getActivePatterns].  Of a
    pattern only the name and the minimum sensitivity are represented; its
    regular expression and its weight are read by [scan] alone, which is not
    part of the embedding. *)
Module InjectionDetector.
Local Open Scope Z_scope.

Record PatternDef : Type := {
  name : string;
  minSensitivity : string
}.

(** Library of prompt injection patterns, in declared order. *)
Definition INJECTION_PATTERNS : list PatternDef :=
  [ (* Direct role override attempts *)
    {| name := "role_override"; minSensitivity := "low" |};
    {| name := "new_identity"; minSensitivity := "low" |};
    {| name := "system_prompt_override"; minSensitivity := "low" |};
    (* Delimiter-based injection *)
    {| name := "delimiter_injection"; minSensitivity := "medium" |};
    {| name := "xml_tag_injection"; minSensitivity := "medium" |};
    (* Privilege escalation *)
    {| name := "privilege_escalation"; minSensitivity := "low" |};
    {| name := "safety_bypass"; minSensitivity := "low" |};
    (* Output manipulation *)
    {| name := "output_manipulation"; minSensitivity := "medium" |};
    {| name := "encoding_evasion"; minSensitivity := "high" |};
    (* Indirect injection (from external content) *)
    {| name := "hidden_instruction"; minSensitivity := "medium" |};
    {| name := "urgent_override"; minSensitivity := "low" |};
    (* Tool/function abuse *)
    {| name := "tool_abuse"; minSensitivity := "high" |};
    {| name := "data_exfil"; minSensitivity := "medium" |};
    (* Jailbreak patterns *)
    {| name := "dan_jailbreak"; minSensitivity := "low" |};
    {| name := "hypothetical_bypass"; minSensitivity := "medium" |} ].

Definition SENSITIVITY_ORDER : list (string * Z) :=
  [ ("low", 1); ("medium", 2); ("high", 3) ].

(** What [SENSITIVITY_ORDER[key]] can evaluate to, when it is not
    [undefined]: a number of the table, or the member of [Object.prototype]
    of that name. *)
Inductive Value : Type :=
| Num (n : Z)
| Inherited (key : string).

Fixpoint own (table : list (string * Z)) (key : string) : option Z :=
  match table with
  | [] => None
  | (k, n) :: rest => if String.eqb k key then Some n else own rest key
  end.

Definition get (key : string) : option Value :=
  match own SENSITIVITY_ORDER key with
  | Some n => Some (Num n)
  | None =>
      if bool_decide (key ∈ ConsentGate.Object_prototype) then Some (Inherited key)
      else None
  end.

(** [a <= b]: [undefined], a function or an object converts to [NaN], and
    every comparison with [NaN] is false. *)
Definition js_le (a b : option Value) : bool :=
  match a, b with
  | Some (Num x), Some (Num y) => x <=? y
  | _, _ => false
  end.

(** The constructor: the value of [this.activePatterns] for
    [config.sensitivity]. *)
Definition activePatterns (sensitivity : string) : list PatternDef :=
  (* [SENSITIVITY_ORDER[config.sensitivity] ?? 2] *)
  let sensitivityLevel :=
    match get sensitivity with
    | Some v => v
    | None => Num 2
    end in
  filter (fun p => js_le (get (minSensitivity p)) (Some sensitivityLevel) = true)
         INJECTION_PATTERNS.

(** [getActivePatterns()] *)
Definition getActivePatterns (sensitivity : string) : list string :=
  map name (activePatterns sensitivity).

End InjectionDetector.

Module DetectorExtras.
Import InjectionDetector.
Local Open Scope Z_scope.

Lemma get_unknown (s : string) :
  s ∉ ConsentGate.Object_prototype -> s <> "low" -> s <> "medium" -> s <> "high" ->
  get s = None.
Proof.
  intros Hp Hl Hm Hh. unfold get, SENSITIVITY_ORDER. cbn [own].
  apply String.eqb_neq in Hl, Hm, Hh.
  rewrite (String.eqb_sym "low"), Hl, (String.eqb_sym "medium"), Hm,
    (String.eqb_sym "high"), Hh.
  rewrite bool_decide_eq_false_2 by exact Hp. reflexivity.
Qed.

Lemma get_inherited (s : string) :
  s ∈ ConsentGate.Object_prototype -> get s = Some (Inherited s).
Proof.
  intros Hp.
  assert (Hall : Forall (fun k => get k = Some (Inherited k)) ConsentGate.Object_prototype)
    by (repeat constructor).
  exact (proj1 (Forall_forall _ _) Hall _ Hp).
Qed.

(** X22: which patterns a detector runs.  With sensitivity [high] all
    fifteen patterns are active, in declared order; the patterns active under
    [low] are among those active under [medium].  Every other sensitivity
    string, [HIGH] for one, selects the patterns of [medium], except the
    names of the members of [Object.prototype] ([constructor], [toString],
    ...): for those no pattern at all is active, so that such a detector
    never detects anything. *)
Theorem active_patterns_by_sensitivity (s : string) :
  getActivePatterns "high" = map name INJECTION_PATTERNS /\
  getActivePatterns "low" `sublist_of` getActivePatterns "medium" /\
  getActivePatterns "medium" `sublist_of` getActivePatterns "high" /\
  (s ∉ ConsentGate.Object_prototype -> s <> "low" -> s <> "high" ->
   getActivePatterns s = getActivePatterns "medium") /\
  (s ∈ ConsentGate.Object_prototype -> getActivePatterns s = []).
Proof.
  split; [reflexivity|].
  split; [vm_compute; repeat constructor|].
  split; [vm_compute; repeat constructor|].
  split.
  - intros Hp Hl Hh. destruct (String.eqb_spec s "medium") as [->|Hm]; [reflexivity|].
    unfold getActivePatterns, activePatterns.
    rewrite (get_unknown s Hp Hl Hm Hh). reflexivity.
  - intros Hp. unfold getActivePatterns, activePatterns.
    rewrite (get_inherited s Hp). reflexivity.
Qed.

Lemma active_patterns_by_sensitivity_witness :
  getActivePatterns "HIGH" = getActivePatterns "medium" /\
  getActivePatterns "constructor" = [].
Proof.
  destruct (active_patterns_by_sensitivity "HIGH") as (_ & _ & _ & Hdefault & _).
  destruct (active_patterns_by_sensitivity "constructor") as (_ & _ & _ & _ & Hnone).
  split.
  - apply Hdefault.
    + apply (bool_decide_unpack _). vm_compute. exact I.
    + discriminate.
    + discriminate.
  - apply Hnone. apply (bool_decide_unpack _). vm_compute. exact I.
Defined.

End DetectorExtras.

(* ================================================================== *)
(** * data-vault.ts: vault tokens                                      *)
(* ================================================================== *)

(** The token store of [DataVault]: the callback with which [tokenize]
    replaces one match, and [detokenize].  Finding the matches is the work of
    the regular expressions of the patterns and is not part of the
    embedding; the callback is given the category of the pattern and the
    matched text.  The one regular expression of [detokenize],
    [/\[AIR:vault:([^:]+):([^\]]+)\]/g], is written out as a scanner. *)
Module DataVault.
Local Open Scope Z_scope.

Record VaultToken : Type := {
  tokenId : string;
  category : string;
  createdAt : string;
  expiresAt : string;
  originalValue : string
}.

(** [VaultConfig] without [customPatterns]. *)
Record VaultConfig : Type := {
  enabled : bool;
  categories : list string;
  forwardToGateway : bool;
  ttlMs : Z
}.

(** The fields of the class that the callback and [detokenize] use,
    followed by the tokens handed to [forwardToken]. *)
Record t : Type := Build {
  config : VaultConfig;
  tokens : gmap string VaultToken;
  gatewayUrl : option string;
  gatewayKey : option string;
  forwarded : list VaultToken
}.

Definition new (config : VaultConfig) (gatewayUrl gatewayKey : option string) : t :=
  Build config ∅ gatewayUrl gatewayKey [].

Record ReplaceEnv : Type := {
  uuid : string;          (* randomUUID() *)
  created : string;       (* new Date().toISOString() *)
  expires : string        (* new Date(Date.now() + ttlMs).toISOString() *)
}.

(** The callback of [result.replace(pattern.regex, ...)] in [tokenize]: the
    vault afterwards and the text that replaces the match. *)
Definition replace_match (env : ReplaceEnv) (pattern_category match_ : string) (v : t)
  : t * string :=
  let tokenId := String.substring 0 8 (uuid env) in
  let fullToken := "[AIR:vault:" +:+ pattern_category +:+ ":" +:+ tokenId +:+ "]" in
  (* Store the original value *)
  let vaultToken :=
    {| tokenId := tokenId;
       category := pattern_category;
       createdAt := created env;
       expiresAt := expires env;
       originalValue := match_ |} in
  let tokens' := <[tokenId := vaultToken]> (tokens v) in
  (* Non-blocking forward to gateway *)
  let forwarded' :=
    if forwardToGateway (config v) && AuditLedger.truthy (gatewayUrl v)
    then (forwarded v ++ [vaultToken])%list else forwarded v in
  (Build (config v) tokens' (gatewayUrl v) (gatewayKey v) forwarded', fullToken).

(** [s] without the prefix [lit], when it starts with it. *)
Fixpoint strip_prefix (lit s : string) : option string :=
  match lit with
  | EmptyString => Some s
  | String a lit' =>
      match s with
      | EmptyString => None
      | String b s' => if Ascii.eqb a b then strip_prefix lit' s' else None
      end
  end.

(** The longest prefix of [s] without the character [stop], and the rest. *)
Fixpoint span_until (stop : ascii) (s : string) : string * string :=
  match s with
  | EmptyString => (EmptyString, EmptyString)
  | String c s' =>
      if Ascii.eqb c stop then (EmptyString, s)
      else let r := span_until stop s' in (String c r.1, r.2)
  end.

(** A match of [\[AIR:vault:([^:]+):([^\]]+)\]] at the start of [s]: the two
    groups and the text after the match.  Each group is greedy and is
    followed by a character it cannot contain, so it is the longest run. *)
Definition match_token (s : string) : option (string * string * string) :=
  match strip_prefix "[AIR:vault:" s with
  | None => None
  | Some s1 =>
      match span_until ":" s1 with
      | (String c1 cat, String _ s2) =>
          match span_until "]" s2 with
          | (String c2 tid, String _ s3) => Some (String c1 cat, String c2 tid, s3)
          | _ => None
          end
      | _ => None
      end
  end.

(** The scan of [text.replace(/.../g, ...)]: matches are looked for from left
    to right and do not overlap.  [fuel] bounds the number of steps. *)
Fixpoint detokenize_loop (fuel : nat) (tokens : gmap string VaultToken) (text : string)
  : string :=
  match fuel, text with
  | _, EmptyString => EmptyString
  | O, _ => text
  | S fuel', String c text' =>
      match match_token text with
      | Some (_category, tokenId, rest) =>
          let _match := "[AIR:vault:" +:+ _category +:+ ":" +:+ tokenId +:+ "]" in
          (match tokens !! tokenId with
           | Some token => originalValue token
           | None => _match (* Leave as-is if token not found *)
           end) +:+ detokenize_loop fuel' tokens rest
      | None => String c (detokenize_loop fuel' tokens text')
      end
  end.

(** [detokenize]; every step consumes a character, so the length of the
    text is fuel enough. *)
Definition detokenize (v : t) (text : string) : string :=
  detokenize_loop (String.length text) (tokens v) text.

End DataVault.

Module VaultExtras.
Import DataVault.

(** Whether the character occurs in the string. *)
Fixpoint mentions (c : ascii) (s : string) : bool :=
  match s with
  | EmptyString => false
  | String x s' => Ascii.eqb x c || mentions c s'
  end.

Lemma length_append (a b : string) :
  String.length (a +:+ b) = (String.length a + String.length b)%nat.
Proof.
  induction a as [|x a IH]; [reflexivity|].
  rewrite LedgerFacts.append_cons. simpl. rewrite IH. reflexivity.
Qed.

Lemma strip_prefix_append (lit x : string) : strip_prefix lit (lit +:+ x) = Some x.
Proof.
  induction lit as [|a lit IH]; [reflexivity|].
  rewrite LedgerFacts.append_cons. simpl. rewrite Ascii.eqb_refl. exact IH.
Qed.

Lemma strip_prefix_spec (lit s x : string) : strip_prefix lit s = Some x -> s = lit +:+ x.
Proof.
  revert s. induction lit as [|a lit IH]; intros s; simpl.
  - intros [= ->]. reflexivity.
  - destruct s as [|b s]; [discriminate|].
    destruct (Ascii.eqb_spec a b) as [->|_]; [|discriminate].
    intros H. rewrite LedgerFacts.append_cons, <- (IH s H). reflexivity.
Qed.

Lemma span_until_append (stop : ascii) (a rest : string) :
  mentions stop a = false ->
  span_until stop (a +:+ String stop rest) = (a, String stop rest).
Proof.
  induction a as [|x a IH]; intros Hm.
  - change (EmptyString +:+ String stop rest) with (String stop rest).
    simpl. rewrite Ascii.eqb_refl. reflexivity.
  - simpl in Hm. apply orb_false_iff in Hm as [Hx Hm].
    rewrite LedgerFacts.append_cons. simpl. rewrite Hx, (IH Hm). reflexivity.
Qed.

Lemma span_until_spec (stop : ascii) (s : string) :
  s = (span_until stop s).1 +:+ (span_until stop s).2.
Proof.
  induction s as [|c s IH]; [reflexivity|]. simpl.
  destruct (Ascii.eqb c stop); [reflexivity|].
  cbn [fst snd]. rewrite LedgerFacts.append_cons, <- IH. reflexivity.
Qed.

Definition prefix_text : string := "[AIR:vault:".

(** The text that a match of the expression covers. *)
Definition token_text (cat tid : string) : string :=
  prefix_text +:+ cat +:+ ":" +:+ tid +:+ "]".

Lemma span_until_rest (stop : ascii) (s : string) :
  match (span_until stop s).2 with
  | EmptyString => True
  | String x _ => x = stop
  end.
Proof.
  induction s as [|c s IH]; simpl; [exact I|].
  destruct (Ascii.eqb_spec c stop) as [->|_]; [reflexivity|exact IH].
Qed.

Lemma match_token_spec (s cat tid rest : string) :
  match_token s = Some (cat, tid, rest) -> s = token_text cat tid +:+ rest.
Proof.
  unfold match_token, token_text, prefix_text.
  destruct (strip_prefix "[AIR:vault:" s) as [s1|] eqn:H1; [|discriminate].
  apply strip_prefix_spec in H1.
  pose proof (span_until_spec ":" s1) as H2.
  pose proof (span_until_rest ":" s1) as R2.
  destruct (span_until ":" s1) as [[|c1 cat'] [|x s2]]; try discriminate.
  pose proof (span_until_spec "]" s2) as H3.
  pose proof (span_until_rest "]" s2) as R3.
  destruct (span_until "]" s2) as [[|c2 tid'] [|y s3]]; try discriminate.
  intros [= <- <- <-]. cbn [fst snd] in H2, H3, R2, R3. subst x y.
  rewrite H1, H2, H3. rewrite !LedgerFacts.append_assoc. reflexivity.
Qed.

Lemma match_token_length (s cat tid rest : string) :
  match_token s = Some (cat, tid, rest) -> (String.length rest < String.length s)%nat.
Proof.
  intros H. apply match_token_spec in H. rewrite H.
  unfold token_text, prefix_text. rewrite !length_append. simpl. lia.
Qed.

Lemma match_token_token (cat tid rest : string) :
  cat <> EmptyString -> mentions ":" cat = false ->
  tid <> EmptyString -> mentions "]" tid = false ->
  match_token (token_text cat tid +:+ rest) = Some (cat, tid, rest).
Proof.
  intros Hc Hcm Ht Htm. unfold match_token, token_text, prefix_text.
  rewrite !LedgerFacts.append_assoc, strip_prefix_append.
  change (":" +:+ tid +:+ "]" +:+ rest) with (String ":" (tid +:+ String "]" rest)).
  rewrite (span_until_append ":" cat _ Hcm).
  destruct cat as [|c1 cat]; [congruence|].
  rewrite (span_until_append "]" tid _ Htm).
  destruct tid as [|c2 tid]; [congruence|]. reflexivity.
Qed.

Lemma match_token_other (c : ascii) (s : string) :
  c <> "["%char -> match_token (String c s) = None.
Proof.
  intros Hc. unfold match_token.
  change (strip_prefix "[AIR:vault:" (String c s))
    with (if Ascii.eqb "[" c then strip_prefix "AIR:vault:" s else None).
  destruct (Ascii.eqb_spec "[" c) as [<-|_]; [congruence|reflexivity].
Qed.

Lemma detokenize_loop_fuel (tk : gmap string VaultToken) (n m : nat) (s : string) :
  (String.length s <= n)%nat -> (String.length s <= m)%nat ->
  detokenize_loop n tk s = detokenize_loop m tk s.
Proof.
  revert m s. induction n as [|n IH]; intros m s Hn Hm.
  - destruct s; [|simpl in Hn; lia]. destruct m; reflexivity.
  - destruct s as [|c s]; [destruct m; reflexivity|].
    destruct m as [|m]; [simpl in Hm; lia|].
    cbn [detokenize_loop].
    destruct (match_token (String c s)) as [[[cat tid] rest]|] eqn:Hmt.
    + apply match_token_length in Hmt. simpl in *.
      rewrite (IH m rest) by lia. reflexivity.
    + simpl in *. rewrite (IH m s) by lia. reflexivity.
Qed.

(** One step of the scan at a character that starts no match. *)
Lemma detokenize_other (v : t) (c : ascii) (s : string) :
  match_token (String c s) = None ->
  detokenize v (String c s) = String c (detokenize v s).
Proof.
  intros Hmt. unfold detokenize. cbn [String.length detokenize_loop]. rewrite Hmt.
  reflexivity.
Qed.

(** One step of the scan at a match. *)
Lemma detokenize_match (v : t) (s cat tid rest : string) :
  match_token s = Some (cat, tid, rest) ->
  detokenize v s
  = match tokens v !! tid with
    | Some token => originalValue token
    | None => token_text cat tid
    end +:+ detokenize v rest.
Proof.
  intros Hmt. pose proof (match_token_length _ _ _ _ Hmt) as Hlen.
  unfold detokenize. destruct s as [|c s]; [discriminate|].
  cbn [String.length detokenize_loop]. rewrite Hmt.
  rewrite (detokenize_loop_fuel _ (String.length s) (String.length rest) rest)
    by (simpl in Hlen; lia).
  reflexivity.
Qed.

Lemma detokenize_before (v : t) (pre s : string) :
  mentions "[" pre = false -> detokenize v (pre +:+ s) = pre +:+ detokenize v s.
Proof.
  induction pre as [|c pre IH]; intros Hm; [reflexivity|].
  simpl in Hm. apply orb_false_iff in Hm as [Hc Hm].
  rewrite !LedgerFacts.append_cons, detokenize_other, (IH Hm); [reflexivity|].
  apply match_token_other. intros ->. discriminate.
Qed.

Lemma detokenize_empty (v : t) : detokenize v EmptyString = EmptyString.
Proof. reflexivity. Qed.

(** X23: a vault token is restored.  After the callback of [tokenize] has
    replaced a match, [detokenize] on any text in which the returned token
    follows a passage without [[] puts the matched text back in its place,
    verbatim, and goes on after the token; this needs the category to be
    non-empty and free of [:], and the first eight characters of the drawn
    UUID to be non-empty and free of []]. *)
Theorem detokenize_restores_the_match (env : ReplaceEnv) (cat secret : string) (v : t)
    (pre post : string) :
  let r := replace_match env cat secret v in
  let tid := String.substring 0 8 (uuid env) in
  cat <> EmptyString -> mentions ":" cat = false ->
  tid <> EmptyString -> mentions "]" tid = false ->
  mentions "[" pre = false ->
  detokenize r.1 (pre +:+ r.2 +:+ post) = pre +:+ secret +:+ detokenize r.1 post.
Proof.
  intros r tid Hc Hcm Ht Htm Hpre.
  rewrite detokenize_before by exact Hpre. f_equal.
  change r.2 with (token_text cat tid).
  rewrite (detokenize_match r.1 _ cat tid post) by (apply match_token_token; assumption).
  unfold r, replace_match. cbn [fst tokens]. fold tid.
  rewrite lookup_insert_eq. reflexivity.
Qed.

Definition scenario_vault : t :=
  new {| enabled := true; categories := ["api_key"; "credential"; "pii"];
         forwardToGateway := false; ttlMs := 86400000 |} None None.

Definition scenario_replace (id : string) : ReplaceEnv :=
  {| uuid := id; created := "2024-01-01T00:00:00.000Z";
     expires := "2024-01-02T00:00:00.000Z" |}.

Lemma detokenize_restores_the_match_witness :
  let r := replace_match (scenario_replace "3f2a9c1e-0000-4000-8000-000000000001")
                         "api_key" "sk-abcdefghijklmnopqrstuvwx" scenario_vault in
  r.2 = "[AIR:vault:api_key:3f2a9c1e]" /\
  detokenize r.1 ("key=" +:+ r.2 +:+ " end") =
  "key=" +:+ "sk-abcdefghijklmnopqrstuvwx" +:+ detokenize r.1 " end".
Proof.
  intros r. split; [reflexivity|].
  apply (detokenize_restores_the_match
           (scenario_replace "3f2a9c1e-0000-4000-8000-000000000001")
           "api_key" "sk-abcdefghijklmnopqrstuvwx" scenario_vault "key=" " end");
    first [discriminate | reflexivity].
Defined.

(** X24: tokens are looked up by their eight-character id alone.  When a
    later match draws a UUID with the same first eight characters, its entry
    replaces the earlier one, and the token issued for the earlier match is
    from then on restored to the later matched text. *)
Theorem later_token_with_the_same_id_wins (env1 env2 : ReplaceEnv)
    (cat1 cat2 secret1 secret2 : string) (v : t) :
  let tid := String.substring 0 8 (uuid env1) in
  let r1 := replace_match env1 cat1 secret1 v in
  let r2 := replace_match env2 cat2 secret2 r1.1 in
  String.substring 0 8 (uuid env2) = tid ->
  cat1 <> EmptyString -> mentions ":" cat1 = false ->
  tid <> EmptyString -> mentions "]" tid = false ->
  detokenize r1.1 r1.2 = secret1 /\ detokenize r2.1 r1.2 = secret2.
Proof.
  intros tid r1 r2 Hsame Hc Hcm Ht Htm.
  assert (Hm : match_token r1.2 = Some (cat1, tid, EmptyString)).
  { change r1.2 with (token_text cat1 tid).
    rewrite <- (LedgerFacts.append_empty_r (token_text cat1 tid)).
    apply match_token_token; assumption. }
  split.
  - rewrite (detokenize_match r1.1 _ cat1 tid EmptyString Hm).
    unfold r1, replace_match. cbn [fst tokens]. fold tid.
    rewrite lookup_insert_eq, detokenize_empty. apply LedgerFacts.append_empty_r.
  - rewrite (detokenize_match r2.1 _ cat1 tid EmptyString Hm).
    unfold r2, replace_match. cbn [fst tokens]. rewrite Hsame.
    rewrite lookup_insert_eq, detokenize_empty. apply LedgerFacts.append_empty_r.
Qed.

Lemma later_token_with_the_same_id_wins_witness :
  let r1 := replace_match (scenario_replace "3f2a9c1e-0000-4000-8000-000000000001")
                          "api_key" "sk-abcdefghijklmnopqrstuvwx" scenario_vault in
  let r2 := replace_match (scenario_replace "3f2a9c1e-1111-4111-8111-111111111111")
                          "pii" "alice@example.com" r1.1 in
  detokenize r1.1 r1.2 = "sk-abcdefghijklmnopqrstuvwx" /\
  detokenize r2.1 r1.2 = "alice@example.com".
Proof.
  apply (later_token_with_the_same_id_wins
           (scenario_replace "3f2a9c1e-0000-4000-8000-000000000001")
           (scenario_replace "3f2a9c1e-1111-4111-8111-111111111111")
           "api_key" "pii" "sk-abcdefghijklmnopqrstuvwx" "alice@example.com"
           scenario_vault);
    first [discriminate | reflexivity].
Defined.

Lemma detokenize_unknown (v : t) (n : nat) (text : string) :
  tokens v = ∅ -> (String.length text <= n)%nat -> detokenize v text = text.
Proof.
  intros Hv. revert text. induction n as [|n IH]; intros text Hn.
  - destruct text; [reflexivity|simpl in Hn; lia].
  - destruct text as [|c s]; [reflexivity|].
    destruct (match_token (String c s)) as [[[cat tid] rest]|] eqn:Hmt.
    + rewrite (detokenize_match v _ cat tid rest Hmt), Hv, lookup_empty.
      pose proof (match_token_length _ _ _ _ Hmt) as Hlen.
      rewrite IH by (simpl in Hn, Hlen; lia).
      symmetry. apply match_token_spec. exact Hmt.
    + rewrite (detokenize_other v c s Hmt), IH by (simpl in Hn; lia). reflexivity.
Qed.

(** X25: [detokenize] changes nothing it does not know: on a vault that
    holds no token, as every vault does when it is constructed, every text
    comes back as it went in, whatever token-like passages it contains. *)
Theorem detokenize_on_a_new_vault (config : VaultConfig) (gatewayUrl gatewayKey : option string)
    (text : string) :
  detokenize (new config gatewayUrl gatewayKey) text = text.
Proof. apply (detokenize_unknown _ (String.length text)); [reflexivity|lia]. Qed.

End VaultExtras.
